(** * Camera geometry and sampling kernels of [code/lib/utils/utils.py]

    A shallow embedding of the numerical kernels of the module:
    [quat_to_rot], [rot_to_quat], [lift], [get_camera_params],
    [get_sphere_intersections], [inverse_3x3_batch],
    [bilinear_interpolation], [get_index_outside_of_bbox] and
    [weighted_sampling].

    Numbers.  The kernels that only return values ([quat_to_rot],
    [lift], [get_camera_params], the coordinate helpers) are modelled
    over the real numbers [R]: an equation proved about them is the
    exact-arithmetic reading of a statement that the implementation
    satisfies up to floating tolerance.  The kernels that branch on a
    number they have computed are modelled with the rounding that
    decides the branch.  [get_sphere_intersections] and
    [inverse_3x3_batch] are written over a class of arithmetics, with
    the reals and IEEE binary32 as instances; [inverse_3x3_batch] is
    also given over [R] alone, where the one non-finite value the
    source writes explicitly, [float('nan')], is a constructor of
    [fval].  The numpy sampler computes in binary64, modelled on the
    rationals [Q] by rounding every result to the format.

    Effects.  [print] appends to a log, [exit()] and raised exceptions
    are results of type [error], and [np.random.rand] reads a stream of
    draws through an explicit cursor. *)

From Stdlib Require Import Reals Lra Psatz RNsatz.
From Stdlib Require Import ZArith QArith Qround Qabs Qpower Lia.
From Stdlib Require Import List String Bool Sorted SpecFloat.
Import ListNotations.

(* ================================================================= *)
(** ** Outcomes of a call *)

(** What ends a call other than [return]. *)
Inductive error : Type :=
| SystemExit                 (* [exit()] *)
| RuntimeError               (* torch: shape mismatch, index out of range *)
| ValueError (msg : string)  (* numpy *)
| IndexError                 (* numpy index out of bounds *)
| KeyError (key : string)    (* missing dict key *)
| OverflowError.             (* a Python number too large for a float or an int *)

(** A call that may print: the lines written to stdout, then either
    the error that ended it or the value returned. *)
Definition io (A : Type) : Type := (list string * (error + A))%type.

(* ================================================================= *)
(** ** Torch kernels over [R] *)

Section TorchDefs.
Local Open Scope R_scope.

Definition vec3 : Type := (R * R * R)%type.
Definition vec4 : Type := (R * R * R * R)%type.
Definition mat3 : Type := (vec3 * vec3 * vec3)%type.
Definition mat4 : Type := (vec4 * vec4 * vec4 * vec4)%type.

Definition Rle_bool (x y : R) : bool := if Rle_dec x y then true else false.
Definition Req_bool (x y : R) : bool := if Req_dec_T x y then true else false.

Definition dot3 (a b : vec3) : R :=
  let '(a0, a1, a2) := a in
  let '(b0, b1, b2) := b in
  a0 * b0 + a1 * b1 + a2 * b2.

Definition sub3 (a b : vec3) : vec3 :=
  let '(a0, a1, a2) := a in
  let '(b0, b1, b2) := b in
  (a0 - b0, a1 - b1, a2 - b2).

(** [v.norm(2, dim)] on a 3-vector and on a 4-vector. *)
Definition norm3 (v : vec3) : R :=
  let '(x, y, z) := v in sqrt (x ^ 2 + y ^ 2 + z ^ 2).

Definition norm4 (q : vec4) : R :=
  let '(a, b, c, d) := q in sqrt (a ^ 2 + b ^ 2 + c ^ 2 + d ^ 2).

(** [F.normalize(v, dim)]: [v / max(norm(v), eps)] with the default
    [eps = 1e-12]. *)
Definition normalize_eps : R := / 10 ^ 12.

Definition clamp_min (x lo : R) : R := Rmax x lo.

Definition normalize3 (v : vec3) : vec3 :=
  let n := clamp_min (norm3 v) normalize_eps in
  let '(x, y, z) := v in (x / n, y / n, z / n).

Definition normalize4 (q : vec4) : vec4 :=
  let n := clamp_min (norm4 q) normalize_eps in
  let '(a, b, c, d) := q in (a / n, b / n, c / n, d / n).

Fixpoint zip_with {A B C} (f : A -> B -> C) (l : list A) (m : list B) : list C :=
  match l, m with
  | a :: l', b :: m' => f a b :: zip_with f l' m'
  | _, _ => []
  end.

(* ----------------------------------------------------------------- *)
(** *** [quat_to_rot] and [rot_to_quat] *)

Definition quat_to_rot (q : vec4) : mat3 :=
  let '(qr, qi, qj, qk) := normalize4 q in
  ((1 - 2 * (qj ^ 2 + qk ^ 2), 2 * (qj * qi - qk * qr), 2 * (qi * qk + qr * qj)),
   (2 * (qj * qi + qk * qr), 1 - 2 * (qi ^ 2 + qk ^ 2), 2 * (qj * qk - qi * qr)),
   (2 * (qk * qi - qj * qr), 2 * (qj * qk + qi * qr), 1 - 2 * (qi ^ 2 + qj ^ 2))).

Definition rot_to_quat (m : mat3) : vec4 :=
  let '((R00, R01, R02), (R10, R11, R12), (R20, R21, R22)) := m in
  let q0 := sqrt (1 + R00 + R11 + R22) / 2 in
  let q1 := (R21 - R12) / (4 * q0) in
  let q2 := (R02 - R20) / (4 * q0) in
  let q3 := (R10 - R01) / (4 * q0) in
  (q0, q1, q2, q3).

(* ----------------------------------------------------------------- *)
(** *** [lift] and [get_camera_params] *)

(** The five slots of a 4x4 intrinsics matrix that [lift] reads. *)
Definition K_fx (K : mat4) : R := let '((a, _, _, _), _, _, _) := K in a.
Definition K_sk (K : mat4) : R := let '((_, b, _, _), _, _, _) := K in b.
Definition K_cx (K : mat4) : R := let '((_, _, c, _), _, _, _) := K in c.
Definition K_fy (K : mat4) : R := let '(_, (_, b, _, _), _, _) := K in b.
Definition K_cy (K : mat4) : R := let '(_, (_, _, c, _), _, _) := K in c.

(** One sample of [lift]: the homogeneous camera-space point. *)
Definition lift (x y z : R) (intrinsics : mat4) : vec4 :=
  let fx := K_fx intrinsics in
  let fy := K_fy intrinsics in
  let cx := K_cx intrinsics in
  let cy := K_cy intrinsics in
  let sk := K_sk intrinsics in
  let x_lift := (x - cx + cy * sk / fy - sk * y / fy) / fx * z in
  let y_lift := (y - cy) / fy * z in
  (x_lift, y_lift, z, 1).

(** A pose batch has one of two shapes: [(B, 7)] rows
    [qw qx qy qz tx ty tz], or [(B, 4, 4)] matrices. *)
Definition vec7 : Type := (R * R * R * R * R * R * R)%type.

Inductive pose_batch : Type :=
| PoseQuat (rows : list vec7)
| PoseMat (mats : list mat4).

(** [pose[:, :4]] and [pose[:, 4:]] of one row. *)
Definition pose_quat (p : vec7) : vec4 :=
  let '(qw, qx, qy, qz, _, _, _) := p in (qw, qx, qy, qz).
Definition pose_loc (p : vec7) : vec3 :=
  let '(_, _, _, _, tx, ty, tz) := p in (tx, ty, tz).

(** [pose[:, :3, 3]] of one matrix. *)
Definition mat4_loc (p : mat4) : vec3 :=
  let '((_, _, _, a), (_, _, _, b), (_, _, _, c), _) := p in (a, b, c).

Definition eye4 : mat4 :=
  ((1, 0, 0, 0), (0, 1, 0, 0), (0, 0, 1, 0), (0, 0, 0, 1)).

(** [p[:3, :3] = R] and [p[:3, 3] = t] on one matrix. *)
Definition set_rot (p : mat4) (m : mat3) : mat4 :=
  let '((_, _, _, a), (_, _, _, b), (_, _, _, c), last) := p in
  let '((r00, r01, r02), (r10, r11, r12), (r20, r21, r22)) := m in
  ((r00, r01, r02, a), (r10, r11, r12, b), (r20, r21, r22, c), last).

Definition set_loc (p : mat4) (t : vec3) : mat4 :=
  let '((a0, a1, a2, _), (b0, b1, b2, _), (c0, c1, c2, _), last) := p in
  let '(tx, ty, tz) := t in
  ((a0, a1, a2, tx), (b0, b1, b2, ty), (c0, c1, c2, tz), last).

(** [torch.bmm(p, pts)[..., :3]] for one matrix and one homogeneous
    point: the first three rows of [p] applied to the point. *)
Definition apply_pose (p : mat4) (v : vec4) : vec3 :=
  let '((a0, a1, a2, a3), (b0, b1, b2, b3), (c0, c1, c2, c3), _) := p in
  let '(x, y, z, w) := v in
  (a0 * x + a1 * y + a2 * z + a3 * w,
   b0 * x + b1 * y + b2 * z + b3 * w,
   c0 * x + c1 * y + c2 * z + c3 * w).

(** The direction of one pixel of one image, before and after
    [F.normalize]. *)
Definition raw_dir (p : mat4) (cam_loc : vec3) (K : mat4) (uv : R * R) : vec3 :=
  let pixel_point_cam := lift (fst uv) (snd uv) 1 K in
  let world_coords := apply_pose p pixel_point_cam in
  sub3 world_coords cam_loc.

Definition ray_dir (p : mat4) (cam_loc : vec3) (K : mat4) (uv : R * R) : vec3 :=
  normalize3 (raw_dir p cam_loc K uv).

(** Broadcasting of the intrinsics batch against [B] images: a batch
    of one is repeated, a batch of [B] is used as it is, anything
    else makes [torch.stack] in [lift] fail. *)
Definition broadcast_batch {A} (l : list A) (B : nat) : option (list A) :=
  if (List.length l =? B)%nat then Some l
  else match l with
       | [a] => Some (repeat a B)
       | _ => None
       end.

Fixpoint zip_with3 {A B C D} (f : A -> B -> C -> D)
    (l : list A) (m : list B) (n : list C) : list D :=
  match l, m, n with
  | a :: l', b :: m', c :: n' => f a b c :: zip_with3 f l' m' n'
  | _, _, _ => []
  end.

Definition get_camera_params (uv : list (list (R * R))) (pose : pose_batch)
    (intrinsics : list mat4) : error + (list (list vec3) * list vec3) :=
  let '(cam_loc, p) :=
    match pose with
    | PoseQuat rows =>
        let cam_loc := map pose_loc rows in
        let R := map (fun row => quat_to_rot (pose_quat row)) rows in
        let p := repeat eye4 (List.length rows) in
        let p := zip_with set_rot p R in
        let p := zip_with set_loc p cam_loc in
        (cam_loc, p)
    | PoseMat mats => (map mat4_loc mats, mats)
    end in
  let batch_size := List.length uv in
  match broadcast_batch intrinsics batch_size with
  | None => inl RuntimeError
  | Some Ks =>
      if (List.length p =? batch_size)%nat
      then inr (zip_with3 (fun p_b c_b '(K_b, uv_b) => map (ray_dir p_b c_b K_b) uv_b)
                  p cam_loc (combine Ks uv),
                cam_loc)
      else inl RuntimeError
  end.

(* ----------------------------------------------------------------- *)
(** *** [inverse_3x3_batch] *)

(** The function in exact arithmetic, where a determinant tests equal
    to zero exactly when it is zero; [inverse_3x3_batch_in] below is
    the function in the arithmetic of its tensor. *)

(** A tensor entry after a division: a finite real, an infinity
    (nonzero over zero; the sign of a zero is not tracked) or NaN. *)
Inductive fval : Type :=
| Fin (x : R)
| Inf
| NaN.

Definition fmat3 : Type := ((fval * fval * fval) * (fval * fval * fval) * (fval * fval * fval))%type.

Definition fdiv (a d : R) : fval :=
  if Req_bool d 0 then (if Req_bool a 0 then NaN else Inf) else Fin (a / d).

Definition det3 (mat : mat3) : R :=
  let '((m00, m01, m02), (m10, m11, m12), (m20, m21, m22)) := mat in
  m00 * (m11 * m22 - m12 * m21) -
  m01 * (m10 * m22 - m12 * m20) +
  m02 * (m10 * m21 - m11 * m20).

Definition adj3 (mat : mat3) : mat3 :=
  let '((m00, m01, m02), (m10, m11, m12), (m20, m21, m22)) := mat in
  ((m11 * m22 - m12 * m21, m02 * m21 - m01 * m22, m01 * m12 - m02 * m11),
   (m12 * m20 - m10 * m22, m00 * m22 - m02 * m20, m10 * m02 - m00 * m12),
   (m10 * m21 - m11 * m20, m20 * m01 - m00 * m21, m00 * m11 - m10 * m01)).

(** [adj / det.unsqueeze(-1).unsqueeze(-1)] on one element. *)
Definition div_mat3 (a : mat3) (d : R) : fmat3 :=
  let '((a00, a01, a02), (a10, a11, a12), (a20, a21, a22)) := a in
  ((fdiv a00 d, fdiv a01 d, fdiv a02 d),
   (fdiv a10 d, fdiv a11 d, fdiv a12 d),
   (fdiv a20 d, fdiv a21 d, fdiv a22 d)).

Definition nan_mat3 : fmat3 :=
  ((NaN, NaN, NaN), (NaN, NaN, NaN), (NaN, NaN, NaN)).

(** [t[mask] = float('nan')] *)
Definition masked_fill_nan (mask : list bool) (t : list fmat3) : list fmat3 :=
  zip_with (fun (s : bool) m => if s then nan_mat3 else m) mask t.

Definition inverse_3x3_batch (mat : list mat3) : io (list fmat3) :=
  let det := map det3 mat in
  let singular_mask := map (fun d => Req_bool d 0) det in
  let out :=
    if existsb (fun b : bool => b) singular_mask
    then ["Warning: Singular matrices found."%string] else [] in
  let adj := map adj3 mat in
  let inv_matrices := zip_with div_mat3 adj det in
  let inv_matrices := masked_fill_nan singular_mask inv_matrices in
  (out, inr inv_matrices).

(* ----------------------------------------------------------------- *)
(** *** Notions the statements use *)

(** The discriminant as the specification writes it:
    [b^2 - (|o|^2 - r^2)] with [b = dot(d, o)]. *)
Definition disc (r : R) (o d : vec3) : R :=
  dot3 d o ^ 2 - (dot3 o o - r ^ 2).

(** The per-ray discriminants of a well-shaped batch. *)
Definition discs (r : R) (cam_loc ray_directions : list vec3) : list R :=
  map (fun ray => disc r (fst ray) (snd ray)) (combine cam_loc ray_directions).

(** Matrix product and identity, for [M @ Minv = I]. *)
Definition row3 (m : mat3) (i : nat) : vec3 :=
  let '(r0, r1, r2) := m in
  match i with O => r0 | S O => r1 | _ => r2 end.
Definition col3 (m : mat3) (j : nat) : vec3 :=
  let '((m00, m01, m02), (m10, m11, m12), (m20, m21, m22)) := m in
  match j with O => (m00, m10, m20) | S O => (m01, m11, m21) | _ => (m02, m12, m22) end.
Definition matmul3 (a b : mat3) : mat3 :=
  ((dot3 (row3 a 0) (col3 b 0), dot3 (row3 a 0) (col3 b 1), dot3 (row3 a 0) (col3 b 2)),
   (dot3 (row3 a 1) (col3 b 0), dot3 (row3 a 1) (col3 b 1), dot3 (row3 a 1) (col3 b 2)),
   (dot3 (row3 a 2) (col3 b 0), dot3 (row3 a 2) (col3 b 1), dot3 (row3 a 2) (col3 b 2))).
Definition eye3 : mat3 := ((1, 0, 0), (0, 1, 0), (0, 0, 1)).

(** Cofactor expansion and adjugate as the glossary defines them: the
    minor deletes a row and a column, the cofactor signs it, the
    adjugate is the transpose of the cofactor matrix. *)
Definition entry3 (m : mat3) (i j : nat) : R :=
  let '(x, y, z) := row3 m i in
  match j with O => x | S O => y | _ => z end.
Definition others (i : nat) : nat * nat :=
  match i with O => (1, 2) | S O => (0, 2) | _ => (0, 1) end%nat.
Definition minor3 (m : mat3) (i j : nat) : R :=
  let '(r1, r2) := others i in
  let '(c1, c2) := others j in
  entry3 m r1 c1 * entry3 m r2 c2 - entry3 m r1 c2 * entry3 m r2 c1.
Definition cofactor3 (m : mat3) (i j : nat) : R :=
  (-1) ^ (i + j) * minor3 m i j.
Definition det_by_cofactors (m : mat3) : R :=
  entry3 m 0 0 * cofactor3 m 0 0 + entry3 m 0 1 * cofactor3 m 0 1
  + entry3 m 0 2 * cofactor3 m 0 2.
Definition adjugate (m : mat3) : mat3 :=
  ((cofactor3 m 0 0, cofactor3 m 1 0, cofactor3 m 2 0),
   (cofactor3 m 0 1, cofactor3 m 1 1, cofactor3 m 2 1),
   (cofactor3 m 0 2, cofactor3 m 1 2, cofactor3 m 2 2)).

(** The finite tensor with the given real entries. *)
Definition fin_mat3 (a : mat3) : fmat3 :=
  let '((a00, a01, a02), (a10, a11, a12), (a20, a21, a22)) := a in
  ((Fin a00, Fin a01, Fin a02),
   (Fin a10, Fin a11, Fin a12),
   (Fin a20, Fin a21, Fin a22)).

(** [adjugate / determinant], entry by entry. *)
Definition scale_mat3 (a : mat3) (d : R) : mat3 :=
  let '((a00, a01, a02), (a10, a11, a12), (a20, a21, a22)) := a in
  ((a00 / d, a01 / d, a02 / d),
   (a10 / d, a11 / d, a12 / d),
   (a20 / d, a21 / d, a22 / d)).

(** The rotation block [p[:3, :3]] of a pose matrix and its transpose. *)
Definition mat4_rot (p : mat4) : mat3 :=
  let '((a0, a1, a2, _), (b0, b1, b2, _), (c0, c1, c2, _), _) := p in
  ((a0, a1, a2), (b0, b1, b2), (c0, c1, c2)).
Definition transpose3 (m : mat3) : mat3 := (col3 m 0, col3 m 1, col3 m 2).

(** The 4x4 homogeneous pose equivalent to a quaternion and a
    translation: rotation block [quat_to_rot q], last column [t],
    bottom row [0 0 0 1]. *)
Definition homogeneous_pose (row : vec7) : mat4 :=
  let '((r00, r01, r02), (r10, r11, r12), (r20, r21, r22)) := quat_to_rot (pose_quat row) in
  let '(tx, ty, tz) := pose_loc row in
  ((r00, r01, r02, tx), (r10, r11, r12, ty), (r20, r21, r22, tz), (0, 0, 0, 1)).

Definition neg4 (q : vec4) : vec4 :=
  let '(a, b, c, d) := q in (- a, - b, - c, - d).

(** A pose matrix is a rigid transform when its rotation block [Rm]
    satisfies [Rm^T @ Rm = I]. *)
Definition rigid (p : mat4) : Prop :=
  matmul3 (transpose3 (mat4_rot p)) (mat4_rot p) = eye3.

(** A valid pose batch: rigid matrices, or quaternions whose norm is
    not below the clamp of [F.normalize] (unit quaternions are). *)
Definition valid_pose (pose : pose_batch) : Prop :=
  match pose with
  | PoseQuat rows => Forall (fun row => normalize_eps <= norm4 (pose_quat row)) rows
  | PoseMat mats => Forall rigid mats
  end.

(** The translation component of each pose: [pose[:, 4:]] for
    7-vectors, [pose[:, :3, 3]] for matrices. *)
Definition pose_translation (pose : pose_batch) : list vec3 :=
  match pose with
  | PoseQuat rows => map pose_loc rows
  | PoseMat mats => map mat4_loc mats
  end.

Definition pose_size (pose : pose_batch) : nat :=
  match pose with
  | PoseQuat rows => List.length rows
  | PoseMat mats => List.length mats
  end.

Definition mul_mat3_vec (m : mat3) (v : vec3) : vec3 :=
  (dot3 (row3 m 0) v, dot3 (row3 m 1) v, dot3 (row3 m 2) v).

End TorchDefs.

(* ================================================================= *)
(** ** The arithmetic of a tensor *)

(** [get_sphere_intersections] and [inverse_3x3_batch] choose what to
    do (exit, warn, overwrite with NaN) by testing numbers they have
    computed, so the branch a call takes depends on the arithmetic of
    its tensors.  These two kernels are written once, over the
    operations a tensor offers, and read in two arithmetics: the exact
    one, where no operation rounds, and IEEE binary32, the arithmetic
    of a [torch.float32] tensor.

    [f_bmm_1x3_3x1] and [f_norm] are library kernels, whose order of
    accumulation the source does not fix; [py_float] is the type of a
    Python number standing next to a tensor (the radius [r]), squared
    by Python before torch sees it. *)
Class Arith (F : Type) : Type := {
  f_of_Z : Z -> F;                        (* an integer constant *)
  f_add : F -> F -> F;
  f_sub : F -> F -> F;
  f_mul : F -> F -> F;
  f_div : F -> F -> F;
  f_sqrt : F -> F;                        (* [torch.sqrt] *)
  f_clamp_min : F -> F -> F;              (* [t.clamp_min(lo)] *)
  f_leb : F -> F -> bool;                 (* [<=] *)
  f_eqb : F -> F -> bool;                 (* [==] *)
  f_bmm_1x3_3x1 : F * F * F -> F * F * F -> F;   (* one product of [torch.bmm] *)
  f_norm : F * F * F -> F;                (* [v.norm(2, 1)] on one row *)
  py_float : Type;
  py_sq : py_float -> py_float;           (* [r ** 2] *)
  f_of_py : py_float -> F                 (* a Python scalar as a tensor entry *)
}.

(** Exact arithmetic: the real numbers. *)
#[global] Instance exact_arith : Arith R := {|
  f_of_Z := IZR;
  f_add := Rplus;
  f_sub := Rminus;
  f_mul := Rmult;
  f_div := Rdiv;
  f_sqrt := sqrt;
  f_clamp_min := clamp_min;
  f_leb := Rle_bool;
  f_eqb := Req_bool;
  f_bmm_1x3_3x1 := dot3;
  f_norm := norm3;
  py_float := R;
  py_sq := fun r => (r * r)%R;
  f_of_py := fun r => r
|}.

(** IEEE binary32, rounding to nearest even: 24 significant bits,
    exponents below 128.  A Python float is a binary64 value (53 bits,
    exponents below 1024), rounded to binary32 when it meets a
    tensor.  The products of [bmm] and the squares of [norm] are
    summed from the left. *)
Definition binary32 : Type := spec_float.

Definition b32_of_Z (n : Z) : binary32 := binary_normalize 24 128 n 0 false.

Definition b32_of_b64 (x : spec_float) : binary32 :=
  match x with
  | S754_finite s m e => binary_round 24 128 s m e
  | _ => x
  end.

Definition b32_clamp_min (x lo : binary32) : binary32 :=
  if SFltb x lo then lo else x.

Definition b32_dot3 (a b : binary32 * binary32 * binary32) : binary32 :=
  let '(a0, a1, a2) := a in
  let '(b0, b1, b2) := b in
  SFadd 24 128 (SFadd 24 128 (SFmul 24 128 a0 b0) (SFmul 24 128 a1 b1))
               (SFmul 24 128 a2 b2).

Definition b32_norm3 (v : binary32 * binary32 * binary32) : binary32 :=
  SFsqrt 24 128 (b32_dot3 v v).

#[global] Instance binary32_arith : Arith binary32 := {|
  f_of_Z := b32_of_Z;
  f_add := SFadd 24 128;
  f_sub := SFsub 24 128;
  f_mul := SFmul 24 128;
  f_div := SFdiv 24 128;
  f_sqrt := SFsqrt 24 128;
  f_clamp_min := b32_clamp_min;
  f_leb := SFleb;
  f_eqb := SFeqb;
  f_bmm_1x3_3x1 := b32_dot3;
  f_norm := b32_norm3;
  py_float := spec_float;
  py_sq := fun r => SFmul 53 1024 r r;
  f_of_py := b32_of_b64
|}.

Section TensorKernels.
Context {F : Type} {A : Arith F}.

Definition gvec3 : Type := (F * F * F)%type.
Definition gmat3 : Type := (gvec3 * gvec3 * gvec3)%type.

(* ----------------------------------------------------------------- *)
(** *** [get_sphere_intersections] *)

(** [torch.bmm(ray_directions.view(-1,1,3), cam_loc.view(-1,3,1))]:
    one dot product per ray; [bmm] refuses batches of different sizes. *)
Fixpoint bmm_1x3_3x1 (ds os : list gvec3) : option (list F) :=
  match ds, os with
  | [], [] => Some []
  | d :: ds', o :: os' =>
      match bmm_1x3_3x1 ds' os' with
      | Some l => Some (f_bmm_1x3_3x1 d o :: l)
      | None => None
      end
  | _, _ => None
  end.

(** [ray_cam_dot**2 - (cam_loc.norm(2,1,keepdim=True)**2 - r**2)],
    row by row. *)
Definition under_sqrt_row (r : py_float) (b : F) (o : gvec3) : F :=
  let n := f_norm o in
  f_sub (f_mul b b) (f_sub (f_mul n n) (f_of_py (py_sq r))).

(** [(t <= 0).sum()] *)
Definition count_le_zero (t : list F) : nat :=
  List.length (filter (fun u => f_leb u (f_of_Z 0)) t).

(** [torch.sqrt(u) * Tensor([-1, 1]) - b] followed by [clamp_min(0.0)]:
    one row [(near, far)] per ray. *)
Definition intersections_row (u b : F) : F * F :=
  (f_clamp_min (f_sub (f_mul (f_sqrt u) (f_of_Z (-1))) b) (f_of_Z 0),
   f_clamp_min (f_sub (f_mul (f_sqrt u) (f_of_Z 1)) b) (f_of_Z 0)).

Definition get_sphere_intersections
    (cam_loc ray_directions : list gvec3) (r : py_float) : io (list (F * F)) :=
  match bmm_1x3_3x1 ray_directions cam_loc with
  | None => ([], inl RuntimeError)
  | Some ray_cam_dot =>
      let under_sqrt := zip_with (under_sqrt_row r) ray_cam_dot cam_loc in
      if (0 <? count_le_zero under_sqrt)%nat
      then (["BOUNDING SPHERE PROBLEM!"%string], inl SystemExit)
      else ([], inr (zip_with intersections_row under_sqrt ray_cam_dot))
  end.

(* ----------------------------------------------------------------- *)
(** *** [inverse_3x3_batch] in the arithmetic of the tensor *)

Definition det3_in (mat : gmat3) : F :=
  let '((m00, m01, m02), (m10, m11, m12), (m20, m21, m22)) := mat in
  f_add
    (f_sub (f_mul m00 (f_sub (f_mul m11 m22) (f_mul m12 m21)))
           (f_mul m01 (f_sub (f_mul m10 m22) (f_mul m12 m20))))
    (f_mul m02 (f_sub (f_mul m10 m21) (f_mul m11 m20))).

Definition adj3_in (mat : gmat3) : gmat3 :=
  let '((m00, m01, m02), (m10, m11, m12), (m20, m21, m22)) := mat in
  ((f_sub (f_mul m11 m22) (f_mul m12 m21),
    f_sub (f_mul m02 m21) (f_mul m01 m22),
    f_sub (f_mul m01 m12) (f_mul m02 m11)),
   (f_sub (f_mul m12 m20) (f_mul m10 m22),
    f_sub (f_mul m00 m22) (f_mul m02 m20),
    f_sub (f_mul m10 m02) (f_mul m00 m12)),
   (f_sub (f_mul m10 m21) (f_mul m11 m20),
    f_sub (f_mul m20 m01) (f_mul m00 m21),
    f_sub (f_mul m00 m11) (f_mul m10 m01))).

(** [adj / det.unsqueeze(-1).unsqueeze(-1)] on one element. *)
Definition div_mat3_in (a : gmat3) (d : F) : gmat3 :=
  let '((a00, a01, a02), (a10, a11, a12), (a20, a21, a22)) := a in
  ((f_div a00 d, f_div a01 d, f_div a02 d),
   (f_div a10 d, f_div a11 d, f_div a12 d),
   (f_div a20 d, f_div a21 d, f_div a22 d)).

(** An element of the result: the quotient as computed, or
    [float('nan')] written over every entry. *)
Inductive filled : Type :=
| Kept (m : gmat3)
| AllNaN.

(** [t[mask] = float('nan')] *)
Definition masked_fill_nan_in (mask : list bool) (t : list gmat3) : list filled :=
  zip_with (fun (s : bool) m => if s then AllNaN else Kept m) mask t.

Definition inverse_3x3_batch_in (mat : list gmat3) : io (list filled) :=
  let det := map det3_in mat in
  let singular_mask := map (fun d => f_eqb d (f_of_Z 0)) det in
  let out :=
    if existsb (fun b : bool => b) singular_mask
    then ["Warning: Singular matrices found."%string] else [] in
  let adj := map adj3_in mat in
  let inv_matrices := zip_with div_mat3_in adj det in
  let inv_matrices := masked_fill_nan_in singular_mask inv_matrices in
  (out, inr inv_matrices).

(* ----------------------------------------------------------------- *)
(** *** Notions the statements use *)

(** What the code computes under the square root for one ray. *)
Definition under_sqrt_of_ray (r : py_float) (o d : gvec3) : F :=
  under_sqrt_row r (f_bmm_1x3_3x1 d o) o.

End TensorKernels.

Arguments filled F : clear implicits.
Arguments Kept {F} m.
Arguments AllNaN {F}.
Arguments gvec3 F : clear implicits.
Arguments gmat3 F : clear implicits.

(** The real number a finite binary value stands for (0 for the
    values that stand for none). *)
Definition float_to_R (x : spec_float) : R :=
  match x with
  | S754_finite s m e =>
      ((if s then -1 else 1) * IZR (Zpos m) * powerRZ 2 e)%R
  | _ => 0%R
  end.

Definition vec3_to_R (v : gvec3 binary32) : vec3 :=
  let '(x, y, z) := v in (float_to_R x, float_to_R y, float_to_R z).

Definition mat3_to_R (m : gmat3 binary32) : mat3 :=
  let '(r0, r1, r2) := m in (vec3_to_R r0, vec3_to_R r1, vec3_to_R r2).

(** The binary32 and binary64 values nearest to [m * 2^e]. *)
Definition b32 (m e : Z) : binary32 := binary_normalize 24 128 m e false.
Definition b64 (m e : Z) : spec_float := binary_normalize 53 1024 m e false.

(** An element as [inverse_3x3_batch] over [R] shows it. *)
Definition fill_value (x : filled R) : fmat3 :=
  match x with
  | Kept m => fin_mat3 m
  | AllNaN => nan_mat3
  end.

(* ----------------------------------------------------------------- *)
(** *** Inputs for concrete runs *)

(** The radius [1.0]. *)
Definition unit_radius : spec_float := b64 1 0.

(** A ray tangent to the unit sphere: from [(-1, 1, 0)] along the
    first axis. *)
Definition tangent_origin : gvec3 binary32 := (b32 (-1) 0, b32 1 0, b32 0 0).
Definition tangent_direction : gvec3 binary32 := (b32 1 0, b32 0 0, b32 0 0).

(** A ray that passes just inside the unit sphere: from
    [(2, 1 - 2^-23, 0)] against the first axis. *)
Definition grazing_origin : gvec3 binary32 :=
  (b32 2 0, b32 16777214 (-24), b32 0 0).
Definition grazing_direction : gvec3 binary32 := (b32 (-1) 0, b32 0 0, b32 0 0).

(** The camera on the third axis at distance 2, looking at the origin,
    and the same camera looking sideways. *)
Definition axis_origin : gvec3 binary32 := (b32 0 0, b32 0 0, b32 2 0).
Definition axis_direction : gvec3 binary32 := (b32 0 0, b32 0 0, b32 (-1) 0).
Definition side_direction : gvec3 binary32 := (b32 1 0, b32 0 0, b32 0 0).

(** [2^-50] on the diagonal: a matrix whose determinant, [2^-150], is
    not zero and lies below the smallest positive binary32 value. *)
Definition tiny_diagonal : gmat3 binary32 :=
  ((b32 1 (-50), b32 0 0, b32 0 0),
   (b32 0 0, b32 1 (-50), b32 0 0),
   (b32 0 0, b32 0 0, b32 1 (-50))).

(** [diag(2, 1, 1)] and the zero matrix. *)
Definition double_diagonal : gmat3 binary32 :=
  ((b32 2 0, b32 0 0, b32 0 0),
   (b32 0 0, b32 1 0, b32 0 0),
   (b32 0 0, b32 0 0, b32 1 0)).
Definition zero_matrix : gmat3 binary32 :=
  ((b32 0 0, b32 0 0, b32 0 0),
   (b32 0 0, b32 0 0, b32 0 0),
   (b32 0 0, b32 0 0, b32 0 0)).

(* ================================================================= *)
(** ** Binary floating point on the rationals *)

(** Every finite float is a rational, and the result of a float
    operation is the exact result rounded to the format: to the nearest
    value with [prec] significant bits and exponent at least [emin],
    ties going to the even significand.  [round_fp] is that rounding;
    the exponent is not bounded above, so overflow is tested apart. *)
Section FloatRounding.
Local Open Scope Q_scope.

(** The nearest integer, ties to the even one. *)
Definition rne (x : Q) : Z :=
  let f := Qfloor x in
  match Qcompare (x - inject_Z f) (1 # 2) with
  | Lt => f
  | Gt => (f + 1)%Z
  | Eq => if Z.even f then f else (f + 1)%Z
  end.

(** The exponent [e] with [2 ^ (e - 1) <= |x| < 2 ^ e], for [x]
    other than zero. *)
Definition magnitude (x : Q) : Z :=
  let e := (Z.log2 (Z.abs (Qnum x)) - Z.log2 (Zpos (Qden x)))%Z in
  if Qle_bool (2 ^ e) (Qabs x) then (e + 1)%Z else e.

(** The exponent of the last place of [x]: [prec] bits below its
    magnitude, and not below [emin] (the subnormal range). *)
Definition ulp_exponent (prec emin : Z) (x : Q) : Z :=
  Z.max (magnitude x - prec) emin.

Definition round_magnitude (prec emin : Z) (x : Q) : Q :=
  let e := ulp_exponent prec emin x in
  inject_Z (rne (x / 2 ^ e)) * 2 ^ e.

(** Floats are sign and magnitude: a negative number rounds as its
    opposite does. *)
Definition round_fp (prec emin : Z) (x : Q) : Q :=
  if Qle_bool 0 x then round_magnitude prec emin x
  else - round_magnitude prec emin (- x).

(** binary64, the [float] of Python and the [float64] of numpy:
    53 significant bits, smallest subnormal [2 ^ -1074], infinite from
    [2 ^ 1024] on. *)
Definition round_f64 : Q -> Q := round_fp 53 (-1074).

Definition f64_overflows (x : Q) : bool := Qle_bool (2 ^ 1024) (Qabs x).

(** An integer taken into a float64 operation. *)
Definition f64_of_int (n : Z) : Q := round_f64 (inject_Z n).

End FloatRounding.

(* ================================================================= *)
(** ** Numpy sampler, in binary64 on [Q] *)

Section SamplerDefs.
Local Open Scope Z_scope.

(** A dense array with its shape: [(H, W)] or [(H, W, C)].  Booleans
    are [0] and [1]. *)
Record array2 : Type := { a2_H : nat; a2_W : nat; a2_at : nat -> nat -> Q }.
Record array3 : Type :=
  { a3_H : nat; a3_W : nat; a3_C : nat; a3_at : nat -> nat -> nat -> Q }.

Inductive ndarray : Type :=
| Arr2 (a : array2)
| Arr3 (a : array3).

(** [val[:, :, i]] *)
Definition channel (a : array3) (i : nat) : array2 :=
  {| a2_H := a3_H a; a2_W := a3_W a; a2_at := fun x y => a3_at a x y i |}.

(** An array from its rows, for concrete inputs. *)
Definition array2_of_rows (rows : list (list Q)) : array2 :=
  {| a2_H := List.length rows;
     a2_W := List.length (hd [] rows);
     a2_at := fun i j => nth j (nth i rows []) 0%Q |}.

(** One axis of numpy integer indexing: [0 <= i < n] counts from the
    front, [-n <= i < 0] from the back, anything else is out of
    bounds. *)
Definition np_axis_index (n : nat) (i : Z) : option nat :=
  if (0 <=? i) && (i <? Z.of_nat n) then Some (Z.to_nat i)
  else if (- Z.of_nat n <=? i) && (i <? 0) then Some (Z.to_nat (i + Z.of_nat n))
  else None.

(** [dist_map[x, y]] *)
Definition gather (dist_map : array2) (x y : Z) : option Q :=
  match np_axis_index (a2_H dist_map) x, np_axis_index (a2_W dist_map) y with
  | Some i, Some j => Some (a2_at dist_map i j)
  | _, _ => None
  end.

(** [bilinear_interpolation] at one coordinate: [dx @ Q @ dy]. *)
Definition bilinear_one (dist_map : array2) (xs ys : Q) : option Q :=
  let x1 := Qfloor xs in
  let y1 := Qfloor ys in
  let x2 := x1 + 1 in
  let y2 := y1 + 1 in
  let dx0 := (inject_Z x2 - xs)%Q in
  let dx1 := (xs - inject_Z x1)%Q in
  let dy0 := (inject_Z y2 - ys)%Q in
  let dy1 := (ys - inject_Z y1)%Q in
  match gather dist_map x1 y1, gather dist_map x1 y2,
        gather dist_map x2 y1, gather dist_map x2 y2 with
  | Some q11, Some q12, Some q21, Some q22 =>
      Some ((dx0 * q11 + dx1 * q21) * dy0 + (dx0 * q12 + dx1 * q22) * dy1)%Q
  | _, _, _, _ => None
  end.

(** All or nothing over a list: the first failure ends the call. *)
Fixpoint traverse {E A B} (f : A -> E + B) (l : list A) : E + list B :=
  match l with
  | [] => inr []
  | a :: l' =>
      match f a with
      | inl e => inl e
      | inr b =>
          match traverse f l' with
          | inl e => inl e
          | inr bs => inr (b :: bs)
          end
      end
  end.

(** [bilinear_interpolation(indices[:, 0], indices[:, 1], dist_map)]:
    the coordinates come as the rows of [indices]. *)
Definition bilinear_interpolation (indices : list (Q * Q)) (dist_map : array2)
  : error + list Q :=
  traverse (fun '(xs, ys) =>
              match bilinear_one dist_map xs ys with
              | Some v => inr v
              | None => inl IndexError
              end) indices.

(** [get_index_outside_of_bbox]: positions of the rows that leave the
    box on either axis, in order. *)
Fixpoint index_outside_from (i : Z) (samples_uniform : list (Q * Q))
    (bbox_min bbox_max : Z * Z) : list Z :=
  match samples_uniform with
  | [] => []
  | (row, col) :: rest =>
      let tail := index_outside_from (i + 1) rest bbox_min bbox_max in
      if negb (Qle_bool (inject_Z (fst bbox_min)) row)
         || negb (Qle_bool row (inject_Z (fst bbox_max)))
         || negb (Qle_bool (inject_Z (snd bbox_min)) col)
         || negb (Qle_bool col (inject_Z (snd bbox_max)))
      then i :: tail else tail
  end.

Definition get_index_outside_of_bbox (samples_uniform : list (Q * Q))
    (bbox_min bbox_max : Z * Z) : list Z :=
  index_outside_from 0 samples_uniform bbox_min bbox_max.

(** [np.where(a)]: per axis, the indices of the nonzero entries in
    row-major order. *)
Definition nonzero (q : Q) : bool := negb (Qeq_bool q 0).

Definition where2 (a : array2) : list (nat * nat) :=
  filter (fun '(i, j) => nonzero (a2_at a i j))
         (list_prod (seq 0 (a2_H a)) (seq 0 (a2_W a))).

Definition where3 (a : array3) : list (nat * nat * nat) :=
  filter (fun '(i, j, k) => nonzero (a3_at a i j k))
         (list_prod (list_prod (seq 0 (a3_H a)) (seq 0 (a3_W a))) (seq 0 (a3_C a))).

Definition np_where (mask : ndarray) : list (list Z) :=
  match mask with
  | Arr2 a =>
      let w := where2 a in
      [map (fun p => Z.of_nat (fst p)) w; map (fun p => Z.of_nat (snd p)) w]
  | Arr3 a =>
      let w := where3 a in
      [map (fun p => Z.of_nat (fst (fst p))) w;
       map (fun p => Z.of_nat (snd (fst p))) w;
       map (fun p => Z.of_nat (snd p)) w]
  end.

(** [.min(axis=1)] and [.max(axis=1)] of one row: a reduction over
    nothing raises. *)
Definition zero_size_msg (op : string) : string :=
  ("zero-size array to reduction operation " ++ op ++ " which has no identity")%string.

Definition np_min (l : list Z) : error + Z :=
  match l with
  | [] => inl (ValueError (zero_size_msg "minimum"))
  | x :: l' => inr (fold_left Z.min l' x)
  end.

Definition np_max (l : list Z) : error + Z :=
  match l with
  | [] => inl (ValueError (zero_size_msg "maximum"))
  | x :: l' => inr (fold_left Z.max l' x)
  end.

(** [int(x)] on a float: truncation toward zero. *)
Definition py_int (x : Q) : Z := Z.quot (Qnum x) (Zpos (Qden x)).

(** [int(num_sample * bbox_ratio)]: the integer is converted to a
    float, the product is one float64 multiplication, and the rounded
    product is truncated.  [bbox_ratio] is the value of a float64.  An
    integer beyond the float range, and a product that overflows to
    infinity, raise [OverflowError]. *)
Definition int_of_product (num_sample : Z) (bbox_ratio : Q) : error + Z :=
  let n := f64_of_int num_sample in
  if f64_overflows n then inl OverflowError
  else
    let x := round_f64 (n * bbox_ratio) in
    if f64_overflows x then inl OverflowError else inr (py_int x).

(** [data[key]] *)
Fixpoint dict_get {V} (data : list (string * V)) (key : string) : error + V :=
  match data with
  | [] => inl (KeyError key)
  | (k, v) :: rest => if String.eqb k key then inr v else dict_get rest key
  end.

(** *** The random source

    [np.random.rand] reads the global generator.  The generator is a
    stream [rng] of draws and a cursor into it; a computation that may
    draw maps the cursor before to its result and the cursor after. *)
Definition sampler (A : Type) : Type := nat -> (error + A) * nat.

Definition ret {A} (a : A) : sampler A := fun c => (inr a, c).
Definition bind {A B} (m : sampler A) (k : A -> sampler B) : sampler B :=
  fun c =>
    match m c with
    | (inl e, c') => (inl e, c')
    | (inr a, c') => k a c'
    end.
Definition lift_err {A} (r : error + A) : sampler A := fun c => (r, c).

(** [np.random.rand(n, 2)] *)
Definition rand2 (rng : nat -> Q) (n : Z) : sampler (list (Q * Q)) :=
  fun c =>
    if n <? 0 then (inl (ValueError "negative dimensions are not allowed"), c)
    else (inr (map (fun i => (rng (c + 2 * i)%nat, rng (c + 2 * i + 1)%nat))
                   (seq 0 (Z.to_nat n))),
          (c + 2 * Z.to_nat n)%nat).

(** One interpolated field: [(n,)] values, or [(n, C)]. *)
Inductive sampled : Type :=
| Flat (v : list Q)
| Channels (C : nat) (v : list (list Q)).

(** [np.stack(cols, axis=-1)] of [C] columns of [n] values. *)
Definition stack_last (n : nat) (cols : list (list Q)) : list (list Q) :=
  map (fun s => map (fun col => nth s col 0%Q) cols) (seq 0 n).

(** The body of the loop over [data.items()]. *)
Definition resample (indices : list (Q * Q)) (val : ndarray) : error + sampled :=
  match val with
  | Arr3 a =>
      match traverse (fun i => bilinear_interpolation indices (channel a i))
                     (seq 0 (a3_C a)) with
      | inl e => inl e
      | inr [] => inl (ValueError "need at least one array to stack")
      | inr cols => inr (Channels (a3_C a) (stack_last (List.length indices) cols))
      end
  | Arr2 a =>
      match bilinear_interpolation indices a with
      | inl e => inl e
      | inr v => inr (Flat v)
      end
  end.

End SamplerDefs.

Declare Scope sampler_scope.
Notation "x <- m ;; k" := (bind m (fun x => k))
  (at level 61, m at next level, right associativity) : sampler_scope.

Section WeightedSampling.
Local Open Scope Z_scope.
Local Open Scope sampler_scope.

(** [draw * (hi - lo) + lo] in float64: the integers of the box are
    converted, the product is rounded, and so is the sum. *)
Definition scale_into (u : Q) (lo hi : Z) : Q :=
  round_f64 (round_f64 (u * f64_of_int (hi - lo)) + f64_of_int lo).

(** [draw * (n - 1)] in float64. *)
Definition scale_over (u : Q) (n : Z) : Q :=
  round_f64 (u * f64_of_int (n - 1)).

(** Lines 243 to 249 of [weighted_sampling]: the biased draw inside
    the box, then the uniform draw over the image. *)
Definition sample_indices (rng : nat -> Q)
    (bbox_min bbox_max : Z * Z) (img_size : Z * Z)
    (num_sample : Z) (bbox_ratio : Q)
  : sampler (list (Q * Q) * list (Q * Q)) :=
  num_sample_bbox <- lift_err (int_of_product num_sample bbox_ratio) ;;
  samples_bbox <- rand2 rng num_sample_bbox ;;
  let samples_bbox :=
    map (fun '(u, v) =>
           (scale_into u (fst bbox_min) (fst bbox_max),
            scale_into v (snd bbox_min) (snd bbox_max)))
        samples_bbox in
  let num_sample_uniform := num_sample - num_sample_bbox in
  samples_uniform <- rand2 rng num_sample_uniform ;;
  let samples_uniform :=
    map (fun '(u, v) => (scale_over u (fst img_size), scale_over v (snd img_size)))
        samples_uniform in
  ret (samples_bbox, samples_uniform).

(** The loop over [data.items()]. *)
Definition resample_all (indices : list (Q * Q)) (data : list (string * ndarray))
  : error + list (string * sampled) :=
  traverse (fun '(key, val) =>
              match resample indices val with
              | inl e => inl e
              | inr new_val => inr (key, new_val)
              end) data.

Definition weighted_sampling (rng : nat -> Q)
    (data : list (string * ndarray)) (img_size : Z * Z)
    (num_sample : Z) (bbox_ratio : Q)
  : sampler (list (string * sampled) * list Z) :=
  mask <- lift_err (dict_get data "object_mask") ;;
  let where_ := np_where mask in
  bbox_min <- lift_err (traverse np_min where_) ;;
  bbox_max <- lift_err (traverse np_max where_) ;;
  match bbox_min, bbox_max with
  | [min0; min1], [max0; max1] =>
      samples <- sample_indices rng (min0, min1) (max0, max1) img_size
                   num_sample bbox_ratio ;;
      let '(samples_bbox, samples_uniform) := samples in
      (* the count of line 243, read again *)
      num_sample_bbox <- lift_err (int_of_product num_sample bbox_ratio) ;;
      let index_outside :=
        map (fun i => i + num_sample_bbox)
            (get_index_outside_of_bbox samples_uniform (min0, min1) (max0, max1)) in
      let indices := samples_bbox ++ samples_uniform in
      output <- lift_err (resample_all indices data) ;;
      ret (output, index_outside)
  | _, _ =>
      (* a mask with three axes: the draw happens, then the box does
         not broadcast against the two columns *)
      num_sample_bbox <- lift_err (int_of_product num_sample bbox_ratio) ;;
      _ <- rand2 rng num_sample_bbox ;;
      lift_err (inl (ValueError "operands could not be broadcast together"))
  end.

(** *** Notions the statements use *)


(** No True pixel. *)
Definition all_false (mask : ndarray) : Prop :=
  match mask with
  | Arr2 a => forall i j, (i < a2_H a)%nat -> (j < a2_W a)%nat -> (a2_at a i j == 0)%Q
  | Arr3 a => forall i j k, (i < a3_H a)%nat -> (j < a3_W a)%nat -> (k < a3_C a)%nat ->
                            (a3_at a i j k == 0)%Q
  end.

(** [val.shape[:2]] *)
Definition spatial_shape (val : ndarray) : Z * Z :=
  match val with
  | Arr2 a => (Z.of_nat (a2_H a), Z.of_nat (a2_W a))
  | Arr3 a => (Z.of_nat (a3_H a), Z.of_nat (a3_W a))
  end.

(** A field with a channel axis has at least one channel. *)
Definition has_channel (val : ndarray) : Prop :=
  match val with
  | Arr2 _ => True
  | Arr3 a => (0 < a3_C a)%nat
  end.


(** The grid indices [bilinear_interpolation] reads at a coordinate,
    [floor] and [floor + 1] on each axis, lie in
    [[0, img_size - 1]]. *)
Definition corners_in_grid (img_size : Z * Z) (p : Q * Q) : Prop :=
  0 <= Qfloor (fst p) /\ Qfloor (fst p) + 1 <= fst img_size - 1 /\
  0 <= Qfloor (snd p) /\ Qfloor (snd p) + 1 <= snd img_size - 1.


(** The draws of [np.random.rand]: multiples of [2 ^ -53] from [0]
    to [1 - 2 ^ -53], the largest float64 below one. *)
Definition unit_draw (u : Q) : Prop := (0 <= u <= 1 - 2 ^ (-53))%Q.


(** An integer that float64 holds exactly. *)
Definition fits_f64 (n : Z) : Prop := Z.abs n <= 2 ^ 53.

(** *** Inputs for concrete runs *)

(** A stream of float64 draws: [1/16, 3/16, ..., 15/16], repeated. *)
Definition sixteenths_rng (i : nat) : Q :=
  inject_Z (Z.of_nat ((2 * i + 1) mod 16)) / 16.

(** A 3x3 image whose mask has two True pixels, [(1, 1)] and [(1, 2)],
    with a flat field and a field of two channels. *)
Definition example_mask : array2 :=
  array2_of_rows [[0; 0; 0]; [0; 1; 1]; [0; 0; 0]]%Q.

Definition example_depth : array2 :=
  array2_of_rows [[1; 2; 3]; [4; 5; 6]; [7; 8; 9]]%Q.

Definition example_rgb : array3 :=
  {| a3_H := 3; a3_W := 3; a3_C := 2;
     a3_at := fun i j k => inject_Z (Z.of_nat (i + 10 * j + 100 * k)) |}.

Definition example_data : list (string * ndarray) :=
  [("object_mask"%string, Arr2 example_mask);
   ("depth"%string, Arr2 example_depth);
   ("rgb"%string, Arr3 example_rgb)].






Definition empty_mask_data : list (string * ndarray) :=
  [("object_mask"%string, Arr2 (array2_of_rows [[0; 0]; [0; 0]]%Q));
   ("depth"%string, Arr2 (array2_of_rows [[1; 2]; [3; 4]]%Q))].

End WeightedSampling.

(* ================================================================= *)
(** ** Further notions over [R] *)

Section GeometryNotions.
Local Open Scope R_scope.

(** A quaternion multiplied by a scalar. *)
Definition scale4 (k : R) (q : vec4) : vec4 :=
  let '(a, b, c, d) := q in (k * a, k * b, k * c, k * d).

(** The point of a ray at distance [t] from its origin. *)
Definition point_at (o d : vec3) (t : R) : vec3 :=
  let '(o0, o1, o2) := o in
  let '(d0, d1, d2) := d in
  (o0 + t * d0, o1 + t * d1, o2 + t * d2).

(** The trace of a 3x3 matrix. *)
Definition trace3 (m : mat3) : R := entry3 m 0 0 + entry3 m 1 1 + entry3 m 2 2.

(** An intrinsics matrix of the pinhole model: upper triangular with
    last diagonal entry 1, the shape [lift] assumes when it reads only
    [fx], [fy], [cx], [cy] and [sk]. *)
Definition pinhole (K : mat4) : Prop :=
  mat4_rot K = ((K_fx K, K_sk K, K_cx K), (0, K_fy K, K_cy K), (0, 0, 1)).

End GeometryNotions.

Section RayNotions.
Local Open Scope R_scope.

(** The directions a call of [get_camera_params] returns, or its
    error. *)
Definition ray_directions_of (r : error + (list (list vec3) * list vec3))
  : error + list (list vec3) :=
  match r with
  | inl e => inl e
  | inr (ray_dirs, _) => inr ray_dirs
  end.

(** The squared distance of a point from the centre of the sphere. *)
Definition sq_norm3 (v : vec3) : R := dot3 v v.

End RayNotions.

Section SamplerNotions.
Local Open Scope Z_scope.

(** A coordinate outside the box on either axis, as
    [get_index_outside_of_bbox] tests it. *)
Definition outside_bbox (bbox_min bbox_max : Z * Z) (p : Q * Q) : Prop :=
  (fst p < inject_Z (fst bbox_min))%Q \/ (inject_Z (fst bbox_max) < fst p)%Q \/
  (snd p < inject_Z (snd bbox_min))%Q \/ (inject_Z (snd bbox_max) < snd p)%Q.

End SamplerNotions.

(* ================================================================= *)
(** ** Splitting the pixels and merging the outputs *)

Section SplitMergeDefs.
Local Open Scope nat_scope.

(** What ends [split_input] or [merge_output] other than [return]:
    the errors above, or a value of the wrong kind. *)
Inductive failure : Type :=
| Raised (e : error)
| TypeError          (* [index_select] of something that is no tensor *)
| AttributeError.    (* [None.reshape] *)

(** The pixel tensor [uv]: [px_N] pixels in each row of the batch. *)
Record pixels (P : Type) : Type := { px_N : nat; px_rows : list (list P) }.
Arguments px_N {P} _.
Arguments px_rows {P} _.

(** A value of the input dict: the pixel tensor, or anything else. *)
Inductive entry (P O : Type) : Type :=
| Pixels (uv : pixels P)
| Other (o : O).
Arguments Pixels {P O} _.
Arguments Other {P O} _.

(** [torch.split(torch.arange(total_pixels), n_pixels, dim=0)]: the
    index chunks.  [arange] rejects a negative end; [split] rejects a
    negative size, and a zero size unless there is nothing to split;
    there is always at least one chunk, and only the last may be
    short. *)
Definition torch_split_arange (total_pixels n_pixels : Z) : error + list (list nat) :=
  if (total_pixels <? 0)%Z then inl RuntimeError
  else if (n_pixels <? 0)%Z then inl RuntimeError
  else
    let dim_size := Z.to_nat total_pixels in
    let split_size := Z.to_nat n_pixels in
    if (split_size =? 0)%nat
    then (if (dim_size =? 0)%nat then inr [[]] else inl RuntimeError)
    else
      let num_splits := Nat.max ((dim_size + split_size - 1) / split_size) 1 in
      let last_split_size := split_size - (split_size * num_splits - dim_size) in
      inr (map (fun i =>
                  seq (i * split_size)
                      (if (i <? num_splits - 1)%nat then split_size else last_split_size))
               (seq 0 num_splits)).

(** [torch.index_select(uv, 1, indx)]: an index that the axis does not
    have is torch's [RuntimeError] ("index out of range in self"), not
    the [IndexError] of a Python list. *)
Definition index_select_1 {P} (uv : pixels P) (indx : list nat) : error + pixels P :=
  if forallb (fun i => (i <? px_N uv)%nat) indx
  then
    match traverse (fun row =>
                      traverse (fun i =>
                                  match nth_error row i with
                                  | Some p => inr p
                                  | None => inl RuntimeError
                                  end) indx) (px_rows uv) with
    | inl e => inl e
    | inr rows => inr {| px_N := List.length indx; px_rows := rows |}
    end
  else inl RuntimeError.

(** [data[key] = v] *)
Fixpoint dict_set {V} (data : list (string * V)) (key : string) (v : V)
  : list (string * V) :=
  match data with
  | [] => [(key, v)]
  | (k, x) :: rest =>
      if String.eqb k key then (k, v) :: rest else (k, x) :: dict_set rest key v
  end.

Definition split_input {P O} (model_input : list (string * entry P O))
    (total_pixels n_pixels : Z) : failure + list (list (string * entry P O)) :=
  match torch_split_arange total_pixels n_pixels with
  | inl e => inl (Raised e)
  | inr chunks =>
      traverse (fun indx =>
                  let data := model_input in
                  match dict_get model_input "uv" with
                  | inl e => inl (Raised e)
                  | inr (Other _) => inl TypeError
                  | inr (Pixels uv) =>
                      match index_select_1 uv indx with
                      | inl e => inl (Raised e)
                      | inr sel => inr (dict_set data "uv" (Pixels sel))
                      end
                  end) chunks
  end.

(** A tensor of any rank: its shape and its elements in row-major
    order. *)
Record tensor (A : Type) : Type := { t_shape : list nat; t_data : list A }.
Arguments t_shape {A} _.
Arguments t_data {A} _.

(** [t.reshape(batch_size, -1, C)]: the inferred middle size, when
    there is one. *)
Definition reshape_B_n_C {A} (batch_size : Z) (C : nat) (t : tensor A)
  : error + nat :=
  let numel := List.length (t_data t) in
  let slab := (Z.to_nat batch_size * C)%nat in
  if (batch_size <=? 0)%Z then inl RuntimeError
  else if (slab =? 0)%nat then inl RuntimeError
  else if (numel mod slab =? 0)%nat then inr (numel / slab)%nat
  else inl RuntimeError.

(** One operand of [torch.cat(..., 1)]: a tensor of shape
    [(B, n, C)] over the elements of [r[entry]]. *)
Record slab3 (A : Type) : Type := { s_n : nat; s_C : nat; s_data : list A }.
Arguments s_n {A} _.
Arguments s_C {A} _.
Arguments s_data {A} _.

(** Row [b] of an operand: [n * C] elements from [b * n * C]. *)
Definition slab_row {A} (b : nat) (s : slab3 A) : list A :=
  firstn (s_n s * s_C s) (skipn (b * (s_n s * s_C s)) (s_data s)).

(** [torch.cat(parts, 1)]: the last sizes must agree; the rows of the
    operands are laid side by side, batch row by batch row. *)
Definition cat_1 {A} (B : nat) (parts : list (slab3 A)) : error + slab3 A :=
  match parts with
  | [] => inl RuntimeError
  | first :: _ =>
      if forallb (fun s => (s_C s =? s_C first)%nat) parts
      then inr {| s_n := list_sum (map s_n parts);
                  s_C := s_C first;
                  s_data := flat_map (fun b => flat_map (slab_row b) parts) (seq 0 B) |}
      else inl RuntimeError
  end.

(** The value of one entry of the merged dict. *)
Definition merge_entry {A} (res : list (list (string * option (tensor A))))
    (entry_key : string) (first : tensor A) (total_pixels batch_size : Z)
  : failure + tensor A :=
  let one_dim := (List.length (t_shape first) =? 1)%nat in
  match traverse (fun r =>
                    match dict_get r entry_key with
                    | inl e => inl (Raised e)
                    | inr None => inl AttributeError
                    | inr (Some t) =>
                        let last_size :=
                          if one_dim then inr 1%nat
                          else match rev (t_shape t) with
                               | [] => inl IndexError
                               | C :: _ => inr C
                               end in
                        match last_size with
                        | inl e => inl (Raised e)
                        | inr C =>
                            match reshape_B_n_C batch_size C t with
                            | inl e => inl (Raised e)
                            | inr n => inr {| s_n := n; s_C := C; s_data := t_data t |}
                            end
                        end
                    end) res with
  | inl e => inl e
  | inr parts =>
      match cat_1 (Z.to_nat batch_size) parts with
      | inl e => inl (Raised e)
      | inr joined =>
          let numel := List.length (s_data joined) in
          let rows := (batch_size * total_pixels)%Z in
          if one_dim
          then (* [.reshape(batch_size * total_pixels)] *)
            if (rows =? -1)%Z || (rows =? Z.of_nat numel)%Z
            then inr {| t_shape := [numel]; t_data := s_data joined |}
            else inl (Raised RuntimeError)
          else (* [.reshape(batch_size * total_pixels, -1)] *)
            if (0 <? rows)%Z && (numel mod Z.to_nat rows =? 0)%nat
            then inr {| t_shape := [Z.to_nat rows; (numel / Z.to_nat rows)%nat];
                        t_data := s_data joined |}
            else inl (Raised RuntimeError)
      end
  end.

Fixpoint merge_entries {A} (res : list (list (string * option (tensor A))))
    (entries : list (string * option (tensor A))) (total_pixels batch_size : Z)
  : failure + list (string * tensor A) :=
  match entries with
  | [] => inr []
  | (entry_key, None) :: rest => merge_entries res rest total_pixels batch_size
  | (entry_key, Some first) :: rest =>
      match merge_entry res entry_key first total_pixels batch_size with
      | inl e => inl e
      | inr merged =>
          match merge_entries res rest total_pixels batch_size with
          | inl e => inl e
          | inr outputs => inr ((entry_key, merged) :: outputs)
          end
      end
  end.

Definition merge_output {A} (res : list (list (string * option (tensor A))))
    (total_pixels batch_size : Z) : failure + list (string * tensor A) :=
  match res with
  | [] => inl (Raised IndexError)
  | first :: _ => merge_entries res first total_pixels batch_size
  end.

(** *** Notions the statements use *)

(** A well-shaped pixel tensor. *)
Definition pixels_ok {P} (uv : pixels P) : Prop :=
  Forall (fun row => List.length row = px_N uv) (px_rows uv).

(** The pixel tensor of a chunk, if the chunk has one. *)
Definition chunk_rows {P O} (data : list (string * entry P O)) : list (list P) :=
  match dict_get data "uv" with
  | inr (Pixels uv) => px_rows uv
  | _ => []
  end.

(** What a caller makes of one chunk: a value [f p] for every pixel,
    as a tensor of shape [(B * n,)] under the key [key]. *)
Definition per_pixel_output {P O A} (f : P -> A) (key : string)
    (data : list (string * entry P O)) : list (string * option (tensor A)) :=
  let values := List.concat (map (map f) (chunk_rows data)) in
  [(key, Some {| t_shape := [List.length values]; t_data := values |})].

(** The same with [C] values per pixel, of shape [(B * n, C)]. *)
Definition per_pixel_vectors {P O A} (C : nat) (f : P -> list A) (key : string)
    (data : list (string * entry P O)) : list (string * option (tensor A)) :=
  let vectors := List.concat (map (map f) (chunk_rows data)) in
  [(key, Some {| t_shape := [List.length vectors; C]; t_data := List.concat vectors |})].

End SplitMergeDefs.

Arguments px_N {P} _.
Arguments px_rows {P} _.
Arguments Pixels {P O} _.
Arguments Other {P O} _.
Arguments t_shape {A} _.
Arguments t_data {A} _.
Arguments s_n {A} _.
Arguments s_C {A} _.
Arguments s_data {A} _.

Section SplitMergeInputs.
Local Open Scope nat_scope.

(** An input of two batch rows of seven pixels, with two entries
    beside [uv]. *)
Definition example_uv : pixels nat :=
  {| px_N := 7;
     px_rows := [[0; 1; 2; 3; 4; 5; 6]; [10; 11; 12; 13; 14; 15; 16]] |}.

Definition example_model_input : list (string * entry nat bool) :=
  [("pose"%string, Other true); ("uv"%string, Pixels example_uv);
   ("intrinsics"%string, Other false)].

End SplitMergeInputs.

(* ================================================================= *)
(** ** Image metric, colour curve and coordinate helpers over [R] *)

Section HelperDefs.
Local Open Scope R_scope.

(** Element-wise pairing of two flattened tensors under broadcasting:
    equal sizes pair up, a single element is repeated along the other
    tensor, any other combination is refused. *)
Definition broadcast2 (a b : list R) : error + list (R * R) :=
  if Nat.eqb (List.length a) (List.length b) then inr (combine a b)
  else match a, b with
       | [x], _ => inr (map (fun y => (x, y)) b)
       | _, [y] => inr (map (fun x => (x, y)) a)
       | _, _ => inl RuntimeError
       end.

Definition Rsum (l : list R) : R := fold_right Rplus 0 l.

(** [torch.mean] over all elements; the mean of no element is NaN. *)
Definition torch_mean (l : list R) : fval :=
  match l with
  | [] => NaN
  | _ => Fin (Rsum l / INR (List.length l))
  end.

(* ----------------------------------------------------------------- *)
(** *** [get_psnr] *)

(** The images are flattened tensors.  [torch.log] of a zero error is
    minus infinity, which the factor [-10.0] turns into plus infinity
    ([Inf] carries no sign); a CUDA device is taken to be present. *)
Definition get_psnr (img1 img2 : list R) (normalize_rgb : bool) : error + fval :=
  let img1 := if normalize_rgb then map (fun x => (x + 1) / 2) img1 else img1 in
  let img2 := if normalize_rgb then map (fun x => (x + 1) / 2) img2 else img2 in
  match broadcast2 img1 img2 with
  | inl e => inl e
  | inr pairs =>
      inr match torch_mean (map (fun ab => (fst ab - snd ab) ^ 2) pairs) with
          | Fin mse => if Req_bool mse 0 then Inf else Fin (-10 * ln mse / ln 10)
          | other => other
          end
  end.

(* ----------------------------------------------------------------- *)
(** *** Coordinate conventions *)

(** The arrays have three entries along their last axis. *)
Definition coord_z_up_to_y_up_batch (batch : list vec3) : list vec3 :=
  map (fun b => let '(b0, b1, b2) := b in (b0, b2, - b1)) batch.

Definition coord_z_up_to_y_up_translate (T : list vec3) : list vec3 :=
  map (fun t => let '(t0, t1, t2) := t in
                let x := t0 in
                let y := t2 in
                let z := - t1 in
                (x, y, z)) T.

Definition coord_z_up_to_y_up_rotate (rot : list vec3) : list vec3 :=
  map (fun r => let '(r0, r1, r2) := r in
                let pitch := - r1 in
                let yaw := r2 - 90 in
                let roll := r0 - 90 in
                (pitch, yaw, roll)) rot.

Definition coord_y_up_to_minus_y_up_translate (T : list vec3) : list vec3 :=
  map (fun t => let '(t0, t1, t2) := t in
                let x := t0 in
                let y := - t1 in
                let z := - t2 in
                (x, y, z)) T.

Definition coord_y_up_to_minus_y_up_rotate (rot : list vec3) : list vec3 :=
  map (fun r => let '(r0, r1, r2) := r in
                let pitch := r0 in
                let yaw := - r1 in
                let roll := - r2 in
                (pitch, yaw, roll)) rot.

(* ----------------------------------------------------------------- *)
(** *** Equirectangular images *)

Definition mul_tensors (a b : list R) : error + list R :=
  match broadcast2 a b with
  | inl e => inl e
  | inr pairs => inr (map (fun ab => fst ab * snd ab) pairs)
  end.

(** [torch.stack([x, y, z], dim=-1)] of flattened tensors, which must
    have one size. *)
Definition stack3_last (x y z : list R) : error + list vec3 :=
  if Nat.eqb (List.length x) (List.length y) && Nat.eqb (List.length x) (List.length z)
  then inr (zip_with3 (fun a b c => (a, b, c)) x y z)
  else inl RuntimeError.

Definition long_lat_to_point (long lat : list R) : error + list vec3 :=
  match mul_tensors (map cos lat) (map cos long) with
  | inl e => inl e
  | inr x =>
      match mul_tensors (map cos lat) (map sin long) with
      | inl e => inl e
      | inr y =>
          let z := map sin lat in
          stack3_last x y z
      end
  end.

Definition degree_to_radian (degree : R) : R := degree * PI / 180.

Definition cm_to_mm (x : R) : R := x * 10.

Definition equirect_to_long_lat (p : list (R * R)) : list R * list R :=
  let long := map (fun q => fst q * PI) p in
  let lat := map (fun q => snd q * PI / 2) p in
  (long, lat).

Definition denormalize_points (points : list (R * R)) (height width : R) : list (R * R) :=
  map (fun q => let x := (fst q + 1) / 2 * width in
                let y := (snd q + 1) / 2 * height in
                (x, y)) points.

(* ----------------------------------------------------------------- *)
(** *** World and camera coordinates *)

Definition add3 (a b : vec3) : vec3 :=
  let '(a0, a1, a2) := a in
  let '(b0, b1, b2) := b in
  (a0 + b0, a1 + b1, a2 + b2).

(** A row vector times a matrix, one row of [np.matmul(points, R)]. *)
Definition row_matmul (p : vec3) (m : mat3) : vec3 :=
  (dot3 p (col3 m 0), dot3 p (col3 m 1), dot3 p (col3 m 2)).

(** [ndarray.transpose(0, 1)] puts the axes in the order given, and
    [(0, 1)] is the order they already have: the array comes back as it
    is.  (The documented arguments are numpy arrays.) *)
Definition np_transpose_0_1 (m : mat3) : mat3 := m.

Definition coord_world_to_camera (points : list vec3) (rot : mat3) (T : vec3) : list vec3 :=
  let points := map (fun p => sub3 p T) points in
  let points := map (fun p => row_matmul p rot) points in
  points.

Definition coord_camera_to_world (points : list vec3) (rot : mat3) (T : vec3) : list vec3 :=
  let points := map (fun p => row_matmul p (np_transpose_0_1 rot)) points in
  let points := map (fun p => add3 p T) points in
  points.

(* ----------------------------------------------------------------- *)
(** *** [clip_and_convert_rgb_to_srgb] *)

(** [np.clip(x, lo, hi)] is [minimum(maximum(x, lo), hi)]. *)
Definition np_clip (x lo hi : R) : R := Rmin (Rmax x lo) hi.

Definition clip_and_convert_rgb_to_srgb (img : list R) : list R :=
  let img := map (fun x => np_clip x 0 1) img in
  map (fun x => if Rle_bool x 0.0031308
                then 12.92 * x
                else 1.055 * Rpower x (1 / 2.4) - 0.055) img.

(** Values in the unit interval. *)
Definition unit_interval (x : R) : Prop := 0 <= x <= 1.

End HelperDefs.

(* ================================================================= *)
(** ** Lists in step *)

Section ListsInStep.
Context {A B : Type}.

Lemma list_ind2 (P : list A -> list B -> Prop) :
  P [] [] ->
  (forall a b l m, List.length l = List.length m -> P l m -> P (a :: l) (b :: m)) ->
  forall l m, List.length l = List.length m -> P l m.
Proof.
  intros Hnil Hcons l; induction l as [|a l IH]; intros [|b m] Hlen;
    simpl in Hlen; try discriminate; auto.
Qed.

Lemma nth_error_combine (l : list A) (m : list B) i a b :
  nth_error (combine l m) i = Some (a, b) <->
  nth_error l i = Some a /\ nth_error m i = Some b.
Proof.
  revert m i; induction l as [|x l IH]; intros [|y m] [|i]; simpl;
    try (split; [discriminate | intros [? ?]; discriminate]).
  - split; [intros [= -> ->]; auto | intros [[= ->] [= ->]]; auto].
  - apply IH.
Qed.

End ListsInStep.

Section ListsInStep3.
Context {A B C D E : Type}.

Lemma zip_with3_same_source (f : B -> C -> D -> E) (g : A -> B) (h : A -> C)
    (P : E -> Prop) (l : list A) (n : list D) :
  (forall a x, In a l -> P (f (g a) (h a) x)) ->
  Forall P (zip_with3 f (map g l) (map h l) n).
Proof.
  revert n; induction l as [|a l IH]; intros [|x n] H; simpl; constructor.
  - apply H; now left.
  - apply IH; intros; apply H; now right.
Qed.

End ListsInStep3.

(* ================================================================= *)
(** ** Sphere intersection *)

(** Equality of tuples, component by component. *)
Ltac tuple_eq :=
  repeat match goal with |- (_, _) = (_, _) => apply f_equal2 end.

(** The value of a given float, and arithmetic on such values. *)
Ltac float_eval x := let v := eval vm_compute in x in change x with v.
Ltac float_lra := unfold powerRZ; simpl Pos.to_nat; simpl pow; lra.

Section SphereFacts.
Local Open Scope R_scope.

Lemma Rle_bool_true x y : Rle_bool x y = true <-> x <= y.
Proof. unfold Rle_bool; destruct (Rle_dec x y); split; intros; easy. Qed.

Lemma Rle_bool_false x y : Rle_bool x y = false <-> y < x.
Proof.
  unfold Rle_bool; destruct (Rle_dec x y); split; intros; try easy; lra.
Qed.

Lemma norm3_sq o : norm3 o ^ 2 = dot3 o o.
Proof.
  destruct o as [[x y] z]; unfold norm3, dot3.
  rewrite <- Rsqr_pow2, Rsqr_sqrt; [ring | nra].
Qed.

(** *** In any arithmetic *)

Section AnyArithmetic.
Context {F : Type} {A : Arith F}.
Implicit Types (cam_loc ray_directions : list (gvec3 F)) (r : py_float).

(** The rays of a batch, the values under the square root and the rows,
    ray by ray. *)
Local Abbreviation rays cam_loc ray_directions := (combine cam_loc ray_directions).
Local Abbreviation dots_of cam_loc ray_directions :=
  (map (fun ray => f_bmm_1x3_3x1 (snd ray) (fst ray)) (rays cam_loc ray_directions)).
Local Abbreviation under_sqrts r cam_loc ray_directions :=
  (map (fun ray => under_sqrt_of_ray r (fst ray) (snd ray)) (rays cam_loc ray_directions)).
Local Abbreviation rows_of r cam_loc ray_directions :=
  (map (fun ray => intersections_row (under_sqrt_of_ray r (fst ray) (snd ray))
                     (f_bmm_1x3_3x1 (snd ray) (fst ray)))
       (rays cam_loc ray_directions)).

Lemma bmm_in_step ray_directions cam_loc :
  List.length cam_loc = List.length ray_directions ->
  bmm_1x3_3x1 ray_directions cam_loc = Some (dots_of cam_loc ray_directions).
Proof.
  intros H; pattern cam_loc, ray_directions; revert cam_loc ray_directions H.
  apply list_ind2; simpl; auto.
  intros o d os ds _ ->; reflexivity.
Qed.

Lemma under_sqrt_in_step r cam_loc ray_directions :
  zip_with (under_sqrt_row r) (dots_of cam_loc ray_directions) cam_loc
  = under_sqrts r cam_loc ray_directions.
Proof.
  revert ray_directions; induction cam_loc as [|o os IH]; intros [|d ds]; simpl; auto.
  now rewrite IH.
Qed.

Lemma intersections_in_step r cam_loc ray_directions :
  zip_with intersections_row (under_sqrts r cam_loc ray_directions)
    (dots_of cam_loc ray_directions)
  = rows_of r cam_loc ray_directions.
Proof.
  induction (combine cam_loc ray_directions) as [|ray l IH]; simpl; auto.
  now rewrite IH.
Qed.

Lemma count_le_zero_pos (l : list F) :
  (0 <? count_le_zero l)%nat = true
  <-> Exists (fun u => f_leb u (f_of_Z 0) = true) l.
Proof.
  unfold count_le_zero; induction l as [|u l IH]; simpl.
  - split; [discriminate | intros H; inversion H].
  - destruct (f_leb u (f_of_Z 0)) eqn:E; simpl.
    + split; auto.
    + rewrite IH; split; [now right|].
      intros H; inversion H; subst; auto; congruence.
Qed.

Lemma count_le_zero_none (l : list F) :
  (0 <? count_le_zero l)%nat = false
  <-> Forall (fun u => f_leb u (f_of_Z 0) = false) l.
Proof.
  unfold count_le_zero; induction l as [|u l IH]; simpl.
  - split; auto.
  - destruct (f_leb u (f_of_Z 0)) eqn:E; simpl.
    + split; [discriminate | intros H; inversion H; congruence].
    + rewrite IH; split; [now constructor | now inversion 1].
Qed.

Lemma get_sphere_intersections_unfold cam_loc ray_directions r :
  List.length cam_loc = List.length ray_directions ->
  get_sphere_intersections cam_loc ray_directions r =
  if (0 <? count_le_zero (under_sqrts r cam_loc ray_directions))%nat
  then (["BOUNDING SPHERE PROBLEM!"%string], inl SystemExit)
  else ([], inr (rows_of r cam_loc ray_directions)).
Proof.
  intros H; unfold get_sphere_intersections.
  now rewrite (bmm_in_step _ _ H), under_sqrt_in_step, intersections_in_step.
Qed.

(** A ray of the batch and the value under its square root. *)
Lemma under_sqrts_In r cam_loc ray_directions u :
  In u (under_sqrts r cam_loc ray_directions) <->
  exists i o d,
    nth_error cam_loc i = Some o /\ nth_error ray_directions i = Some d /\
    u = under_sqrt_of_ray r o d.
Proof.
  rewrite in_map_iff; split.
  - intros ([o d] & <- & Hin).
    apply In_nth_error in Hin; destruct Hin as [i Hi].
    apply nth_error_combine in Hi; destruct Hi; exists i, o, d; auto.
  - intros (i & o & d & Ho & Hd & ->); exists (o, d); split; auto.
    apply nth_error_In with i, nth_error_combine; auto.
Qed.

Lemma get_sphere_intersections_exits cam_loc ray_directions r :
  List.length cam_loc = List.length ray_directions ->
  (exists i o d,
      nth_error cam_loc i = Some o /\ nth_error ray_directions i = Some d /\
      f_leb (under_sqrt_of_ray r o d) (f_of_Z 0) = true) ->
  get_sphere_intersections cam_loc ray_directions r
  = (["BOUNDING SPHERE PROBLEM!"%string], inl SystemExit).
Proof.
  intros Hlen (i & o & d & Ho & Hd & Hle).
  rewrite (get_sphere_intersections_unfold _ _ _ Hlen).
  assert (E : Exists (fun u => f_leb u (f_of_Z 0) = true)
                (under_sqrts r cam_loc ray_directions)).
  { apply Exists_exists; exists (under_sqrt_of_ray r o d); split; auto.
    apply under_sqrts_In; eauto 7. }
  apply count_le_zero_pos in E; now rewrite E.
Qed.

Lemma get_sphere_intersections_rows cam_loc ray_directions r :
  List.length cam_loc = List.length ray_directions ->
  (forall i o d,
      nth_error cam_loc i = Some o -> nth_error ray_directions i = Some d ->
      f_leb (under_sqrt_of_ray r o d) (f_of_Z 0) = false) ->
  get_sphere_intersections cam_loc ray_directions r
  = ([], inr (rows_of r cam_loc ray_directions)).
Proof.
  intros Hlen Hpos; rewrite (get_sphere_intersections_unfold _ _ _ Hlen).
  assert (E : Forall (fun u => f_leb u (f_of_Z 0) = false)
                (under_sqrts r cam_loc ray_directions)).
  { apply Forall_forall; intros u Hu.
    apply under_sqrts_In in Hu; destruct Hu as (i & o & d & Ho & Hd & ->); eauto. }
  apply count_le_zero_none in E; now rewrite E.
Qed.

(** What a call that returns has returned, and what it has tested. *)
Lemma get_sphere_intersections_inr cam_loc ray_directions r log out :
  List.length cam_loc = List.length ray_directions ->
  get_sphere_intersections cam_loc ray_directions r = (log, inr out) ->
  log = [] /\ out = rows_of r cam_loc ray_directions /\
  forall i o d,
    nth_error cam_loc i = Some o -> nth_error ray_directions i = Some d ->
    f_leb (under_sqrt_of_ray r o d) (f_of_Z 0) = false.
Proof.
  intros Hlen; rewrite (get_sphere_intersections_unfold _ _ _ Hlen).
  destruct (0 <? count_le_zero _)%nat eqn:E; [discriminate|].
  intros [= <- <-]; repeat split.
  rewrite count_le_zero_none, Forall_forall in E.
  intros i o d Ho Hd; apply E, under_sqrts_In; eauto 7.
Qed.

Lemma rows_of_nth r cam_loc ray_directions i o d :
  nth_error cam_loc i = Some o -> nth_error ray_directions i = Some d ->
  nth_error (rows_of r cam_loc ray_directions) i
  = Some (intersections_row (under_sqrt_of_ray r o d) (f_bmm_1x3_3x1 d o)).
Proof.
  intros Ho Hd.
  assert (Hi : nth_error (combine cam_loc ray_directions) i = Some (o, d))
    by now apply nth_error_combine.
  now rewrite (map_nth_error _ _ _ Hi).
Qed.

Lemma rows_of_length r cam_loc ray_directions :
  List.length cam_loc = List.length ray_directions ->
  List.length (rows_of r cam_loc ray_directions) = List.length cam_loc.
Proof.
  intros Hlen; rewrite length_map, length_combine, <- Hlen; apply Nat.min_id.
Qed.

End AnyArithmetic.

(** *** In exact arithmetic *)

(** Without rounding, the value under the square root is the
    discriminant. *)
Lemma under_sqrt_of_ray_disc (r : R) (o d : vec3) :
  under_sqrt_of_ray (A := exact_arith) r o d = disc r o d.
Proof.
  unfold under_sqrt_of_ray, under_sqrt_row, disc; cbn.
  rewrite <- norm3_sq; ring.
Qed.

Lemma intersections_row_exact (u b : R) :
  intersections_row (A := exact_arith) u b = (Rmax 0 (- b - sqrt u), Rmax 0 (- b + sqrt u)).
Proof.
  unfold intersections_row; cbn; unfold clamp_min.
  rewrite (Rmax_comm _ 0), (Rmax_comm _ 0); f_equal; f_equal; ring.
Qed.

Lemma near_le_far (u b : R) :
  0 <= Rmax 0 (- b - sqrt u) <= Rmax 0 (- b + sqrt u).
Proof.
  pose proof (sqrt_pos u) as Hs; split.
  - apply Rmax_l.
  - apply Rle_max_compat_l; lra.
Qed.


(** C1. Sphere intersection is all-or-nothing, on the values the code
    computes.  In any arithmetic, for a batch of ray origins and as many
    directions: if for some ray the value the code computes under the
    square root, [b*b - (norm(o)*norm(o) - r**2)] with [b] the product
    of [bmm], tests [<= 0], the call prints its message and ends in
    [exit()], returning no intersections at all; if the test fails for
    every ray, the call returns normally, one row per ray and nothing
    printed.  In exact arithmetic the value under the square root is
    the discriminant [dot(d,o)^2 - (|o|^2 - r^2)], and the test is
    [disc <= 0]. *)
Theorem get_sphere_intersections_all_or_nothing :
  (forall (F : Type) (A : Arith F)
          (cam_loc ray_directions : list (gvec3 F)) (r : py_float),
      List.length cam_loc = List.length ray_directions ->
      ((exists i o d,
           nth_error cam_loc i = Some o /\ nth_error ray_directions i = Some d /\
           f_leb (under_sqrt_of_ray r o d) (f_of_Z 0) = true) ->
       get_sphere_intersections cam_loc ray_directions r
       = (["BOUNDING SPHERE PROBLEM!"%string], inl SystemExit))
      /\
      ((forall i o d,
           nth_error cam_loc i = Some o -> nth_error ray_directions i = Some d ->
           f_leb (under_sqrt_of_ray r o d) (f_of_Z 0) = false) ->
       exists out,
         get_sphere_intersections cam_loc ray_directions r = ([], inr out) /\
         List.length out = List.length cam_loc))
  /\
  (forall (r : R) (o d : vec3),
      under_sqrt_of_ray (A := exact_arith) r o d = disc r o d /\
      (f_leb (under_sqrt_of_ray (A := exact_arith) r o d) (f_of_Z 0) = true
       <-> disc r o d <= 0) /\
      (f_leb (under_sqrt_of_ray (A := exact_arith) r o d) (f_of_Z 0) = false
       <-> 0 < disc r o d)).
Proof.
  split.
  - intros F A cam_loc ray_directions r Hlen; split.
    + now apply get_sphere_intersections_exits.
    + intros Hpos; rewrite (get_sphere_intersections_rows _ _ _ Hlen Hpos).
      eexists; split; [reflexivity | now apply rows_of_length].
  - intros r o d; rewrite under_sqrt_of_ray_disc; cbn.
    split; [reflexivity | split]; [apply Rle_bool_true | apply Rle_bool_false].
Qed.

(** C3. Values and ordering, on the values the code computes.  In any
    arithmetic, when the test [<= 0] fails for the value [u] under the
    square root of every ray, the call returns and the row of ray [i]
    (origin [o], direction [d], [b] the product of [bmm]) is
    [(sqrt(u) * -1 - b).clamp_min(0), (sqrt(u) * 1 - b).clamp_min(0)].
    In exact arithmetic, for a ray with positive discriminant, [u] is
    the discriminant and that row is
    [t_near = max(0, -b - sqrt(disc))], [t_far = max(0, -b + sqrt(disc))],
    with [0 <= t_near <= t_far]. *)
Theorem get_sphere_intersections_values :
  (forall (F : Type) (A : Arith F)
          (cam_loc ray_directions : list (gvec3 F)) (r : py_float),
      List.length cam_loc = List.length ray_directions ->
      (forall i o d,
          nth_error cam_loc i = Some o -> nth_error ray_directions i = Some d ->
          f_leb (under_sqrt_of_ray r o d) (f_of_Z 0) = false) ->
      exists out,
        get_sphere_intersections cam_loc ray_directions r = ([], inr out) /\
        forall i o d,
          nth_error cam_loc i = Some o -> nth_error ray_directions i = Some d ->
          let b := f_bmm_1x3_3x1 d o in
          let u := under_sqrt_of_ray r o d in
          nth_error out i
          = Some (f_clamp_min (f_sub (f_mul (f_sqrt u) (f_of_Z (-1))) b) (f_of_Z 0),
                  f_clamp_min (f_sub (f_mul (f_sqrt u) (f_of_Z 1)) b) (f_of_Z 0)))
  /\
  (forall (r : R) (o d : vec3),
      0 < disc r o d ->
      let b := dot3 d o in
      let u := under_sqrt_of_ray (A := exact_arith) r o d in
      exists t_near t_far,
        (f_clamp_min (f_sub (f_mul (f_sqrt u) (f_of_Z (-1))) b) (f_of_Z 0),
         f_clamp_min (f_sub (f_mul (f_sqrt u) (f_of_Z 1)) b) (f_of_Z 0))
        = (t_near, t_far) /\
        t_near = Rmax 0 (- b - sqrt (disc r o d)) /\
        t_far = Rmax 0 (- b + sqrt (disc r o d)) /\
        0 <= t_near <= t_far).
Proof.
  split.
  - intros F A cam_loc ray_directions r Hlen Hpos.
    rewrite (get_sphere_intersections_rows _ _ _ Hlen Hpos).
    eexists; split; [reflexivity|].
    intros i o d Ho Hd; cbv zeta.
    now rewrite (rows_of_nth r _ _ _ _ _ Ho Hd).
  - intros r o d _; cbv zeta; do 2 eexists.
    split; [apply (intersections_row_exact _ (dot3 d o))|].
    rewrite under_sqrt_of_ray_disc.
    split; [reflexivity | split; [reflexivity | apply near_le_far]].
Qed.

Lemma get_sphere_intersections_all_or_nothing_witness :
  get_sphere_intersections [axis_origin] [side_direction] unit_radius
  = (["BOUNDING SPHERE PROBLEM!"%string], inl SystemExit)
  /\ exists out,
       get_sphere_intersections [axis_origin; tangent_origin]
         [axis_direction; tangent_direction] unit_radius
       = ([], inr out) /\ List.length out = 2%nat.
Proof.
  destruct get_sphere_intersections_all_or_nothing as [H _]; split.
  - apply (H _ binary32_arith [axis_origin] [side_direction] unit_radius eq_refl).
    exists 0%nat, axis_origin, side_direction; repeat split.
  - apply (H _ binary32_arith [axis_origin; tangent_origin]
             [axis_direction; tangent_direction] unit_radius eq_refl).
    intros [|[|[|i]]] o d; simpl; intros [= <-] [= <-]; reflexivity.
Defined.

Lemma get_sphere_intersections_values_witness :
  (exists out,
      get_sphere_intersections [axis_origin] [axis_direction] unit_radius
      = ([], inr out) /\
      nth_error out 0 = Some (b32 1 0, b32 3 0))
  /\
  (exists t_near t_far,
      intersections_row (A := exact_arith)
        (under_sqrt_of_ray (A := exact_arith) 1 (0, 0, 2) (0, 0, -1))
        (dot3 (0, 0, -1) (0, 0, 2))
      = (t_near, t_far) /\
      t_near = Rmax 0 (- dot3 (0, 0, -1) (0, 0, 2) - sqrt (disc 1 (0, 0, 2) (0, 0, -1))) /\
      t_far = Rmax 0 (- dot3 (0, 0, -1) (0, 0, 2) + sqrt (disc 1 (0, 0, 2) (0, 0, -1))) /\
      0 <= t_near <= t_far).
Proof.
  destruct get_sphere_intersections_values as [H E]; split.
  - destruct (H _ binary32_arith [axis_origin] [axis_direction] unit_radius eq_refl)
      as (out & Hout & Hrow).
    + intros [|[|i]] o d; simpl; intros [= <-] [= <-]; reflexivity.
    + exists out; split; [exact Hout|].
      exact (Hrow 0%nat axis_origin axis_direction eq_refl eq_refl).
  - apply (E 1 (0, 0, 2) (0, 0, -1)).
    unfold disc, dot3; lra.
Defined.

(** The tangent ray in binary32.  Its discriminant is 0, yet the value
    under the square root comes out as [2^-23]: the norm [sqrt 2] is
    rounded, and its square is no longer 2.  The call returns a row. *)
Lemma get_sphere_intersections_tangent_ray_returns :
  vec3_to_R tangent_origin = (-1, 1, 0) /\
  vec3_to_R tangent_direction = (1, 0, 0) /\
  float_to_R unit_radius = 1 /\
  disc 1 (-1, 1, 0) (1, 0, 0) = 0 /\
  under_sqrt_of_ray unit_radius tangent_origin tangent_direction = b32 1 (-23) /\
  get_sphere_intersections [tangent_origin] [tangent_direction] unit_radius
  = ([], inr [(b32 16771423 (-24), b32 8391504 (-23))]).
Proof.
  split; [|split; [|split; [|split; [|split]]]].
  - float_eval tangent_origin; cbn [vec3_to_R float_to_R]; tuple_eq; float_lra.
  - float_eval tangent_direction; cbn [vec3_to_R float_to_R]; tuple_eq; float_lra.
  - float_eval unit_radius; cbn [float_to_R]; float_lra.
  - unfold disc, dot3; lra.
  - vm_compute; reflexivity.
  - vm_compute; reflexivity.
Qed.

(** The grazing ray in binary32.  Its discriminant, [2^-22 - 2^-46],
    is positive, yet the value under the square root comes out as 0:
    the squared norm [4 + (1 - 2^-23)^2] rounds to 5.  The call ends in
    [exit()] and returns no row. *)
Lemma get_sphere_intersections_grazing_ray_exits :
  vec3_to_R grazing_origin = (2, 1 - / 2 ^ 23, 0) /\
  vec3_to_R grazing_direction = (-1, 0, 0) /\
  float_to_R unit_radius = 1 /\
  0 < disc 1 (2, 1 - / 2 ^ 23, 0) (-1, 0, 0) /\
  under_sqrt_of_ray unit_radius grazing_origin grazing_direction = b32 0 0 /\
  get_sphere_intersections [grazing_origin] [grazing_direction] unit_radius
  = (["BOUNDING SPHERE PROBLEM!"%string], inl SystemExit).
Proof.
  split; [|split; [|split; [|split; [|split]]]].
  - float_eval grazing_origin; cbn [vec3_to_R float_to_R]; tuple_eq; float_lra.
  - float_eval grazing_direction; cbn [vec3_to_R float_to_R]; tuple_eq; float_lra.
  - float_eval unit_radius; cbn [float_to_R]; float_lra.
  - unfold disc, dot3.
    assert (H : 0 < / 2 ^ 23 < 1) by (simpl pow; lra).
    nra.
  - vm_compute; reflexivity.
  - vm_compute; reflexivity.
Qed.

(** The camera at distance 2 looking at the origin, radius 1: the ray
    enters at 1 and leaves at 3, in exact arithmetic and in binary32. *)
Example sphere_camera_at_two :
  get_sphere_intersections (A := exact_arith) [(0, 0, 2)] [(0, 0, -1)] 1
  = ([], inr [(1, 3)]).
Proof.
  assert (D : disc 1 (0, 0, 2) (0, 0, -1) = 1) by (unfold disc, dot3; lra).
  rewrite get_sphere_intersections_rows by
    (try reflexivity;
     intros [|[|i]] o d; cbn [nth_error]; intros [= <-] [= <-];
     rewrite under_sqrt_of_ray_disc, D; apply Rle_bool_false;
     cbn [f_of_Z exact_arith]; lra).
  cbn [map combine fst snd]; rewrite intersections_row_exact, under_sqrt_of_ray_disc, D, sqrt_1.
  cbn [f_bmm_1x3_3x1 exact_arith]; unfold dot3; repeat f_equal.
  - replace (- (0 * 0 + 0 * 0 + -1 * 2) - 1) with 1 by lra.
    apply Rmax_right; lra.
  - replace (- (0 * 0 + 0 * 0 + -1 * 2) + 1) with 3 by lra.
    apply Rmax_right; lra.
Qed.

Example sphere_camera_at_two_binary32 :
  get_sphere_intersections [axis_origin] [axis_direction] unit_radius
  = ([], inr [(b32 1 0, b32 3 0)]).
Proof. vm_compute; reflexivity. Qed.

End SphereFacts.

(* ================================================================= *)
(** ** Batched 3x3 inverse *)

Section InverseFacts.
Local Open Scope R_scope.

Lemma Req_bool_true x y : Req_bool x y = true <-> x = y.
Proof. unfold Req_bool; destruct (Req_dec_T x y); split; intros; easy. Qed.

Lemma Req_bool_false x y : Req_bool x y = false <-> x <> y.
Proof. unfold Req_bool; destruct (Req_dec_T x y); split; intros; easy. Qed.

Lemma fdiv_finite a d : d <> 0 -> fdiv a d = Fin (a / d).
Proof. intros H; unfold fdiv; apply Req_bool_false in H; now rewrite H. Qed.

Lemma div_mat3_finite a d : d <> 0 -> div_mat3 a d = fin_mat3 (scale_mat3 a d).
Proof.
  intros H; destruct a as [[[[a00 a01] a02] [[a10 a11] a12]] [[a20 a21] a22]].
  unfold div_mat3, fin_mat3, scale_mat3; now rewrite !fdiv_finite by assumption.
Qed.

Lemma inverse_in_step mat :
  masked_fill_nan (map (fun d => Req_bool d 0) (map det3 mat))
    (zip_with div_mat3 (map adj3 mat) (map det3 mat))
  = map (fun m => if Req_bool (det3 m) 0 then nan_mat3
                  else div_mat3 (adj3 m) (det3 m)) mat.
Proof.
  unfold masked_fill_nan; induction mat as [|m mat IH]; simpl; auto.
  now rewrite IH.
Qed.

Lemma any_singular mat :
  existsb (fun b : bool => b) (map (fun d => Req_bool d 0) (map det3 mat)) = true
  <-> exists m, In m mat /\ det3 m = 0.
Proof.
  rewrite existsb_exists; split.
  - intros (b & Hin & ->).
    apply in_map_iff in Hin; destruct Hin as (d & Hd & Hin).
    apply in_map_iff in Hin; destruct Hin as (m & <- & Hin).
    exists m; split; auto. now apply Req_bool_true.
  - intros (m & Hin & Hdet); exists true; split; auto.
    apply in_map_iff; exists (det3 m); split.
    + now apply Req_bool_true.
    + now apply in_map.
Qed.

Lemma det3_by_cofactors m : det3 m = det_by_cofactors m.
Proof.
  destruct m as [[[[m00 m01] m02] [[m10 m11] m12]] [[m20 m21] m22]].
  unfold det3, det_by_cofactors, cofactor3, minor3, entry3; simpl; ring.
Qed.

Lemma adj3_adjugate m : adj3 m = adjugate m.
Proof.
  destruct m as [[[[m00 m01] m02] [[m10 m11] m12]] [[m20 m21] m22]].
  unfold adj3, adjugate, cofactor3, minor3, entry3; simpl.
  tuple_eq; ring.
Qed.

Lemma adjugate_inverse_r m :
  det3 m <> 0 -> matmul3 m (scale_mat3 (adj3 m) (det3 m)) = eye3.
Proof.
  destruct m as [[[[m00 m01] m02] [[m10 m11] m12]] [[m20 m21] m22]].
  unfold det3, adj3, scale_mat3, matmul3, eye3, dot3; simpl; intros H.
  tuple_eq; field; exact H.
Qed.

Lemma adjugate_inverse_l m :
  det3 m <> 0 -> matmul3 (scale_mat3 (adj3 m) (det3 m)) m = eye3.
Proof.
  destruct m as [[[[m00 m01] m02] [[m10 m11] m12]] [[m20 m21] m22]].
  unfold det3, adj3, scale_mat3, matmul3, eye3, dot3; simpl; intros H.
  tuple_eq; field; exact H.
Qed.

Lemma inverse_3x3_batch_returns mat :
  snd (inverse_3x3_batch mat)
  = inr (map (fun m => if Req_bool (det3 m) 0 then nan_mat3
                       else div_mat3 (adj3 m) (det3 m)) mat).
Proof. unfold inverse_3x3_batch; now rewrite inverse_in_step. Qed.

Lemma inverse_regular_element mat i m :
  nth_error mat i = Some m -> det3 m <> 0 ->
  nth_error (map (fun m => if Req_bool (det3 m) 0 then nan_mat3
                           else div_mat3 (adj3 m) (det3 m)) mat) i
  = Some (fin_mat3 (scale_mat3 (adj3 m) (det3 m))).
Proof.
  intros Hi Hdet; rewrite (map_nth_error _ _ _ Hi).
  rewrite div_mat3_finite by assumption.
  apply Req_bool_false in Hdet; now rewrite Hdet.
Qed.

(** *** In the arithmetic of the tensor *)

Section AnyArithmeticInverse.
Context {F : Type} {A : Arith F}.

Lemma inverse_in_step_in (mat : list (gmat3 F)) :
  masked_fill_nan_in (map (fun d => f_eqb d (f_of_Z 0)) (map det3_in mat))
    (zip_with div_mat3_in (map adj3_in mat) (map det3_in mat))
  = map (fun m => if f_eqb (det3_in m) (f_of_Z 0) then AllNaN
                  else Kept (div_mat3_in (adj3_in m) (det3_in m))) mat.
Proof.
  unfold masked_fill_nan_in; induction mat as [|m mat IH]; simpl; auto.
  now rewrite IH.
Qed.

Lemma any_singular_in (mat : list (gmat3 F)) :
  existsb (fun b : bool => b) (map (fun d => f_eqb d (f_of_Z 0)) (map det3_in mat)) = true
  <-> exists m, In m mat /\ f_eqb (det3_in m) (f_of_Z 0) = true.
Proof.
  rewrite existsb_exists; split.
  - intros (b & Hin & ->).
    apply in_map_iff in Hin; destruct Hin as (d & Hd & Hin).
    apply in_map_iff in Hin; destruct Hin as (m & <- & Hin).
    exists m; split; auto.
  - intros (m & Hin & Hdet); exists true; split; auto.
    apply in_map_iff; exists (det3_in m); split; auto.
    now apply in_map.
Qed.

End AnyArithmeticInverse.

(** In exact arithmetic the kernels are the ones over [R]. *)
Lemma det3_in_exact (m : mat3) : det3_in (A := exact_arith) m = det3 m.
Proof.
  now destruct m as [[[[m00 m01] m02] [[m10 m11] m12]] [[m20 m21] m22]].
Qed.

Lemma adj3_in_exact (m : mat3) : adj3_in (A := exact_arith) m = adj3 m.
Proof.
  now destruct m as [[[[m00 m01] m02] [[m10 m11] m12]] [[m20 m21] m22]].
Qed.

Lemma div_mat3_in_exact (a : mat3) (d : R) :
  div_mat3_in (A := exact_arith) a d = scale_mat3 a d.
Proof.
  now destruct a as [[[[a00 a01] a02] [[a10 a11] a12]] [[a20 a21] a22]].
Qed.

(** The two readings of [inverse_3x3_batch] agree in exact arithmetic:
    the same lines are printed and the same elements returned. *)
Lemma inverse_3x3_batch_in_exact (mat : list mat3) :
  exists out inv_matrices,
    inverse_3x3_batch_in (A := exact_arith) mat = (out, inr inv_matrices) /\
    inverse_3x3_batch mat = (out, inr (map fill_value inv_matrices)).
Proof.
  unfold inverse_3x3_batch_in, inverse_3x3_batch.
  rewrite inverse_in_step_in, inverse_in_step.
  do 2 eexists; split; [reflexivity|].
  assert (Hdet : map (det3_in (A := exact_arith)) mat = map det3 mat)
    by (apply map_ext, det3_in_exact).
  rewrite Hdet; cbn [f_eqb f_of_Z exact_arith]; do 2 f_equal.
  rewrite map_map; apply map_ext; intros m.
  change (adj3_in (A := exact_arith) m) with (adj3 m).
  change (det3_in (A := exact_arith) m) with (det3 m).
  destruct (Req_bool (det3 m) 0) eqn:E; cbn [fill_value]; auto.
  apply Req_bool_false in E.
  now rewrite div_mat3_finite.
Qed.

(** C2. Per-element singularity handling, on the determinant the code
    computes.  In any arithmetic and whatever the batch, the call
    returns one result per element and never ends in an error.  If the
    determinant computed for some element tests [== 0], the one line
    printed is the warning (and nothing is printed otherwise); such an
    element's result is NaN in every entry; every other element's
    result is its computed adjugate divided by its computed
    determinant, as if the singular elements were not there.  In exact
    arithmetic the computed determinant is the cofactor expansion
    along the first row, the test is [det = 0], the computed adjugate
    is the transpose of the cofactor matrix, and the quotient of an
    element with nonzero determinant is its two-sided inverse. *)
Theorem inverse_3x3_batch_singular_elements :
  (forall (F : Type) (A : Arith F) (mat : list (gmat3 F)),
      exists out inv_matrices,
        inverse_3x3_batch_in mat = (out, inr inv_matrices) /\
        List.length inv_matrices = List.length mat /\
        ((exists m, In m mat /\ f_eqb (det3_in m) (f_of_Z 0) = true) ->
         out = ["Warning: Singular matrices found."%string]) /\
        ((forall m, In m mat -> f_eqb (det3_in m) (f_of_Z 0) = false) ->
         out = []) /\
        (forall i m, nth_error mat i = Some m ->
                     f_eqb (det3_in m) (f_of_Z 0) = true ->
                     nth_error inv_matrices i = Some AllNaN) /\
        (forall i m, nth_error mat i = Some m ->
                     f_eqb (det3_in m) (f_of_Z 0) = false ->
                     nth_error inv_matrices i
                     = Some (Kept (div_mat3_in (adj3_in m) (det3_in m)))))
  /\
  (forall m : mat3,
      det3_in (A := exact_arith) m = det_by_cofactors m /\
      adj3_in (A := exact_arith) m = adjugate m /\
      (f_eqb (det3_in (A := exact_arith) m) (f_of_Z 0) = true
       <-> det_by_cofactors m = 0) /\
      (f_eqb (det3_in (A := exact_arith) m) (f_of_Z 0) = false
       <-> det_by_cofactors m <> 0) /\
      (det_by_cofactors m <> 0 ->
       let Minv := div_mat3_in (A := exact_arith)
                     (adj3_in (A := exact_arith) m) (det3_in (A := exact_arith) m) in
       Minv = scale_mat3 (adjugate m) (det_by_cofactors m) /\
       matmul3 m Minv = eye3 /\
       matmul3 Minv m = eye3)).
Proof.
  split.
  - intros F A mat; unfold inverse_3x3_batch_in; rewrite inverse_in_step_in.
    do 2 eexists; split; [reflexivity|].
    split; [apply length_map|].
    split; [|split; [|split]].
    + intros H; apply any_singular_in in H; now rewrite H.
    + intros H.
      destruct (existsb _ _) eqn:E; auto.
      apply any_singular_in in E; destruct E as (m & Hin & Hdet).
      rewrite (H m Hin) in Hdet; discriminate.
    + intros i m Hi Hdet; rewrite (map_nth_error _ _ _ Hi); now rewrite Hdet.
    + intros i m Hi Hdet; rewrite (map_nth_error _ _ _ Hi); now rewrite Hdet.
  - intros m; cbn [f_eqb f_of_Z exact_arith].
    change (adj3_in (A := exact_arith) m) with (adj3 m).
    change (det3_in (A := exact_arith) m) with (det3 m).
    rewrite <- det3_by_cofactors, <- adj3_adjugate.
    split; [reflexivity | split; [reflexivity|]].
    split; [apply Req_bool_true | split; [apply Req_bool_false|]].
    intros Hdet; cbv zeta.
    change (div_mat3_in (A := exact_arith) (adj3 m) (det3 m))
      with (scale_mat3 (adj3 m) (det3 m)).
    split; [reflexivity|].
    split; [now apply adjugate_inverse_r | now apply adjugate_inverse_l].
Qed.

Lemma inverse_3x3_batch_singular_elements_witness :
  (exists inv_matrices,
      inverse_3x3_batch_in [double_diagonal; zero_matrix]
      = (["Warning: Singular matrices found."%string], inr inv_matrices) /\
      nth_error inv_matrices 0
      = Some (Kept ((b32 1 (-1), b32 0 0, b32 0 0),
                    (b32 0 0, b32 1 0, b32 0 0),
                    (b32 0 0, b32 0 0, b32 1 0))) /\
      nth_error inv_matrices 1 = Some AllNaN)
  /\
  (matmul3 ((2, 0, 0), (0, 1, 0), (0, 0, 1))
     (div_mat3_in (A := exact_arith)
        (adj3_in (A := exact_arith) ((2, 0, 0), (0, 1, 0), (0, 0, 1)))
        (det3_in (A := exact_arith) ((2, 0, 0), (0, 1, 0), (0, 0, 1))))
   = eye3).
Proof.
  destruct inverse_3x3_batch_singular_elements as [H E]; split.
  - destruct (H _ binary32_arith [double_diagonal; zero_matrix])
      as (out & inv_matrices & Hcall & _ & Hwarn & _ & Hnan & Hkept).
    exists inv_matrices.
    rewrite Hcall, Hwarn
      by (exists zero_matrix; split; [right; left|]; reflexivity).
    split; [reflexivity|split].
    + now rewrite (Hkept 0%nat double_diagonal eq_refl eq_refl).
    + now rewrite (Hnan 1%nat zero_matrix eq_refl eq_refl).
  - destruct (E ((2, 0, 0), (0, 1, 0), (0, 0, 1))) as (_ & _ & _ & _ & Hinv).
    apply Hinv.
    unfold det_by_cofactors, cofactor3, minor3, entry3; simpl; lra.
Defined.

(** [2^-50] on the diagonal in binary32.  The determinant, [2^-150],
    is not zero, yet the product computed for it is: it lies below the
    smallest positive value of the format.  The warning is printed and
    the element comes back as NaN. *)
Lemma inverse_3x3_batch_tiny_determinant :
  mat3_to_R tiny_diagonal
  = ((/ 2 ^ 50, 0, 0), (0, / 2 ^ 50, 0), (0, 0, / 2 ^ 50)) /\
  det_by_cofactors ((/ 2 ^ 50, 0, 0), (0, / 2 ^ 50, 0), (0, 0, / 2 ^ 50)) <> 0 /\
  det3_in tiny_diagonal = b32 0 0 /\
  inverse_3x3_batch_in [tiny_diagonal]
  = (["Warning: Singular matrices found."%string], inr [AllNaN]).
Proof.
  split; [|split; [|split]].
  - float_eval tiny_diagonal; cbn [mat3_to_R vec3_to_R float_to_R].
    tuple_eq; float_lra.
  - assert (H : 0 < / 2 ^ 50) by (apply Rinv_0_lt_compat, pow_lt; lra).
    set (x := / 2 ^ 50) in *.
    unfold det_by_cofactors, cofactor3, minor3, entry3; simpl.
    assert (0 < x * x) by nra.
    assert (0 < x * (x * x)) by nra.
    lra.
  - vm_compute; reflexivity.
  - vm_compute; reflexivity.
Qed.

(** A zero matrix between two invertible ones, in exact arithmetic:
    the warning is printed, the middle result is all NaN, the
    neighbours are inverted. *)
Example inverse_3x3_batch_zero_between :
  inverse_3x3_batch
    [eye3; ((0, 0, 0), (0, 0, 0), (0, 0, 0)); ((2, 0, 0), (0, 1, 0), (0, 0, 1))]
  = (["Warning: Singular matrices found."%string],
     inr [fin_mat3 (scale_mat3 (adj3 eye3) 1);
          nan_mat3;
          fin_mat3 (scale_mat3 (adj3 ((2, 0, 0), (0, 1, 0), (0, 0, 1))) 2)]).
Proof.
  unfold inverse_3x3_batch; rewrite inverse_in_step.
  assert (D1 : det3 eye3 = 1) by (unfold det3, eye3; lra).
  assert (D0 : det3 ((0, 0, 0), (0, 0, 0), (0, 0, 0)) = 0) by (unfold det3; lra).
  assert (D2 : det3 ((2, 0, 0), (0, 1, 0), (0, 0, 1)) = 2) by (unfold det3; lra).
  assert (S : existsb (fun b : bool => b)
                (map (fun d => Req_bool d 0)
                   (map det3 [eye3; ((0, 0, 0), (0, 0, 0), (0, 0, 0));
                              ((2, 0, 0), (0, 1, 0), (0, 0, 1))])) = true).
  { apply any_singular; exists ((0, 0, 0), (0, 0, 0), (0, 0, 0)); split; auto.
    simpl; auto. }
  rewrite S; cbn [map]; rewrite D0, D1, D2.
  assert (E0 : Req_bool 0 0 = true) by now apply Req_bool_true.
  assert (E1 : Req_bool 1 0 = false) by (apply Req_bool_false; lra).
  assert (E2 : Req_bool 2 0 = false) by (apply Req_bool_false; lra).
  rewrite E0, E1, E2, !div_mat3_finite by lra; reflexivity.
Qed.

(** C4. Inverse correctness.  For an element [M] of the batch with
    nonzero determinant, the determinant the code computes is the
    cofactor expansion along the first row, its adjugate is the
    transpose of the cofactor matrix, the element's result is
    [adjugate(M) / det(M)], and over exact arithmetic that result is a
    two-sided inverse: [M @ Minv = I] and [Minv @ M = I]. *)
Theorem inverse_3x3_batch_correct (mat : list mat3) (i : nat) (M : mat3) :
  nth_error mat i = Some M ->
  det3 M <> 0 ->
  exists inv_matrices Minv,
    snd (inverse_3x3_batch mat) = inr inv_matrices /\
    nth_error inv_matrices i = Some (fin_mat3 Minv) /\
    det3 M = det_by_cofactors M /\
    Minv = scale_mat3 (adjugate M) (det_by_cofactors M) /\
    matmul3 M Minv = eye3 /\
    matmul3 Minv M = eye3.
Proof.
  intros Hi Hdet.
  eexists; exists (scale_mat3 (adj3 M) (det3 M)).
  split; [apply inverse_3x3_batch_returns|].
  split; [now apply inverse_regular_element|].
  split; [apply det3_by_cofactors|].
  split; [now rewrite <- adj3_adjugate, <- det3_by_cofactors|].
  split; [now apply adjugate_inverse_r | now apply adjugate_inverse_l].
Qed.

End InverseFacts.

Lemma inverse_3x3_batch_correct_witness :
  exists inv_matrices Minv,
    snd (inverse_3x3_batch [((2, 0, 0), (0, 1, 0), (0, 0, 1))%R]) = inr inv_matrices /\
    nth_error inv_matrices 0 = Some (fin_mat3 Minv) /\
    det3 ((2, 0, 0), (0, 1, 0), (0, 0, 1))%R
    = det_by_cofactors ((2, 0, 0), (0, 1, 0), (0, 0, 1))%R /\
    Minv = scale_mat3 (adjugate ((2, 0, 0), (0, 1, 0), (0, 0, 1))%R)
             (det_by_cofactors ((2, 0, 0), (0, 1, 0), (0, 0, 1))%R) /\
    matmul3 ((2, 0, 0), (0, 1, 0), (0, 0, 1))%R Minv = eye3 /\
    matmul3 Minv ((2, 0, 0), (0, 1, 0), (0, 0, 1))%R = eye3.
Proof.
  apply (inverse_3x3_batch_correct [((2, 0, 0), (0, 1, 0), (0, 0, 1))%R] 0
           ((2, 0, 0), (0, 1, 0), (0, 0, 1))%R eq_refl).
  unfold det3; lra.
Defined.

(* ================================================================= *)
(** ** Rotation algebra *)

Section RotationFacts.
Local Open Scope R_scope.

Lemma normalize_eps_pos : 0 < normalize_eps.
Proof. unfold normalize_eps; lra. Qed.

Lemma normalize_eps_le_1 : normalize_eps <= 1.
Proof. unfold normalize_eps; lra. Qed.

Lemma clamp_min_above x : normalize_eps <= x -> clamp_min x normalize_eps = x.
Proof. intros H; unfold clamp_min; now apply Rmax_left. Qed.

Lemma norm4_sq a b c d :
  norm4 (a, b, c, d) ^ 2 = a ^ 2 + b ^ 2 + c ^ 2 + d ^ 2.
Proof. unfold norm4; rewrite <- Rsqr_pow2, Rsqr_sqrt; [ring | nra]. Qed.

Lemma norm3_sq' x y z : norm3 (x, y, z) ^ 2 = x ^ 2 + y ^ 2 + z ^ 2.
Proof. unfold norm3; rewrite <- Rsqr_pow2, Rsqr_sqrt; [ring | nra]. Qed.

Lemma norm3_nonneg v : 0 <= norm3 v.
Proof. destruct v as [[x y] z]; apply sqrt_pos. Qed.

(** A quaternion of unit norm passes through [F.normalize] unchanged. *)
Lemma normalize4_unit q : norm4 q = 1 -> normalize4 q = q.
Proof.
  destruct q as [[[a b] c] d]; intros H; unfold normalize4.
  rewrite H, clamp_min_above by apply normalize_eps_le_1.
  tuple_eq; field.
Qed.

(** Above the clamp, the normalised quaternion has unit length. *)
Lemma normalize4_sum_sq q a b c d :
  normalize_eps <= norm4 q ->
  normalize4 q = (a, b, c, d) ->
  a ^ 2 + b ^ 2 + c ^ 2 + d ^ 2 = 1.
Proof.
  destruct q as [[[x y] z] w]; intros H; unfold normalize4.
  rewrite clamp_min_above by assumption.
  pose proof normalize_eps_pos as He.
  pose proof (norm4_sq x y z w) as Hn.
  set (n := norm4 (x, y, z, w)) in *.
  intros [= <- <- <- <-].
  assert (Hn0 : n <> 0) by lra.
  replace ((x / n) ^ 2 + (y / n) ^ 2 + (z / n) ^ 2 + (w / n) ^ 2)
    with ((x ^ 2 + y ^ 2 + z ^ 2 + w ^ 2) / n ^ 2) by (field; assumption).
  rewrite <- Hn; field; assumption.
Qed.

Lemma norm4_neg q : norm4 (neg4 q) = norm4 q.
Proof.
  destruct q as [[[a b] c] d]; unfold norm4, neg4; f_equal; ring.
Qed.

Lemma quat_to_rot_neg q : quat_to_rot (neg4 q) = quat_to_rot q.
Proof.
  unfold quat_to_rot, normalize4; rewrite norm4_neg.
  destruct q as [[[a b] c] d]; unfold neg4.
  set (n := clamp_min _ _).
  tuple_eq; unfold Rdiv; ring.
Qed.

Lemma quat_to_rot_unit w x y z :
  norm4 (w, x, y, z) = 1 ->
  quat_to_rot (w, x, y, z)
  = ((1 - 2 * (y ^ 2 + z ^ 2), 2 * (y * x - z * w), 2 * (x * z + w * y)),
     (2 * (y * x + z * w), 1 - 2 * (x ^ 2 + z ^ 2), 2 * (y * z - x * w)),
     (2 * (z * x - y * w), 2 * (y * z + x * w), 1 - 2 * (x ^ 2 + y ^ 2))).
Proof. intros H; unfold quat_to_rot; now rewrite normalize4_unit. Qed.

(** The single branch of the trace method returns [|w|] and the
    vector part multiplied by the sign of [w]. *)
Lemma rot_to_quat_of_unit w x y z :
  norm4 (w, x, y, z) = 1 -> w <> 0 ->
  rot_to_quat (quat_to_rot (w, x, y, z))
  = (Rabs w, x * (w / Rabs w), y * (w / Rabs w), z * (w / Rabs w)).
Proof.
  intros H Hw; rewrite quat_to_rot_unit by assumption.
  pose proof (norm4_sq w x y z) as Hs; rewrite H in Hs.
  unfold rot_to_quat.
  replace (1 + (1 - 2 * (y ^ 2 + z ^ 2)) + (1 - 2 * (x ^ 2 + z ^ 2))
           + (1 - 2 * (x ^ 2 + y ^ 2))) with (Rsqr (2 * w))
    by (unfold Rsqr; nra).
  rewrite sqrt_Rsqr_abs, Rabs_mult, (Rabs_pos_eq 2) by lra.
  assert (Ha : Rabs w <> 0) by now apply Rabs_no_R0.
  tuple_eq; field; assumption.
Qed.

(** C8. Rotation round trip.  For a quaternion [q = (w, x, y, z)] of
    unit norm with [|w| > 0.1], [rot_to_quat (quat_to_rot q)] is [q] or
    [-q], exactly over the reals and so within any tolerance; and
    [quat_to_rot] of the recovered quaternion is the matrix
    [quat_to_rot q] again. *)
Theorem rot_to_quat_round_trip (w x y z : R) :
  norm4 (w, x, y, z) = 1 ->
  / 10 < Rabs w ->
  (rot_to_quat (quat_to_rot (w, x, y, z)) = (w, x, y, z) \/
   rot_to_quat (quat_to_rot (w, x, y, z)) = neg4 (w, x, y, z)) /\
  quat_to_rot (rot_to_quat (quat_to_rot (w, x, y, z))) = quat_to_rot (w, x, y, z).
Proof.
  intros Hq Hw.
  assert (Hw0 : w <> 0) by (intros ->; rewrite Rabs_R0 in Hw; lra).
  assert (Hsign : rot_to_quat (quat_to_rot (w, x, y, z)) = (w, x, y, z) \/
                  rot_to_quat (quat_to_rot (w, x, y, z)) = neg4 (w, x, y, z)).
  { rewrite rot_to_quat_of_unit by assumption.
    destruct (Rlt_le_dec 0 w) as [Hpos | Hneg].
    - left; rewrite Rabs_pos_eq by lra. tuple_eq; field; assumption.
    - right; rewrite Rabs_left by lra. unfold neg4; tuple_eq; field; assumption. }
  split; [exact Hsign|].
  destruct Hsign as [-> | ->]; [reflexivity | apply quat_to_rot_neg].
Qed.

Lemma rot_to_quat_round_trip_witness :
  (rot_to_quat (quat_to_rot (- (3 / 5), 4 / 5, 0, 0)) = (- (3 / 5), 4 / 5, 0, 0) \/
   rot_to_quat (quat_to_rot (- (3 / 5), 4 / 5, 0, 0)) = neg4 (- (3 / 5), 4 / 5, 0, 0)) /\
  quat_to_rot (rot_to_quat (quat_to_rot (- (3 / 5), 4 / 5, 0, 0)))
  = quat_to_rot (- (3 / 5), 4 / 5, 0, 0).
Proof.
  apply (rot_to_quat_round_trip (- (3 / 5)) (4 / 5) 0 0).
  - unfold norm4.
    replace ((- (3 / 5)) ^ 2 + (4 / 5) ^ 2 + 0 ^ 2 + 0 ^ 2) with 1 by field.
    apply sqrt_1.
  - rewrite Rabs_left by lra; lra.
Defined.

(** With a negative scalar part the round trip returns [-q], not [q]. *)
Example rot_to_quat_flips_sign :
  rot_to_quat (quat_to_rot (- (3 / 5), 4 / 5, 0, 0)) = (3 / 5, - (4 / 5), 0, 0).
Proof.
  assert (H : norm4 (- (3 / 5), 4 / 5, 0, 0) = 1).
  { unfold norm4.
    replace ((- (3 / 5)) ^ 2 + (4 / 5) ^ 2 + 0 ^ 2 + 0 ^ 2) with 1 by field.
    apply sqrt_1. }
  rewrite rot_to_quat_of_unit by (assumption || lra).
  rewrite Rabs_left by lra. tuple_eq; field.
Qed.

End RotationFacts.

(* ================================================================= *)
(** ** Camera rays *)

Section CameraFacts.
Local Open Scope R_scope.

Lemma apply_pose_sub p x y z :
  sub3 (apply_pose p (x, y, z, 1)) (mat4_loc p)
  = mul_mat3_vec (mat4_rot p) (x, y, z).
Proof.
  destruct p as [[[[[[a0 a1] a2] a3] [[[b0 b1] b2] b3]] [[[c0 c1] c2] c3]] last].
  unfold apply_pose, mat4_loc, mat4_rot, mul_mat3_vec, sub3, dot3; simpl.
  tuple_eq; ring.
Qed.

Lemma rigid_preserves_norm p v :
  rigid p -> norm3 (mul_mat3_vec (mat4_rot p) v) = norm3 v.
Proof.
  destruct p as [[[[[[a0 a1] a2] a3] [[[b0 b1] b2] b3]] [[[c0 c1] c2] c3]] last].
  destruct v as [[x y] z].
  unfold rigid, mat4_rot, transpose3, matmul3, eye3, mul_mat3_vec, norm3, dot3; simpl.
  intros [= H00 H01 H02 H10 H11 H12 H20 H21 H22].
  f_equal.
  nsatz.
Qed.

Lemma norm3_lifted_ge_1 x y : 1 <= norm3 (x, y, 1).
Proof.
  unfold norm3; rewrite <- sqrt_1 at 1.
  apply sqrt_le_1; nra.
Qed.

Lemma normalize3_unit v : normalize_eps <= norm3 v -> norm3 (normalize3 v) = 1.
Proof.
  destruct v as [[x y] z]; intros H; unfold normalize3.
  rewrite clamp_min_above by assumption.
  pose proof normalize_eps_pos as He.
  pose proof (norm3_sq' x y z) as Hn.
  set (n := norm3 (x, y, z)) in *.
  assert (Hn0 : n <> 0) by lra.
  unfold norm3.
  replace ((x / n) ^ 2 + (y / n) ^ 2 + (z / n) ^ 2)
    with ((x ^ 2 + y ^ 2 + z ^ 2) / n ^ 2) by (field; assumption).
  rewrite <- Hn.
  replace (n ^ 2 / n ^ 2) with 1 by (field; assumption).
  apply sqrt_1.
Qed.

(** A direction that is not shorter than the clamp before
    [F.normalize] has unit length after it, whatever the pose. *)
Lemma ray_dir_unit_above_clamp p cam_loc K uv :
  normalize_eps <= norm3 (raw_dir p cam_loc K uv) ->
  norm3 (ray_dir p cam_loc K uv) = 1.
Proof. apply normalize3_unit. Qed.

(** Under a rigid pose the direction before normalisation is as long
    as the lifted point, which is at depth 1: at least 1. *)
Lemma raw_dir_rigid p K uv : rigid p -> 1 <= norm3 (raw_dir p (mat4_loc p) K uv).
Proof.
  intros Hp; unfold raw_dir, lift; cbv zeta.
  rewrite apply_pose_sub, rigid_preserves_norm by assumption.
  apply norm3_lifted_ge_1.
Qed.

(** Below the clamp [F.normalize] divides by the clamp. *)
Lemma normalize3_below_clamp v :
  norm3 v <= normalize_eps -> norm3 (normalize3 v) = norm3 v / normalize_eps.
Proof.
  destruct v as [[x y] z]; intros H; unfold normalize3, clamp_min.
  rewrite Rmax_right by assumption.
  pose proof normalize_eps_pos as He.
  pose proof (norm3_sq' x y z) as Hn.
  pose proof (norm3_nonneg (x, y, z)) as H0.
  set (n := norm3 (x, y, z)) in *.
  unfold norm3; apply sqrt_lem_1.
  - nra.
  - apply Rmult_le_pos; [assumption|left; now apply Rinv_0_lt_compat].
  - transitivity (n ^ 2 / normalize_eps ^ 2); [field; lra|].
    rewrite Hn; field; lra.
Qed.

(** One ray of a rigid pose has unit length. *)
Lemma ray_dir_unit p K uv : rigid p -> norm3 (ray_dir p (mat4_loc p) K uv) = 1.
Proof.
  intros Hp; apply ray_dir_unit_above_clamp.
  pose proof normalize_eps_le_1; pose proof (raw_dir_rigid p K uv Hp); lra.
Qed.

(** Rigidity is needed: a "pose" whose rotation block is the identity
    shrunk to [1e-13] is below the clamp, and the direction returned
    for the principal point has length [1/10]. *)
Example ray_dir_shrunk_pose :
  norm3 (ray_dir ((/ 10 ^ 13, 0, 0, 0), (0, / 10 ^ 13, 0, 0),
                  (0, 0, / 10 ^ 13, 0), (0, 0, 0, 1))
                 (0, 0, 0) eye4 (0, 0))
  = / 10.
Proof.
  assert (Hraw : raw_dir ((/ 10 ^ 13, 0, 0, 0), (0, / 10 ^ 13, 0, 0),
                          (0, 0, / 10 ^ 13, 0), (0, 0, 0, 1))
                   (0, 0, 0) eye4 (0, 0) = (0, 0, / 10 ^ 13)).
  { cbv beta iota zeta delta
      [raw_dir lift apply_pose sub3 eye4 K_fx K_fy K_cx K_cy K_sk fst snd].
    tuple_eq; field. }
  assert (Hnorm : norm3 (0, 0, / 10 ^ 13) = / 10 ^ 13).
  { apply sqrt_lem_1; [nra | lra | field]. }
  unfold ray_dir; rewrite Hraw, normalize3_below_clamp, Hnorm.
  - unfold normalize_eps; field.
  - rewrite Hnorm; unfold normalize_eps; lra.
Qed.

Lemma mat4_loc_homogeneous row : mat4_loc (homogeneous_pose row) = pose_loc row.
Proof.
  unfold homogeneous_pose.
  destruct (quat_to_rot (pose_quat row)) as [[[[r00 r01] r02] [[r10 r11] r12]] [[r20 r21] r22]].
  now destruct (pose_loc row) as [[tx ty] tz].
Qed.

Lemma mat4_rot_homogeneous row :
  mat4_rot (homogeneous_pose row) = quat_to_rot (pose_quat row).
Proof.
  unfold homogeneous_pose.
  destruct (quat_to_rot (pose_quat row)) as [[[[r00 r01] r02] [[r10 r11] r12]] [[r20 r21] r22]].
  now destruct (pose_loc row) as [[tx ty] tz].
Qed.

(** The matrix the quaternion branch assembles from [torch.eye(4)] is
    the homogeneous pose of the row. *)
Lemma set_rot_loc_eye row :
  set_loc (set_rot eye4 (quat_to_rot (pose_quat row))) (pose_loc row)
  = homogeneous_pose row.
Proof.
  unfold homogeneous_pose, set_loc, set_rot, eye4.
  destruct (quat_to_rot (pose_quat row)) as [[[[r00 r01] r02] [[r10 r11] r12]] [[r20 r21] r22]].
  now destruct (pose_loc row) as [[tx ty] tz].
Qed.

Lemma quat_branch_in_step rows :
  zip_with set_loc
    (zip_with set_rot (repeat eye4 (List.length rows))
       (map (fun row => quat_to_rot (pose_quat row)) rows))
    (map pose_loc rows)
  = map homogeneous_pose rows.
Proof.
  induction rows as [|row rows IH]; auto.
  cbn [List.length repeat map zip_with]; now rewrite IH, set_rot_loc_eye.
Qed.

(** The rotation of a quaternion above the clamp is orthogonal. *)
Lemma homogeneous_pose_rigid row :
  normalize_eps <= norm4 (pose_quat row) -> rigid (homogeneous_pose row).
Proof.
  intros H; unfold rigid; rewrite mat4_rot_homogeneous.
  unfold quat_to_rot.
  destruct (normalize4 (pose_quat row)) as [[[a b] c] d] eqn:E.
  pose proof (normalize4_sum_sq _ _ _ _ _ H E) as Hu.
  assert (Hu' : a * a + b * b + c * c + d * d = 1) by lra.
  clear H E Hu.
  unfold transpose3, matmul3, eye3, dot3; simpl.
  tuple_eq; nsatz.
Qed.

Lemma broadcast_batch_ok {A} (l : list A) (B : nat) :
  List.length l = B \/ List.length l = 1%nat ->
  exists Ks, broadcast_batch l B = Some Ks /\ List.length Ks = B /\
             forall K, In K Ks -> In K l.
Proof.
  unfold broadcast_batch; intros H.
  destruct (Nat.eqb_spec (List.length l) B) as [E | NE].
  - exists l; auto.
  - destruct H as [H | H]; [contradiction|].
    destruct l as [|a [|b l]]; try discriminate.
    exists (repeat a B); split; [reflexivity|split; [apply repeat_length|]].
    intros K HK; apply repeat_spec in HK; subst; now left.
Qed.

Lemma ray_dirs_shape (p : list mat4) (c : list vec3) (Ks : list mat4)
    (uv : list (list (R * R))) :
  List.length p = List.length uv -> List.length c = List.length uv ->
  List.length Ks = List.length uv ->
  Forall2 (fun (dirs_b : list vec3) (uv_b : list (R * R)) =>
             List.length dirs_b = List.length uv_b)
    (zip_with3 (fun p_b c_b '(K_b, uv_b) => map (ray_dir p_b c_b K_b) uv_b)
       p c (combine Ks uv)) uv.
Proof.
  revert p c Ks; induction uv as [|uv_b uv IH]; intros [|p_b p] [|c_b c] [|K Ks];
    simpl; try discriminate; try constructor.
  - apply length_map.
  - apply IH; congruence.
Qed.

(** What [get_camera_params] returns for a well-shaped batch, on
    either branch of the test on the pose shape. *)
Lemma get_camera_params_quat uv rows intrinsics Ks :
  broadcast_batch intrinsics (List.length uv) = Some Ks ->
  List.length rows = List.length uv ->
  get_camera_params uv (PoseQuat rows) intrinsics
  = inr (zip_with3 (fun p_b c_b '(K_b, uv_b) => map (ray_dir p_b c_b K_b) uv_b)
           (map homogeneous_pose rows) (map pose_loc rows) (combine Ks uv),
         map pose_loc rows).
Proof.
  intros HK Hlen; unfold get_camera_params.
  now rewrite quat_branch_in_step, HK, length_map, Hlen, Nat.eqb_refl.
Qed.

Lemma get_camera_params_mat uv mats intrinsics Ks :
  broadcast_batch intrinsics (List.length uv) = Some Ks ->
  List.length mats = List.length uv ->
  get_camera_params uv (PoseMat mats) intrinsics
  = inr (zip_with3 (fun p_b c_b '(K_b, uv_b) => map (ray_dir p_b c_b K_b) uv_b)
           (map (fun p => p) mats) (map mat4_loc mats) (combine Ks uv),
         map mat4_loc mats).
Proof.
  intros HK Hlen; unfold get_camera_params.
  now rewrite HK, Hlen, Nat.eqb_refl, map_id.
Qed.

(** C7. Ray generator guarantee.  For a well-shaped batch (as many
    poses as images, intrinsics for each image or one for all), valid
    poses (rigid matrices, or quaternions above the normalisation
    clamp) and nonzero focal lengths, the call returns; every returned
    direction has L2 norm exactly 1 over the reals, one direction per
    pixel; and the returned origins are the translation components of
    the poses ([pose[:, 4:]], respectively [pose[:, :3, 3]]),
    unchanged. *)
Theorem get_camera_params_unit_rays
    (uv : list (list (R * R))) (pose : pose_batch) (intrinsics : list mat4) :
  pose_size pose = List.length uv ->
  (List.length intrinsics = List.length uv \/ List.length intrinsics = 1%nat) ->
  valid_pose pose ->
  Forall (fun K => K_fx K <> 0 /\ K_fy K <> 0) intrinsics ->
  exists ray_dirs,
    get_camera_params uv pose intrinsics = inr (ray_dirs, pose_translation pose) /\
    Forall2 (fun (dirs_b : list vec3) (uv_b : list (R * R)) =>
               List.length dirs_b = List.length uv_b) ray_dirs uv /\
    Forall (Forall (fun d => norm3 d = 1)) ray_dirs.
Proof.
  intros Hsize HK Hvalid _.
  destruct (broadcast_batch_ok _ _ HK) as (Ks & HKs & HlenK & _).
  destruct pose as [rows | mats]; simpl in Hsize, Hvalid; cbn [pose_translation].
  - rewrite (get_camera_params_quat _ _ _ _ HKs Hsize).
    eexists; split; [reflexivity|split].
    + apply ray_dirs_shape; rewrite ?length_map; auto.
    + apply zip_with3_same_source; intros row [K uv_b] Hin.
      apply Forall_forall; intros d Hd.
      apply in_map_iff in Hd; destruct Hd as (px & <- & _).
      rewrite <- mat4_loc_homogeneous.
      apply ray_dir_unit, homogeneous_pose_rigid.
      rewrite Forall_forall in Hvalid; now apply Hvalid.
  - rewrite (get_camera_params_mat _ _ _ _ HKs Hsize).
    eexists; split; [reflexivity|split].
    + apply ray_dirs_shape; rewrite ?length_map; auto.
    + apply zip_with3_same_source; intros p [K uv_b] Hin.
      apply Forall_forall; intros d Hd.
      apply in_map_iff in Hd; destruct Hd as (px & <- & _).
      apply ray_dir_unit.
      rewrite Forall_forall in Hvalid; now apply Hvalid.
Qed.

(** C9. Pose-representation equivalence.  Called with 7-vector poses
    [[q, t]], the ray generator returns exactly what it returns when
    called with the 4x4 homogeneous poses whose rotation block is
    [quat_to_rot q], whose last column is [t] and whose bottom row is
    [0 0 0 1]: the same directions, the same origins, and the same
    error on an ill-shaped batch. *)
Theorem get_camera_params_pose_equivalence
    (uv : list (list (R * R))) (rows : list vec7) (intrinsics : list mat4) :
  get_camera_params uv (PoseQuat rows) intrinsics
  = get_camera_params uv (PoseMat (map homogeneous_pose rows)) intrinsics.
Proof.
  unfold get_camera_params.
  rewrite quat_branch_in_step, map_map.
  now rewrite (map_ext _ _ mat4_loc_homogeneous).
Qed.

Lemma get_camera_params_unit_rays_witness :
  exists ray_dirs,
    get_camera_params [[(0, 0); (3, 4)]; [(1, 1)]]
      (PoseQuat [(3 / 5, 4 / 5, 0, 0, 1, 2, 3); (2, 0, 0, 0, 0, 0, 5)])
      [((2, 0, 1, 0), (0, 2, 1, 0), (0, 0, 1, 0), (0, 0, 0, 1))]
    = inr (ray_dirs, [(1, 2, 3); (0, 0, 5)]) /\
    Forall2 (fun (dirs_b : list vec3) (uv_b : list (R * R)) =>
               List.length dirs_b = List.length uv_b)
            ray_dirs [[(0, 0); (3, 4)]; [(1, 1)]] /\
    Forall (Forall (fun d => norm3 d = 1)) ray_dirs.
Proof.
  apply (get_camera_params_unit_rays [[(0, 0); (3, 4)]; [(1, 1)]]
           (PoseQuat [(3 / 5, 4 / 5, 0, 0, 1, 2, 3); (2, 0, 0, 0, 0, 0, 5)])
           [((2, 0, 1, 0), (0, 2, 1, 0), (0, 0, 1, 0), (0, 0, 0, 1))]).
  - reflexivity.
  - right; reflexivity.
  - pose proof normalize_eps_le_1.
    constructor; [|constructor; [|constructor]]; unfold pose_quat, norm4.
    + replace ((3 / 5) ^ 2 + (4 / 5) ^ 2 + 0 ^ 2 + 0 ^ 2) with 1 by field.
      rewrite sqrt_1; lra.
    + replace (2 ^ 2 + 0 ^ 2 + 0 ^ 2 + 0 ^ 2) with (Rsqr 2) by (unfold Rsqr; ring).
      rewrite sqrt_Rsqr by lra; lra.
  - constructor; [|constructor]; simpl; split; lra.
Defined.

End CameraFacts.

(* ================================================================= *)
(** ** Weighted sampling *)

Section TraverseFacts.
Context {E A B : Type} (f : A -> E + B).

Lemma traverse_inr l bs :
  traverse f l = inr bs -> Forall2 (fun a b => f a = inr b) l bs.
Proof.
  revert bs; induction l as [|a l IH]; simpl; intros bs H.
  - injection H as <-; constructor.
  - destruct (f a) as [e | b] eqn:Ea; [discriminate|].
    destruct (traverse f l) as [e | bs'] eqn:El; [discriminate|].
    injection H as <-; constructor; auto.
Qed.

Lemma traverse_inl l e :
  traverse f l = inl e -> exists a, In a l /\ f a = inl e.
Proof.
  induction l as [|a l IH]; simpl; [discriminate|].
  destruct (f a) as [e' | b] eqn:Ea.
  - intros [= <-]; exists a; auto.
  - destruct (traverse f l) as [e' | bs'] eqn:El; [|discriminate].
    intros [= <-]; destruct (IH eq_refl) as (a' & Hin & Ha'); eauto.
Qed.

Lemma traverse_length l bs :
  traverse f l = inr bs -> List.length bs = List.length l.
Proof.
  intros H; apply traverse_inr in H.
  symmetry; eapply Forall2_length; eassumption.
Qed.

Lemma traverse_all_inr l :
  (forall a, In a l -> exists b, f a = inr b) -> exists bs, traverse f l = inr bs.
Proof.
  induction l as [|a l IH]; simpl; intros H; [eauto|].
  destruct (H a (or_introl eq_refl)) as [b ->].
  destruct IH as [bs ->]; eauto.
Qed.

End TraverseFacts.

(* ================================================================= *)
(** ** Rounding to a binary format *)

Section RoundingFacts.
Local Open Scope Q_scope.

(** *** The nearest integer *)

Lemma rne_floor (x : Q) : (rne x = Qfloor x \/ rne x = Qfloor x + 1)%Z.
Proof.
  unfold rne; destruct (Qcompare _ _); auto; destruct (Z.even _); auto.
Qed.

Lemma rne_comp (x y : Q) : x == y -> rne x = rne y.
Proof.
  intros H; unfold rne; rewrite (Qfloor_comp _ _ H).
  assert (E : x - inject_Z (Qfloor y) == y - inject_Z (Qfloor y)) by (rewrite H; reflexivity).
  now rewrite (Qcompare_comp _ _ E _ _ (Qeq_refl (1 # 2))).
Qed.

Lemma Qfloor_spec (x : Q) : inject_Z (Qfloor x) <= x < inject_Z (Qfloor x) + 1.
Proof.
  split; [apply Qfloor_le|].
  pose proof (Qlt_floor x) as H; rewrite inject_Z_plus in H; exact H.
Qed.

Lemma Qfloor_unique (x : Q) (n : Z) : inject_Z n <= x < inject_Z n + 1 -> Qfloor x = n.
Proof.
  intros [H1 H2]; pose proof (Qfloor_spec x) as [F1 F2].
  assert (A : (Qfloor x < n + 1)%Z).
  { rewrite Zlt_Qlt, inject_Z_plus; change (inject_Z 1) with 1; lra. }
  assert (B : (n < Qfloor x + 1)%Z).
  { rewrite Zlt_Qlt, inject_Z_plus; change (inject_Z 1) with 1; lra. }
  lia.
Qed.

Lemma rne_Z (n : Z) : rne (inject_Z n) = n.
Proof.
  unfold rne; rewrite Qfloor_Z.
  destruct (Qcompare_spec (inject_Z n - inject_Z n) (1 # 2)); [exfalso; lra | reflexivity | exfalso; lra].
Qed.

Lemma rne_le (x y : Q) : x <= y -> (rne x <= rne y)%Z.
Proof.
  intros H; pose proof (Qfloor_resp_le _ _ H) as Hf.
  destruct (Z.eq_dec (Qfloor x) (Qfloor y)) as [E | N].
  - unfold rne; rewrite E.
    destruct (Qcompare_spec (x - inject_Z (Qfloor y)) (1 # 2)) as [Hx | Hx | Hx];
      destruct (Qcompare_spec (y - inject_Z (Qfloor y)) (1 # 2)) as [Hy | Hy | Hy];
      try destruct (Z.even _); try lia; exfalso; lra.
  - destruct (rne_floor x) as [-> | ->], (rne_floor y) as [-> | ->]; lia.
Qed.

Lemma rne_upper (x : Q) (n : Z) : x <= inject_Z n -> (rne x <= n)%Z.
Proof. intros H; rewrite <- (rne_Z n); now apply rne_le. Qed.

Lemma rne_lower (x : Q) (n : Z) : inject_Z n <= x -> (n <= rne x)%Z.
Proof. intros H; rewrite <- (rne_Z n); now apply rne_le. Qed.

Lemma rne_below_half (x : Q) (n : Z) : x < inject_Z n + (1 # 2) -> (rne x <= n)%Z.
Proof.
  intros H; pose proof (Qfloor_spec x) as [F1 F2].
  assert (A : (Qfloor x < n + 1)%Z)
    by (rewrite Zlt_Qlt, inject_Z_plus; change (inject_Z 1) with 1; lra).
  destruct (Z.eq_dec (Qfloor x) n) as [E | N].
  - unfold rne; rewrite E.
    destruct (Qcompare_spec (x - inject_Z n) (1 # 2)); try lia; exfalso; lra.
  - destruct (rne_floor x) as [-> | ->]; lia.
Qed.

(** *** Powers of two *)

Lemma pow2_pos (e : Z) : 0 < 2 ^ e.
Proof. apply Qpower_0_lt; reflexivity. Qed.

Lemma pow2_plus (a b : Z) : 2 ^ (a + b) == 2 ^ a * 2 ^ b.
Proof. apply Qpower_plus; discriminate. Qed.

Lemma pow2_le (a b : Z) : (a <= b)%Z -> 2 ^ a <= 2 ^ b.
Proof. intros H; apply Qpower_le_compat_l; [assumption | discriminate]. Qed.

Lemma pow2_lt (a b : Z) : (a < b)%Z -> 2 ^ a < 2 ^ b.
Proof. intros H; apply Qpower_lt_compat_l; [assumption | reflexivity]. Qed.

Lemma pow2_lt_inv (a b : Z) : 2 ^ a < 2 ^ b -> (a < b)%Z.
Proof. intros H; apply (Qpower_lt_compat_l_inv 2); [assumption | reflexivity]. Qed.

Lemma pow2_Z (e : Z) : (0 <= e)%Z -> 2 ^ e == inject_Z (2 ^ e).
Proof. intros H; now rewrite Zpower_Qpower. Qed.

Lemma pow2_div (a b : Z) : 2 ^ a / 2 ^ b == 2 ^ (a - b).
Proof.
  unfold Z.sub; rewrite pow2_plus, Qpower_opp; reflexivity.
Qed.

(** *** Magnitude *)

Lemma magnitude_spec (x : Q) :
  ~ x == 0 -> 2 ^ (magnitude x - 1) <= Qabs x < 2 ^ magnitude x.
Proof.
  intros Hx; destruct x as [n d]; unfold magnitude; cbn [Qnum Qden].
  assert (Hn : (0 < Z.abs n)%Z).
  { destruct (Z.eq_dec n 0) as [-> | N]; [exfalso; apply Hx; reflexivity | lia]. }
  pose proof (Z.log2_spec _ Hn) as [A1 A2].
  pose proof (Z.log2_spec (Zpos d) ltac:(lia)) as [B1 B2].
  pose proof (Z.log2_nonneg (Z.abs n)) as A0.
  pose proof (Z.log2_nonneg (Zpos d)) as B0.
  set (a := Z.log2 (Z.abs n)) in *; set (b := Z.log2 (Zpos d)) in *.
  assert (Habs : Qabs (n # d) == inject_Z (Z.abs n) / inject_Z (Zpos d)).
  { unfold Qabs; rewrite (Qmake_Qdiv (Z.abs n) d); reflexivity. }
  set (N := inject_Z (Z.abs n)) in *; set (D := inject_Z (Zpos d)) in *.
  assert (Hd : 0 < D) by (unfold D; change 0 with (inject_Z 0); rewrite <- Zlt_Qlt; lia).
  assert (NA1 : 2 ^ a <= N) by (rewrite pow2_Z by lia; unfold N; now rewrite <- Zle_Qle).
  assert (NA2 : N < 2 ^ (a + 1))
    by (rewrite pow2_Z by lia; unfold N; rewrite <- Zlt_Qlt; exact A2).
  assert (DB1 : 2 ^ b <= D) by (rewrite pow2_Z by lia; unfold D; now rewrite <- Zle_Qle).
  assert (DB2 : D < 2 ^ (b + 1))
    by (rewrite pow2_Z by lia; unfold D; rewrite <- Zlt_Qlt; exact B2).
  assert (Lo : 2 ^ (a - b - 1) < Qabs (n # d)).
  { rewrite Habs; apply Qlt_shift_div_l; [assumption|].
    pose proof (pow2_plus (a - b - 1) (b + 1)) as E.
    replace (a - b - 1 + (b + 1))%Z with a in E by lia.
    pose proof (pow2_pos (a - b - 1)).
    nra. }
  assert (Hi : Qabs (n # d) < 2 ^ (a - b + 1)).
  { rewrite Habs; apply Qlt_shift_div_r; [assumption|].
    pose proof (pow2_plus (a - b + 1) b) as E.
    replace (a - b + 1 + b)%Z with (a + 1)%Z in E by lia.
    pose proof (pow2_pos (a - b + 1)).
    nra. }
  destruct (Qle_bool (2 ^ (a - b)) (Qabs (n # d))) eqn:C.
  - apply Qle_bool_iff in C.
    replace (a - b + 1 - 1)%Z with (a - b)%Z by lia; split; assumption.
  - assert (C' : Qabs (n # d) < 2 ^ (a - b)).
    { apply Qnot_le_lt; intros H; apply Qle_bool_iff in H; congruence. }
    split; [apply Qlt_le_weak; exact Lo | exact C'].
Qed.

Lemma magnitude_unique (x : Q) (e : Z) :
  2 ^ (e - 1) <= Qabs x < 2 ^ e -> magnitude x = e.
Proof.
  intros [H1 H2].
  assert (Hx : ~ x == 0).
  { intros E; rewrite E in H1; cbn in H1; pose proof (pow2_pos (e - 1)); lra. }
  pose proof (magnitude_spec x Hx) as [M1 M2].
  assert (A : (e - 1 < magnitude x)%Z) by (apply pow2_lt_inv; lra).
  assert (B : (magnitude x - 1 < e)%Z) by (apply pow2_lt_inv; lra).
  lia.
Qed.

Lemma magnitude_comp (x y : Q) : x == y -> ~ x == 0 -> magnitude x = magnitude y.
Proof.
  intros E Hx; symmetry; apply magnitude_unique.
  rewrite <- E; now apply magnitude_spec.
Qed.

Lemma magnitude_le (x y : Q) : 0 < x -> x <= y -> (magnitude x <= magnitude y)%Z.
Proof.
  intros Hx Hxy.
  pose proof (magnitude_spec x ltac:(lra)) as [X1 X2].
  pose proof (magnitude_spec y ltac:(lra)) as [Y1 Y2].
  rewrite Qabs_pos in * by lra.
  assert (A : (magnitude x - 1 < magnitude y)%Z) by (apply pow2_lt_inv; lra).
  lia.
Qed.

(** *** Rounding *)

Lemma div_of_zero (x c : Q) : x == 0 -> x / c == inject_Z 0.
Proof. intros H; rewrite H; unfold Qdiv; cbn; ring. Qed.

Lemma div_on_grid (x c : Q) (m : Z) : 0 < c -> x == inject_Z m * c -> x / c == inject_Z m.
Proof. intros Hc H; rewrite H; field; lra. Qed.

Lemma div_comp_l (x y c : Q) : x == y -> x / c == y / c.
Proof. intros H; now rewrite H. Qed.

Section RoundFacts.
Variables prec emin : Z.
Hypothesis Hprec : (1 <= prec)%Z.
Hypothesis Hemin : (emin <= - prec)%Z.

Local Abbreviation cexp := (ulp_exponent prec emin).
Local Abbreviation rmag := (round_magnitude prec emin).
Local Abbreviation rnd := (round_fp prec emin).

Lemma round_magnitude_zero (x : Q) : x == 0 -> rmag x == 0.
Proof.
  intros H; unfold round_magnitude.
  rewrite (rne_comp _ _ (div_of_zero x _ H)), rne_Z; reflexivity.
Qed.

Lemma round_magnitude_nonneg (x : Q) : 0 <= x -> 0 <= rmag x.
Proof.
  intros H; unfold round_magnitude.
  pose proof (pow2_pos (cexp x)) as P.
  apply Qmult_le_0_compat; [|lra].
  change 0 with (inject_Z 0); rewrite <- Zle_Qle; apply rne_lower.
  apply Qle_shift_div_l; [assumption | change (inject_Z 0) with 0; lra].
Qed.

Lemma round_magnitude_comp (x y : Q) : x == y -> rmag x == rmag y.
Proof.
  intros E; destruct (Qeq_dec x 0) as [Z | NZ].
  - rewrite (round_magnitude_zero x Z), (round_magnitude_zero y); [reflexivity|].
    now rewrite <- E.
  - unfold round_magnitude, ulp_exponent.
    rewrite (magnitude_comp x y E NZ).
    rewrite (rne_comp _ _ (div_comp_l x y _ E)); reflexivity.
Qed.

(** A value on the grid of its own exponent is not moved. *)
Lemma round_magnitude_on_grid (x : Q) (m : Z) :
  x == inject_Z m * 2 ^ cexp x -> rmag x == x.
Proof.
  intros H; unfold round_magnitude.
  pose proof (pow2_pos (cexp x)) as P.
  rewrite (rne_comp _ _ (div_on_grid x _ m P H)), rne_Z; symmetry; exact H.
Qed.

(** Rounding at a fixed exponent is monotone and keeps grid points. *)
Lemma grid_upper (x : Q) (e : Z) (m : Z) :
  x <= inject_Z m * 2 ^ e -> inject_Z (rne (x / 2 ^ e)) * 2 ^ e <= inject_Z m * 2 ^ e.
Proof.
  intros H; pose proof (pow2_pos e) as P.
  apply Qmult_le_compat_r; [|lra].
  rewrite <- Zle_Qle; apply rne_upper.
  apply Qle_shift_div_r; assumption.
Qed.

Lemma grid_lower (x : Q) (e : Z) (m : Z) :
  inject_Z m * 2 ^ e <= x -> inject_Z m * 2 ^ e <= inject_Z (rne (x / 2 ^ e)) * 2 ^ e.
Proof.
  intros H; pose proof (pow2_pos e) as P.
  apply Qmult_le_compat_r; [|lra].
  rewrite <- Zle_Qle; apply rne_lower.
  apply Qle_shift_div_l; assumption.
Qed.

(** A power of two as a grid point of a finer exponent. *)
Lemma pow2_on_grid (a e : Z) : (e <= a)%Z -> 2 ^ a == inject_Z (2 ^ (a - e)) * 2 ^ e.
Proof.
  intros H; rewrite <- pow2_Z by lia; rewrite <- pow2_plus.
  now replace (a - e + e)%Z with a by lia.
Qed.

Lemma round_magnitude_le (x y : Q) : 0 <= x -> x <= y -> rmag x <= rmag y.
Proof.
  intros Hx Hxy.
  destruct (Qeq_dec x 0) as [Z | NZ].
  { rewrite (round_magnitude_zero x Z); apply round_magnitude_nonneg; lra. }
  assert (Px : 0 < x) by lra.
  pose proof (magnitude_le x y Px Hxy) as Hm.
  pose proof (magnitude_spec x NZ) as [X1 X2].
  pose proof (magnitude_spec y ltac:(lra)) as [Y1 Y2].
  rewrite Qabs_pos in * by lra.
  unfold round_magnitude.
  destruct (Z.eq_dec (cexp x) (cexp y)) as [E | N].
  - rewrite E; pose proof (pow2_pos (cexp y)) as P.
    apply Qmult_le_compat_r; [|lra].
    rewrite <- Zle_Qle; apply rne_le.
    apply Qmult_le_compat_r; [assumption|].
    apply Qlt_le_weak, Qinv_lt_0_compat; assumption.
  - assert (Hlt : (cexp x < cexp y)%Z) by (unfold ulp_exponent in *; lia).
    assert (Ey : cexp y = (magnitude y - prec)%Z) by (unfold ulp_exponent in *; lia).
    assert (Hmag : (magnitude x <= magnitude y - 1)%Z) by (unfold ulp_exponent in *; lia).
    apply Qle_trans with (2 ^ (magnitude y - 1)).
    + rewrite (pow2_on_grid (magnitude y - 1) (cexp x)) by lia.
      apply grid_upper.
      rewrite <- pow2_on_grid by lia.
      apply Qle_trans with (2 ^ magnitude x); [lra | now apply pow2_le].
    + rewrite (pow2_on_grid (magnitude y - 1) (cexp y)) at 1 by lia.
      apply grid_lower.
      rewrite <- pow2_on_grid by lia; assumption.
Qed.

(** Signed rounding. *)

Lemma round_fp_nonneg_eq (x : Q) : 0 <= x -> rnd x = rmag x.
Proof. intros H; unfold round_fp; apply Qle_bool_iff in H; now rewrite H. Qed.

Lemma round_fp_neg_eq (x : Q) : x < 0 -> rnd x = - rmag (- x).
Proof.
  intros H; unfold round_fp.
  destruct (Qle_bool 0 x) eqn:E; [apply Qle_bool_iff in E; lra | reflexivity].
Qed.

Lemma round_fp_comp (x y : Q) : x == y -> rnd x == rnd y.
Proof.
  intros E; destruct (Qlt_le_dec x 0) as [N | P].
  - rewrite (round_fp_neg_eq x N), (round_fp_neg_eq y) by lra.
    apply Qopp_comp, round_magnitude_comp; now rewrite E.
  - rewrite (round_fp_nonneg_eq x P), (round_fp_nonneg_eq y) by lra.
    now apply round_magnitude_comp.
Qed.

Lemma round_fp_le (x y : Q) : x <= y -> rnd x <= rnd y.
Proof.
  intros H; destruct (Qlt_le_dec x 0) as [Nx | Px], (Qlt_le_dec y 0) as [Ny | Py].
  - rewrite (round_fp_neg_eq x Nx), (round_fp_neg_eq y Ny).
    apply Qopp_le_compat, round_magnitude_le; lra.
  - rewrite (round_fp_neg_eq x Nx), (round_fp_nonneg_eq y Py).
    pose proof (round_magnitude_nonneg (- x) ltac:(lra)).
    pose proof (round_magnitude_nonneg y Py); lra.
  - exfalso; lra.
  - rewrite (round_fp_nonneg_eq x Px), (round_fp_nonneg_eq y Py).
    now apply round_magnitude_le.
Qed.

Lemma round_fp_zero : rnd 0 == 0.
Proof. rewrite round_fp_nonneg_eq by lra; now apply round_magnitude_zero. Qed.

(** Integers of at most [prec] bits, and [2 ^ prec] itself, are
    values of the format. *)
Lemma round_magnitude_Z (n : Z) :
  (0 <= n <= 2 ^ prec)%Z -> rmag (inject_Z n) == inject_Z n.
Proof.
  intros [H0 Hn].
  destruct (Z.eq_dec n 0) as [-> | NZ]; [now apply round_magnitude_zero|].
  assert (Pn : 0 < inject_Z n) by (change 0 with (inject_Z 0); rewrite <- Zlt_Qlt; lia).
  pose proof (magnitude_spec (inject_Z n) ltac:(lra)) as [M1 M2].
  rewrite Qabs_pos in * by lra.
  assert (Qn : inject_Z n <= 2 ^ prec) by (rewrite pow2_Z by lia; now rewrite <- Zle_Qle).
  assert (Hm : (magnitude (inject_Z n) <= prec + 1)%Z).
  { assert ((magnitude (inject_Z n) - 1 < prec + 1)%Z); [|lia].
    apply pow2_lt_inv; pose proof (pow2_lt prec (prec + 1) ltac:(lia)); lra. }
  set (e := cexp (inject_Z n)).
  assert (He : (e <= 1)%Z) by (unfold e, ulp_exponent; lia).
  destruct (Z.eq_dec e 1) as [E1 | N1].
  - (* n = 2 ^ prec *)
    assert (Em : magnitude (inject_Z n) = (prec + 1)%Z) by (unfold e, ulp_exponent in E1; lia).
    rewrite Em in M1; replace (prec + 1 - 1)%Z with prec in M1 by lia.
    apply (round_magnitude_on_grid _ (2 ^ (prec - 1))); fold e; rewrite E1.
    rewrite <- pow2_Z by lia; rewrite <- pow2_plus.
    replace (prec - 1 + 1)%Z with prec by lia; lra.
  - apply (round_magnitude_on_grid _ (n * 2 ^ (- e))); fold e.
    rewrite inject_Z_mult, <- pow2_Z by lia.
    rewrite <- Qmult_assoc, <- pow2_plus.
    replace (- e + e)%Z with 0%Z by lia; cbn; ring.
Qed.

Lemma round_fp_Z (n : Z) :
  (Z.abs n <= 2 ^ prec)%Z -> rnd (inject_Z n) == inject_Z n.
Proof.
  intros H; destruct (Z.lt_ge_cases n 0) as [N | P].
  - rewrite round_fp_neg_eq by (change 0 with (inject_Z 0); rewrite <- Zlt_Qlt; lia).
    rewrite <- inject_Z_opp, round_magnitude_Z by lia.
    rewrite inject_Z_opp; ring.
  - rewrite round_fp_nonneg_eq by (change 0 with (inject_Z 0); rewrite <- Zle_Qle; lia).
    apply round_magnitude_Z; lia.
Qed.

(** The largest draw is [1 - 2 ^ (- prec)]: scaled by an integer [k]
    of the format, the rounded product stays strictly below [k]. *)
Lemma round_fp_scaled_draw (u : Q) (k : Z) :
  0 <= u <= 1 - 2 ^ (- prec) -> (1 <= k <= 2 ^ prec)%Z ->
  rnd (u * inject_Z k) < inject_Z k.
Proof.
  intros [Hu0 Hu1] [Hk1 Hk2].
  set (K := inject_Z k).
  assert (K1 : 1 <= K) by (unfold K; change 1 with (inject_Z 1); rewrite <- Zle_Qle; lia).
  assert (K2 : K <= 2 ^ prec) by (unfold K; rewrite pow2_Z by lia; now rewrite <- Zle_Qle).
  pose proof (pow2_pos (- prec)) as Pp.
  assert (Hx0 : 0 <= u * K) by (apply Qmult_le_0_compat; lra).
  assert (Hx1 : u * K <= K - K * 2 ^ (- prec)) by nra.
  rewrite round_fp_nonneg_eq by assumption.
  pose proof (magnitude_spec K ltac:(lra)) as [M1 M2].
  rewrite Qabs_pos in M1, M2 by lra.
  set (m := magnitude K) in *.
  assert (Hm1 : (1 <= m)%Z).
  { assert ((0 < m)%Z); [|lia]. apply pow2_lt_inv; change (2 ^ 0) with 1; lra. }
  assert (Hm2 : (m <= prec + 1)%Z).
  { assert ((m - 1 < prec + 1)%Z); [|lia].
    apply pow2_lt_inv; pose proof (pow2_lt prec (prec + 1) ltac:(lia)); lra. }
  assert (Epow : 2 ^ (m - 1) * 2 ^ (- prec) == 2 ^ (m - 1 - prec)).
  { rewrite <- pow2_plus; now replace (m - 1 + - prec)%Z with (m - 1 - prec)%Z by lia. }
  destruct (Qlt_le_dec (2 ^ (m - 1)) K) as [B | A].
  - (* K is not a power of two *)
    assert (Hm3 : (m <= prec)%Z).
    { assert ((m - 1 < prec)%Z); [|lia]. apply pow2_lt_inv; lra. }
    set (e := (m - prec)%Z).
    assert (Ehalf : 2 ^ (m - 1 - prec) == (1 # 2) * 2 ^ e).
    { unfold e; replace (m - 1 - prec)%Z with (- 1 + (m - prec))%Z by lia.
      rewrite pow2_plus; reflexivity. }
    assert (EK : K == inject_Z (k * 2 ^ (- e)) * 2 ^ e).
    { rewrite inject_Z_mult, <- pow2_Z by (unfold e; lia).
      rewrite <- Qmult_assoc, <- pow2_plus.
      replace (- e + e)%Z with 0%Z by lia; unfold K; cbn; ring. }
    pose proof (pow2_pos e) as Pe.
    destruct (Qlt_le_dec (u * K) (2 ^ (m - 1))) as [S | L].
    + apply Qle_lt_trans with (2 ^ (m - 1)); [|assumption].
      assert (E2 : 2 ^ (m - 1) == inject_Z (2 ^ (m - 1))) by (apply pow2_Z; lia).
      rewrite E2.
      rewrite <- (round_magnitude_Z (2 ^ (m - 1))).
      * apply round_magnitude_le; [assumption | lra].
      * split; [apply Z.pow_nonneg; lia | apply Z.pow_le_mono_r; lia].
    + assert (Ex : cexp (u * K) = e).
      { unfold ulp_exponent.
        rewrite (magnitude_unique (u * K) m); [unfold e; lia|].
        rewrite Qabs_pos by assumption; split; [assumption | nra]. }
      unfold round_magnitude; rewrite Ex.
      apply Qle_lt_trans with (inject_Z (k * 2 ^ (- e) - 1) * 2 ^ e).
      * apply Qmult_le_compat_r; [|lra].
        rewrite <- Zle_Qle; apply rne_below_half.
        apply Qlt_shift_div_r; [assumption|].
        unfold Z.sub; rewrite inject_Z_plus.
        change (inject_Z (- (1))) with (- (1)).
        nra.
      * unfold Z.sub; rewrite inject_Z_plus.
        change (inject_Z (- (1))) with (- (1)).
        nra.
  - (* K is the power of two 2 ^ (m - 1) *)
    assert (EK : K == 2 ^ (m - 1)) by lra.
    set (P := 2 ^ (m - 1) - 2 ^ (m - 1 - prec)).
    pose proof (pow2_pos (m - 1 - prec)) as Pq.
    assert (Ehalf : 2 ^ (m - 2) == (1 # 2) * 2 ^ (m - 1)).
    { replace (m - 2)%Z with (- 1 + (m - 1))%Z by lia.
      rewrite pow2_plus; reflexivity. }
    assert (Hq : 2 ^ (m - 1 - prec) <= 2 ^ (m - 2)) by (apply pow2_le; lia).
    assert (EP : P == inject_Z (2 ^ prec - 1) * 2 ^ (m - 1 - prec)).
    { unfold Z.sub at 1; rewrite inject_Z_plus, <- pow2_Z by lia.
      change (inject_Z (- (1))) with (- (1)).
      assert (E : 2 ^ prec * 2 ^ (m - 1 - prec) == 2 ^ (m - 1)).
      { rewrite <- pow2_plus; now replace (prec + (m - 1 - prec))%Z with (m - 1)%Z by lia. }
      unfold P; lra. }
    assert (MP : magnitude P = (m - 1)%Z).
    { apply magnitude_unique.
      replace (m - 1 - 1)%Z with (m - 2)%Z by lia.
      rewrite Qabs_pos by (unfold P; lra); unfold P; lra. }
    apply Qle_lt_trans with P; [|unfold P; lra].
    rewrite <- (round_magnitude_on_grid P (2 ^ prec - 1)).
    + apply round_magnitude_le; [assumption | unfold P; nra].
    + unfold ulp_exponent; rewrite MP.
      replace (Z.max (m - 1 - prec) emin) with (m - 1 - prec)%Z by lia.
      exact EP.
Qed.

(** A sum that stays between two integers of the format rounds
    between them. *)
Lemma round_fp_between (x : Q) (lo hi : Z) :
  (Z.abs lo <= 2 ^ prec)%Z -> (Z.abs hi <= 2 ^ prec)%Z ->
  inject_Z lo <= x <= inject_Z hi ->
  inject_Z lo <= rnd x <= inject_Z hi.
Proof.
  intros Hlo Hhi [H1 H2]; split.
  - rewrite <- (round_fp_Z lo Hlo); now apply round_fp_le.
  - rewrite <- (round_fp_Z hi Hhi); now apply round_fp_le.
Qed.

End RoundFacts.

End RoundingFacts.

Section SamplerFacts.
Local Open Scope Z_scope.

(** *** float64 *)

Lemma round_f64_le (x y : Q) : (x <= y -> round_f64 x <= round_f64 y)%Q.
Proof. apply round_fp_le; lia. Qed.

Lemma round_f64_comp (x y : Q) : (x == y -> round_f64 x == round_f64 y)%Q.
Proof. apply round_fp_comp. Qed.

Lemma f64_of_int_fits (n : Z) : fits_f64 n -> (f64_of_int n == inject_Z n)%Q.
Proof. intros H; apply round_fp_Z; [lia | lia | exact H]. Qed.

Lemma round_f64_between (x : Q) (lo hi : Z) :
  fits_f64 lo -> fits_f64 hi ->
  (inject_Z lo <= x <= inject_Z hi)%Q ->
  (inject_Z lo <= round_f64 x <= inject_Z hi)%Q.
Proof. apply round_fp_between; lia. Qed.

Lemma nonzero_false q : nonzero q = false <-> (q == 0)%Q.
Proof.
  unfold nonzero; rewrite negb_false_iff; apply Qeq_bool_iff.
Qed.

Lemma filter_nil {A} (f : A -> bool) l :
  (forall a, In a l -> f a = false) -> filter f l = [].
Proof.
  induction l as [|a l IH]; simpl; intros H; auto.
  rewrite (H a) by auto; auto.
Qed.

(** [np.where] of a mask with no True pixel has no column at all. *)
Lemma np_where_all_false mask :
  all_false mask -> exists rest, np_where mask = [] :: rest.
Proof.
  destruct mask as [a | a]; simpl; intros H.
  - unfold where2; rewrite filter_nil; [eauto|].
    intros [i j] Hin; apply in_prod_iff in Hin; destruct Hin as [Hi Hj].
    apply in_seq in Hi, Hj; apply nonzero_false, H; lia.
  - unfold where3; rewrite filter_nil; [eauto|].
    intros [[i j] k] Hin; apply in_prod_iff in Hin; destruct Hin as [Hij Hk].
    apply in_prod_iff in Hij; destruct Hij as [Hi Hj].
    apply in_seq in Hi, Hj, Hk; apply nonzero_false, H; lia.
Qed.

(** C6. Empty-mask failure.  When the object mask has no True pixel,
    the call ends in the error of the reduction over an empty array,
    a [ValueError] and not a returned value; the cursor of the random
    source is where it was, so the error comes before any coordinate
    is drawn, and with it before any field is interpolated. *)
Theorem weighted_sampling_empty_mask
    (rng : nat -> Q) (data : list (string * ndarray)) (img_size : Z * Z)
    (num_sample : Z) (bbox_ratio : Q) (mask : ndarray) (c : nat) :
  dict_get data "object_mask" = inr mask ->
  all_false mask ->
  weighted_sampling rng data img_size num_sample bbox_ratio c
  = (inl (ValueError (zero_size_msg "minimum")), c).
Proof.
  intros Hmask Hempty; unfold weighted_sampling, bind, lift_err.
  rewrite Hmask.
  destruct (np_where_all_false _ Hempty) as [rest ->].
  reflexivity.
Qed.

(** *** Draws and coordinates *)

Lemma rand2_inr rng n c l c' :
  rand2 rng n c = (inr l, c') ->
  0 <= n /\
  l = map (fun i => (rng (c + 2 * i)%nat, rng (c + 2 * i + 1)%nat)) (seq 0 (Z.to_nat n)) /\
  c' = (c + 2 * Z.to_nat n)%nat.
Proof.
  unfold rand2; destruct (Z.ltb_spec n 0); [discriminate|].
  intros [= <- <-]; auto.
Qed.

Lemma rand2_returns rng n c :
  0 <= n -> exists l, rand2 rng n c = (inr l, (c + 2 * Z.to_nat n)%nat).
Proof.
  intros H; unfold rand2; destruct (Z.ltb_spec n 0); [lia | eauto].
Qed.

Lemma inject_Z_minus a b : (inject_Z (a - b) == inject_Z a - inject_Z b)%Q.
Proof.
  unfold Z.sub; rewrite inject_Z_plus, inject_Z_opp; reflexivity.
Qed.

(** The floor of a rational between two integers. *)
Lemma Qfloor_between (x : Q) (lo hi : Z) :
  (inject_Z lo <= x)%Q -> (x < inject_Z hi)%Q -> lo <= Qfloor x <= hi - 1.
Proof.
  intros Hlo Hhi; split.
  - rewrite <- (Qfloor_Z lo); now apply Qfloor_resp_le.
  - assert (H : (inject_Z (Qfloor x) < inject_Z hi)%Q)
      by (eapply Qle_lt_trans; [apply Qfloor_le | exact Hhi]).
    rewrite <- Zlt_Qlt in H; lia.
Qed.

Lemma Qfloor_at_most (x : Q) (hi : Z) :
  (x <= inject_Z hi)%Q -> Qfloor x <= hi.
Proof.
  intros H; rewrite <- (Qfloor_Z hi); now apply Qfloor_resp_le.
Qed.

Lemma fits_f64_0 : fits_f64 0.
Proof. unfold fits_f64; cbn; lia. Qed.

Lemma unit_draw_range (u : Q) : unit_draw u -> (0 <= u < 1)%Q.
Proof.
  intros [H0 H1]; pose proof (pow2_pos (-53)); split; [assumption | lra].
Qed.

(** A draw scaled into [[lo, hi]] stays there after both roundings:
    the bounds are floats, and rounding is monotone. *)
Lemma scale_into_in_box (u : Q) (lo hi : Z) :
  unit_draw u -> 0 <= lo <= hi -> fits_f64 hi ->
  (inject_Z lo <= scale_into u lo hi <= inject_Z hi)%Q.
Proof.
  intros Hu Hlo Hhi; apply unit_draw_range in Hu; unfold scale_into.
  assert (Flo : fits_f64 lo) by (unfold fits_f64 in *; lia).
  assert (Fd : fits_f64 (hi - lo)) by (unfold fits_f64 in *; lia).
  pose proof (f64_of_int_fits _ Fd) as Ed; pose proof (f64_of_int_fits _ Flo) as El.
  assert (Hd : (0 <= inject_Z (hi - lo))%Q)
    by (change 0%Q with (inject_Z 0); rewrite <- Zle_Qle; lia).
  assert (Hp : (inject_Z 0 <= u * f64_of_int (hi - lo) <= inject_Z (hi - lo))%Q).
  { rewrite Ed; change (inject_Z 0) with 0%Q; split; nra. }
  apply (round_f64_between _ 0 (hi - lo) fits_f64_0 Fd) in Hp.
  apply round_f64_between; auto.
  rewrite El; rewrite inject_Z_minus in Hp; change (inject_Z 0) with 0%Q in Hp; lra.
Qed.

(** A draw scaled over [n - 1] stays strictly below it: the largest
    draw is [1 - 2 ^ -53], and its product rounds down. *)
Lemma scale_over_in_extent (u : Q) (n : Z) :
  unit_draw u -> 2 <= n -> fits_f64 (n - 1) ->
  (inject_Z 0 <= scale_over u n < inject_Z (n - 1))%Q.
Proof.
  intros Hu Hn Hf; unfold scale_over.
  pose proof (f64_of_int_fits _ Hf) as E.
  assert (E' : (u * f64_of_int (n - 1) == u * inject_Z (n - 1))%Q) by now rewrite E.
  rewrite (round_f64_comp _ _ E'); split.
  - change (inject_Z 0) with 0%Q.
    rewrite <- (round_fp_zero 53 (-1074)).
    apply round_f64_le.
    assert (Hd : (0 <= inject_Z (n - 1))%Q)
      by (change 0%Q with (inject_Z 0); rewrite <- Zle_Qle; lia).
    destruct Hu as [Hu _]; nra.
  - apply round_fp_scaled_draw; [lia | lia | exact Hu |].
    unfold fits_f64 in Hf; lia.
Qed.

(** What [sample_indices] returns: the two batches, read off the
    stream at the cursor. *)
Lemma sample_indices_inr rng bbox_min bbox_max img_size num_sample bbox_ratio
    c sb su c' :
  sample_indices rng bbox_min bbox_max img_size num_sample bbox_ratio c
  = (inr (sb, su), c') ->
  exists nb,
    int_of_product num_sample bbox_ratio = inr nb /\
    0 <= nb <= num_sample /\
    sb = map (fun i =>
                (scale_into (rng (c + 2 * i)%nat) (fst bbox_min) (fst bbox_max),
                 scale_into (rng (c + 2 * i + 1)%nat) (snd bbox_min) (snd bbox_max)))
             (seq 0 (Z.to_nat nb)) /\
    su = map (fun i =>
                (scale_over (rng (c + 2 * Z.to_nat nb + 2 * i)%nat) (fst img_size),
                 scale_over (rng (c + 2 * Z.to_nat nb + 2 * i + 1)%nat) (snd img_size)))
             (seq 0 (Z.to_nat (num_sample - nb))) /\
    c' = (c + 2 * Z.to_nat num_sample)%nat.
Proof.
  unfold sample_indices, bind, ret, lift_err; cbv zeta.
  destruct (int_of_product num_sample bbox_ratio) as [e | nb]; [discriminate|].
  destruct (rand2 rng nb c) as [[e | l1] c1] eqn:E1; [discriminate|].
  destruct (rand2 rng (num_sample - nb) c1) as [[e | l2] c2] eqn:E2; [discriminate|].
  apply rand2_inr in E1, E2.
  destruct E1 as (Hnb & -> & ->), E2 as (Hnu & -> & ->).
  intros [= <- <- <-]; rewrite !map_map.
  exists nb; split; [reflexivity|].
  split; [lia|]. split; [reflexivity|]. split; [reflexivity|]. lia.
Qed.

Lemma sample_indices_returns rng bbox_min bbox_max img_size num_sample bbox_ratio c nb :
  int_of_product num_sample bbox_ratio = inr nb ->
  0 <= nb <= num_sample ->
  exists sb su,
    sample_indices rng bbox_min bbox_max img_size num_sample bbox_ratio c
    = (inr (sb, su), (c + 2 * Z.to_nat num_sample)%nat).
Proof.
  intros E H; unfold sample_indices, bind, ret, lift_err; cbv zeta; rewrite E.
  destruct (rand2_returns rng nb c) as [l1 ->]; [lia|].
  destruct (rand2_returns rng (num_sample - nb) (c + 2 * Z.to_nat nb)%nat) as [l2 ->]; [lia|].
  do 2 eexists; f_equal; lia.
Qed.

(** *** The bounding box *)

Lemma fold_min_spec l x :
  In (fold_left Z.min l x) (x :: l) /\ Forall (fun y => fold_left Z.min l x <= y) (x :: l).
Proof.
  revert x; induction l as [|y l IH]; intros x; cbn [fold_left].
  - split; [now left | repeat constructor; lia].
  - destruct (IH (Z.min x y)) as [Hin Hall].
    set (m := fold_left Z.min l (Z.min x y)) in *.
    inversion Hall as [|? ? Hxy Hl]; subst; split.
    + destruct Hin as [Hin | Hin]; [|right; now right].
      destruct (Z.min_spec x y) as [[_ E] | [_ E]]; simpl; lia.
    + constructor; [lia|constructor; [lia|assumption]].
Qed.

Lemma fold_max_spec l x :
  In (fold_left Z.max l x) (x :: l) /\ Forall (fun y => y <= fold_left Z.max l x) (x :: l).
Proof.
  revert x; induction l as [|y l IH]; intros x; cbn [fold_left].
  - split; [now left | repeat constructor; lia].
  - destruct (IH (Z.max x y)) as [Hin Hall].
    set (m := fold_left Z.max l (Z.max x y)) in *.
    inversion Hall as [|? ? Hxy Hl]; subst; split.
    + destruct Hin as [Hin | Hin]; [|right; now right].
      destruct (Z.max_spec x y) as [[_ E] | [_ E]]; simpl; lia.
    + constructor; [lia|constructor; [lia|assumption]].
Qed.

Lemma np_min_inr l m : np_min l = inr m -> In m l /\ Forall (fun y => m <= y) l.
Proof.
  destruct l as [|x l]; simpl; [discriminate|].
  intros [= <-]; apply fold_min_spec.
Qed.

Lemma np_max_inr l m : np_max l = inr m -> In m l /\ Forall (fun y => y <= m) l.
Proof.
  destruct l as [|x l]; simpl; [discriminate|].
  intros [= <-]; apply fold_max_spec.
Qed.

(** The smallest index is not above the largest. *)
Lemma np_min_le_max l lo hi : np_min l = inr lo -> np_max l = inr hi -> lo <= hi.
Proof.
  intros Hmin Hmax.
  apply np_min_inr in Hmin; apply np_max_inr in Hmax.
  destruct Hmin as [Hin _], Hmax as [_ Hall].
  rewrite Forall_forall in Hall; auto.
Qed.

Lemma where2_rows a z :
  In z (map (fun p => Z.of_nat (fst p)) (where2 a)) -> 0 <= z < Z.of_nat (a2_H a).
Proof.
  intros H; apply in_map_iff in H; destruct H as ([i j] & <- & Hin).
  apply filter_In in Hin; destruct Hin as [Hin _].
  apply in_prod_iff in Hin; destruct Hin as [Hi _]; apply in_seq in Hi; simpl; lia.
Qed.

Lemma where2_cols a z :
  In z (map (fun p => Z.of_nat (snd p)) (where2 a)) -> 0 <= z < Z.of_nat (a2_W a).
Proof.
  intros H; apply in_map_iff in H; destruct H as ([i j] & <- & Hin).
  apply filter_In in Hin; destruct Hin as [Hin _].
  apply in_prod_iff in Hin; destruct Hin as [_ Hj]; apply in_seq in Hj; simpl; lia.
Qed.

(** The box of a mask lies in the mask's grid, corners in order. *)
Lemma bbox_in_grid mask min0 min1 max0 max1 :
  traverse np_min (np_where mask) = inr [min0; min1] ->
  traverse np_max (np_where mask) = inr [max0; max1] ->
  0 <= min0 <= max0 /\ max0 <= fst (spatial_shape mask) - 1 /\
  0 <= min1 <= max1 /\ max1 <= snd (spatial_shape mask) - 1.
Proof.
  destruct mask as [a | a]; cbn [np_where traverse].
  - destruct (np_min _) as [e | lo0] eqn:L0; [discriminate|].
    destruct (np_min (map (fun p => Z.of_nat (snd p)) _)) as [e | lo1] eqn:L1;
      [discriminate|].
    destruct (np_max _) as [e | hi0] eqn:H0; [discriminate|].
    destruct (np_max (map (fun p => Z.of_nat (snd p)) _)) as [e | hi1] eqn:H1;
      [discriminate|].
    intros [= <- <-] [= <- <-].
    pose proof (np_min_le_max _ _ _ L0 H0).
    pose proof (np_min_le_max _ _ _ L1 H1).
    apply np_min_inr in L0, L1; apply np_max_inr in H0, H1.
    destruct L0 as [L0 _], L1 as [L1 _], H0 as [H0 _], H1 as [H1 _].
    apply where2_rows in L0, H0; apply where2_cols in L1, H1.
    simpl; lia.
  - destruct (np_min _) as [e | lo0]; [discriminate|].
    destruct (np_min (map (fun p => Z.of_nat (snd (fst p))) _)) as [e | lo1];
      [discriminate|].
    destruct (np_min (map (fun p => Z.of_nat (snd p)) _)) as [e | lo2];
      discriminate.
Qed.

(** *** The coordinates of a call *)

Section Draws.
Variable rng : nat -> Q.
Hypothesis rng_unit : forall i, unit_draw (rng i).



Lemma samples_corners bbox_min bbox_max img_size num_sample bbox_ratio c sb su c' :
  sample_indices rng bbox_min bbox_max img_size num_sample bbox_ratio c
  = (inr (sb, su), c') ->
  2 <= fst img_size <= 2 ^ 53 -> 2 <= snd img_size <= 2 ^ 53 ->
  0 <= fst bbox_min <= fst bbox_max -> fst bbox_max <= fst img_size - 2 ->
  0 <= snd bbox_min <= snd bbox_max -> snd bbox_max <= snd img_size - 2 ->
  Forall (corners_in_grid img_size) (sb ++ su).
Proof.
  intros H HH HW Hb0 Hm0 Hb1 Hm1.
  apply sample_indices_inr in H; destruct H as (nb & _ & _ & -> & -> & _).
  assert (box : forall u lo hi n,
             unit_draw u -> 2 <= n <= 2 ^ 53 -> 0 <= lo <= hi -> hi <= n - 2 ->
             0 <= Qfloor (scale_into u lo hi)
             /\ Qfloor (scale_into u lo hi) + 1 <= n - 1).
  { intros u lo hi n Hu Hn Hlo Hhi.
    assert (Fh : fits_f64 hi) by (unfold fits_f64; lia).
    pose proof (scale_into_in_box u lo hi Hu Hlo Fh) as [Hl Hh].
    pose proof (Qfloor_at_most _ _ Hh).
    pose proof (Qfloor_resp_le _ _ Hl) as Hf; rewrite Qfloor_Z in Hf; lia. }
  assert (ext : forall u n,
             unit_draw u -> 2 <= n <= 2 ^ 53 ->
             0 <= Qfloor (scale_over u n) /\ Qfloor (scale_over u n) + 1 <= n - 1).
  { intros u n Hu Hn.
    assert (Fn : fits_f64 (n - 1)) by (unfold fits_f64; lia).
    destruct (scale_over_in_extent u n Hu (proj1 Hn) Fn) as [Hl Hh].
    pose proof (Qfloor_between _ _ _ Hl Hh); lia. }
  apply Forall_app; split; apply Forall_forall; intros p Hp;
    apply in_map_iff in Hp; destruct Hp as (i & <- & _);
    unfold corners_in_grid; cbn [fst snd].
  - destruct (box (rng (c + 2 * i)%nat) _ _ (fst img_size) (rng_unit _) HH Hb0 Hm0).
    destruct (box (rng (c + 2 * i + 1)%nat) _ _ (snd img_size) (rng_unit _) HW Hb1 Hm1).
    auto.
  - destruct (ext (rng (c + 2 * Z.to_nat nb + 2 * i)%nat) (fst img_size) (rng_unit _) HH).
    destruct (ext (rng (c + 2 * Z.to_nat nb + 2 * i + 1)%nat) (snd img_size)
                (rng_unit _) HW).
    auto.
Qed.

End Draws.

(** *** Interpolation *)

Lemma np_axis_index_in_range n i :
  0 <= i < Z.of_nat n -> np_axis_index n i = Some (Z.to_nat i).
Proof.
  intros H; unfold np_axis_index.
  destruct (Z.leb_spec 0 i); [|lia].
  destruct (Z.ltb_spec i (Z.of_nat n)); [reflexivity | lia].
Qed.

Lemma gather_in_range a x y :
  0 <= x < Z.of_nat (a2_H a) -> 0 <= y < Z.of_nat (a2_W a) ->
  gather a x y = Some (a2_at a (Z.to_nat x) (Z.to_nat y)).
Proof.
  intros Hx Hy; unfold gather.
  now rewrite !np_axis_index_in_range by assumption.
Qed.

Lemma bilinear_one_in_grid a p :
  corners_in_grid (Z.of_nat (a2_H a), Z.of_nat (a2_W a)) p ->
  exists v, bilinear_one a (fst p) (snd p) = Some v.
Proof.
  unfold corners_in_grid; cbn [fst snd]; intros (Hx1 & Hx2 & Hy1 & Hy2).
  unfold bilinear_one; cbv zeta.
  rewrite !gather_in_range by lia; eauto.
Qed.

Lemma bilinear_interpolation_in_grid a indices :
  Forall (corners_in_grid (Z.of_nat (a2_H a), Z.of_nat (a2_W a))) indices ->
  exists v, bilinear_interpolation indices a = inr v.
Proof.
  intros H; apply traverse_all_inr; intros [x y] Hin.
  rewrite Forall_forall in H.
  destruct (bilinear_one_in_grid a (x, y) (H _ Hin)) as [v Hv].
  cbn [fst snd] in Hv; rewrite Hv; eauto.
Qed.







(** *** The call as a whole *)

Lemma weighted_sampling_inr rng data img_size num_sample bbox_ratio c
    output index_outside c' :
  weighted_sampling rng data img_size num_sample bbox_ratio c
  = (inr (output, index_outside), c') ->
  exists mask min0 min1 max0 max1 sb su nb,
    dict_get data "object_mask" = inr mask /\
    traverse np_min (np_where mask) = inr [min0; min1] /\
    traverse np_max (np_where mask) = inr [max0; max1] /\
    sample_indices rng (min0, min1) (max0, max1) img_size num_sample bbox_ratio c
    = (inr (sb, su), c') /\
    int_of_product num_sample bbox_ratio = inr nb /\
    resample_all (sb ++ su) data = inr output /\
    index_outside
    = map (fun i => i + nb)
          (get_index_outside_of_bbox su (min0, min1) (max0, max1)).
Proof.
  unfold weighted_sampling, bind, lift_err, ret.
  destruct (dict_get data "object_mask") as [e | mask]; [discriminate|].
  destruct (traverse np_min (np_where mask)) as [e | bmin] eqn:Emin; [discriminate|].
  destruct (traverse np_max (np_where mask)) as [e | bmax] eqn:Emax; [discriminate|].
  destruct bmin as [|min0 [|min1 [|? ?]]];
    try (intros H; exfalso; revert H;
         destruct (int_of_product num_sample bbox_ratio) as [? | n]; [discriminate|];
         destruct (rand2 rng n c) as [[? | ?] ?]; discriminate).
  destruct bmax as [|max0 [|max1 [|? ?]]];
    try (intros H; exfalso; revert H;
         destruct (int_of_product num_sample bbox_ratio) as [? | n]; [discriminate|];
         destruct (rand2 rng n c) as [[? | ?] ?]; discriminate).
  destruct (sample_indices _ _ _ _ _ _ c) as [[e | [sb su]] c1] eqn:Es; [discriminate|].
  destruct (int_of_product num_sample bbox_ratio) as [e | nb] eqn:En; [discriminate|].
  destruct (resample_all (sb ++ su) data) as [e | out] eqn:E; [discriminate|].
  intros [= <- <- <-].
  exists mask, min0, min1, max0, max1, sb, su, nb; repeat split; auto.
Qed.








(** The product is rounded before it is truncated.  The float64
    nearest to 0.7 lies below 0.7, and ten times it lies below 7 by
    half a unit in the last place: the product rounds to 7.0 and the
    count is 7, where truncating the exact product would give 6. *)
Example int_of_product_rounds_first :
  int_of_product 10 (3152519739159347 # 4503599627370496) = inr 7 /\
  py_int (inject_Z 10 * (3152519739159347 # 4503599627370496)) = 6.
Proof. split; vm_compute; reflexivity. Qed.

Lemma weighted_sampling_empty_mask_witness :
  weighted_sampling sixteenths_rng empty_mask_data (2, 2) 10 (9 # 10) 7%nat
  = (inl (ValueError (zero_size_msg "minimum")), 7%nat).
Proof.
  apply (weighted_sampling_empty_mask sixteenths_rng empty_mask_data (2, 2) 10 (9 # 10)
           (Arr2 (array2_of_rows [[0; 0]; [0; 0]]%Q)) 7%nat eq_refl).
  intros [|[|i]] [|[|j]]; simpl; intros; try reflexivity; lia.
Defined.

(** A property of every value of a dict holds of the value found. *)
Lemma dict_get_Forall {V} (P : V -> Prop) (data : list (string * V)) key v :
  Forall (fun kv => P (snd kv)) data -> dict_get data key = inr v -> P v.
Proof.
  induction data as [|[k x] data IH]; simpl; intros Hall Hget; [discriminate|].
  inversion Hall as [|? ? Hx Hrest]; subst.
  destruct (String.eqb k key); [now injection Hget as <- | auto].
Qed.




Lemma resample_returns indices val :
  Forall (corners_in_grid (spatial_shape val)) indices ->
  has_channel val ->
  exists new_val, resample indices val = inr new_val.
Proof.
  destruct val as [a | a]; unfold resample; cbn [spatial_shape has_channel];
    intros H HC.
  - destruct (bilinear_interpolation_in_grid a indices H) as [v ->]; eauto.
  - destruct (traverse_all_inr
                (fun i => bilinear_interpolation indices (channel a i))
                (seq 0 (a3_C a))) as [cols E].
    + intros i _; now apply (bilinear_interpolation_in_grid (channel a i)).
    + rewrite E; apply traverse_length in E; rewrite length_seq in E.
      destruct cols; [simpl in E; lia | eauto].
Qed.

(** Under the conditions of the in-bounds guarantee, with a count in
    the box between [0] and [num_sample] and no field without
    channels, the call returns, having drawn [2 * num_sample]
    numbers. *)
Lemma weighted_sampling_returns
    (rng : nat -> Q) (data : list (string * ndarray)) (img_size : Z * Z)
    (num_sample : Z) (bbox_ratio : Q) (c : nat)
    (mask : ndarray) (min0 min1 max0 max1 nb : Z) :
  (forall i, unit_draw (rng i)) ->
  2 <= fst img_size <= 2 ^ 53 -> 2 <= snd img_size <= 2 ^ 53 ->
  Forall (fun kv : string * ndarray =>
            spatial_shape (snd kv) = img_size /\ has_channel (snd kv)) data ->
  dict_get data "object_mask" = inr mask ->
  traverse np_min (np_where mask) = inr [min0; min1] ->
  traverse np_max (np_where mask) = inr [max0; max1] ->
  max0 <= fst img_size - 2 ->
  max1 <= snd img_size - 2 ->
  int_of_product num_sample bbox_ratio = inr nb ->
  0 <= nb <= num_sample ->
  exists output index_outside,
    weighted_sampling rng data img_size num_sample bbox_ratio c
    = (inr (output, index_outside), (c + 2 * Z.to_nat num_sample)%nat).
Proof.
  intros Hrng HH HW Hdata Hm Hmin Hmax Hd0 Hd1 Hn Hnb.
  destruct (bbox_in_grid _ _ _ _ _ Hmin Hmax) as (Hb0 & _ & Hb1 & _).
  destruct (sample_indices_returns rng (min0, min1) (max0, max1) img_size
              num_sample bbox_ratio c nb Hn Hnb) as (sb & su & Hs).
  pose proof (samples_corners rng Hrng _ _ _ _ _ _ _ _ _ Hs HH HW Hb0 Hd0 Hb1 Hd1)
    as Hcorners.
  destruct (traverse_all_inr
              (fun '(key, val) =>
                 match resample (sb ++ su) val with
                 | inl e => inl e
                 | inr new_val => inr (key, new_val)
                 end) data) as [output Hout].
  { intros [key val] Hin; rewrite Forall_forall in Hdata.
    destruct (Hdata _ Hin) as [Hsh Hch]; cbn [snd] in Hsh, Hch.
    destruct (resample_returns (sb ++ su) val) as [nv ->]; eauto.
    now rewrite Hsh. }
  unfold weighted_sampling, bind, lift_err, ret; rewrite Hm, Hmin, Hmax, Hs, Hn.
  unfold resample_all; rewrite Hout; eauto.
Qed.

(** On a 3x3 image whose mask is the single pixel [(2, 2)], the box
    is the point [(2, 2)]: the biased samples sit on the last row and
    column, and the read of [floor + 1] is out of bounds. *)
Example weighted_sampling_border_mask :
  fst (weighted_sampling sixteenths_rng
         [("object_mask"%string,
           Arr2 (array2_of_rows [[0; 0; 0]; [0; 0; 0]; [0; 0; 1]]%Q))]
         (3, 3) 2 (1 # 2) 0%nat)
  = inl IndexError.
Proof. vm_compute; reflexivity. Qed.

End SamplerFacts.

(* ================================================================= *)
(** ** More on rotations, lifting and rays *)

Section GeometryMore.
Local Open Scope R_scope.

(** X1.  [lift] inverts the pinhole projection: with nonzero focal lengths,
    the intrinsics applied to the lifted point give back the pixel in
    homogeneous form, [(x z, y z, z)], for any depth [z]. *)
Theorem lift_inverts_pinhole (x y z : R) (K : mat4) :
  pinhole K -> K_fx K <> 0 -> K_fy K <> 0 ->
  exists x_lift y_lift,
    lift x y z K = (x_lift, y_lift, z, 1) /\
    mul_mat3_vec (mat4_rot K) (x_lift, y_lift, z) = (x * z, y * z, z).
Proof.
  intros HK Hfx Hfy; unfold lift; cbv zeta.
  do 2 eexists; split; [reflexivity|].
  rewrite HK; unfold mul_mat3_vec, row3, dot3.
  tuple_eq; field; auto.
Qed.

Lemma lift_inverts_pinhole_witness :
  exists x_lift y_lift,
    lift 3 4 2 ((2, 1, 5, 0), (0, 4, 6, 0), (0, 0, 1, 0), (0, 0, 0, 1))
    = (x_lift, y_lift, 2, 1) /\
    mul_mat3_vec (mat4_rot ((2, 1, 5, 0), (0, 4, 6, 0), (0, 0, 1, 0), (0, 0, 0, 1)))
      (x_lift, y_lift, 2)
    = (3 * 2, 4 * 2, 2).
Proof.
  apply (lift_inverts_pinhole 3 4 2
           ((2, 1, 5, 0), (0, 4, 6, 0), (0, 0, 1, 0), (0, 0, 0, 1))).
  - reflexivity.
  - simpl; lra.
  - simpl; lra.
Defined.

(** X2.  The matrix of a quaternion above the clamp is a proper rotation:
    orthogonal on both sides, with determinant 1. *)
Theorem quat_to_rot_proper_rotation (q : vec4) :
  normalize_eps <= norm4 q ->
  matmul3 (transpose3 (quat_to_rot q)) (quat_to_rot q) = eye3 /\
  matmul3 (quat_to_rot q) (transpose3 (quat_to_rot q)) = eye3 /\
  det3 (quat_to_rot q) = 1.
Proof.
  intros H; unfold quat_to_rot.
  destruct (normalize4 q) as [[[a b] c] d] eqn:E.
  pose proof (normalize4_sum_sq _ _ _ _ _ H E) as Hu.
  assert (Hu' : a * a + b * b + c * c + d * d = 1) by lra.
  clear H E Hu.
  unfold transpose3, matmul3, eye3, dot3, det3; simpl.
  repeat split; tuple_eq; nsatz.
Qed.

Lemma quat_to_rot_proper_rotation_witness :
  matmul3 (transpose3 (quat_to_rot (3, 4, 0, 0))) (quat_to_rot (3, 4, 0, 0)) = eye3 /\
  matmul3 (quat_to_rot (3, 4, 0, 0)) (transpose3 (quat_to_rot (3, 4, 0, 0))) = eye3 /\
  det3 (quat_to_rot (3, 4, 0, 0)) = 1.
Proof.
  apply (quat_to_rot_proper_rotation (3, 4, 0, 0)).
  unfold norm4.
  replace (3 ^ 2 + 4 ^ 2 + 0 ^ 2 + 0 ^ 2) with (Rsqr 5) by (unfold Rsqr; ring).
  rewrite sqrt_Rsqr by lra.
  pose proof normalize_eps_le_1; lra.
Defined.

Lemma norm4_scale k q : norm4 (scale4 k q) = Rabs k * norm4 q.
Proof.
  destruct q as [[[a b] c] d]; unfold norm4, scale4.
  replace ((k * a) ^ 2 + (k * b) ^ 2 + (k * c) ^ 2 + (k * d) ^ 2)
    with (Rsqr k * (a ^ 2 + b ^ 2 + c ^ 2 + d ^ 2)) by (unfold Rsqr; ring).
  rewrite sqrt_mult_alt by apply Rle_0_sqr.
  now rewrite sqrt_Rsqr_abs.
Qed.

(** X3.  Only the direction of a quaternion matters: a quaternion and any
    nonzero multiple of it, both above the clamp, give the same
    matrix. *)
Theorem quat_to_rot_scale_invariant (k : R) (q : vec4) :
  k <> 0 ->
  normalize_eps <= norm4 q ->
  normalize_eps <= norm4 (scale4 k q) ->
  quat_to_rot (scale4 k q) = quat_to_rot q.
Proof.
  intros Hk Hq Hkq; unfold quat_to_rot, normalize4.
  rewrite !clamp_min_above by assumption.
  rewrite norm4_scale.
  pose proof normalize_eps_pos as He.
  assert (Hn : norm4 q <> 0) by lra.
  assert (Ha : Rabs k <> 0) by now apply Rabs_no_R0.
  assert (Hkk : k * k = Rabs k * Rabs k).
  { destruct (Rcase_abs k) as [Hneg | Hpos];
      [rewrite Rabs_left by lra | rewrite Rabs_right by lra]; ring. }
  destruct q as [[[a b] c] d]; unfold scale4.
  set (n := norm4 (a, b, c, d)) in *.
  assert (sq : forall u v, k * u / (Rabs k * n) * (k * v / (Rabs k * n))
                           = u / n * (v / n)).
  { intros u v.
    replace (k * u / (Rabs k * n) * (k * v / (Rabs k * n)))
      with (k * k * (u * v) / (Rabs k * Rabs k * (n * n))) by (field; auto).
    rewrite Hkk; field; auto. }
  simpl; rewrite !Rmult_1_r, !sq; reflexivity.
Qed.

Lemma quat_to_rot_scale_invariant_witness :
  quat_to_rot (scale4 (-2) (3 / 5, 4 / 5, 0, 0)) = quat_to_rot (3 / 5, 4 / 5, 0, 0).
Proof.
  assert (H1 : norm4 (3 / 5, 4 / 5, 0, 0) = 1).
  { unfold norm4.
    replace ((3 / 5) ^ 2 + (4 / 5) ^ 2 + 0 ^ 2 + 0 ^ 2) with 1 by field.
    apply sqrt_1. }
  pose proof normalize_eps_le_1.
  apply (quat_to_rot_scale_invariant (-2) (3 / 5, 4 / 5, 0, 0)).
  - lra.
  - rewrite H1; lra.
  - rewrite norm4_scale, H1, Rabs_left by lra; lra.
Defined.

End GeometryMore.

Section RotationInverse.
Local Open Scope R_scope.

(** The zero quaternion does not divide by zero: [F.normalize] divides
    by its clamp, the normalised quaternion is zero again, and the
    matrix is the identity. *)
Theorem quat_to_rot_zero : quat_to_rot (0, 0, 0, 0) = eye3.
Proof.
  unfold quat_to_rot, normalize4, norm4.
  replace (0 ^ 2 + 0 ^ 2 + 0 ^ 2 + 0 ^ 2) with 0 by ring.
  rewrite sqrt_0; unfold clamp_min.
  pose proof normalize_eps_pos as He.
  rewrite Rmax_right by lra.
  unfold eye3; tuple_eq; field; lra.
Qed.

(** The polynomial identities of a rotation matrix that the trace
    method rests on, with [s] the square root of [1 + trace] and
    [x1, x2, x3] the vector part times [2 s]. *)
Lemma trace_method_identities (a b c d e f g h i s x1 x2 x3 : R) :
  a * a + d * d + g * g = 1 -> b * b + e * e + h * h = 1 ->
  c * c + f * f + i * i = 1 ->
  a * b + d * e + g * h = 0 -> a * c + d * f + g * i = 0 ->
  b * c + e * f + h * i = 0 ->
  a * (e * i - f * h) - b * (d * i - f * g) + c * (d * h - e * g) = 1 ->
  s * s = 1 + a + e + i -> s <> 0 ->
  2 * s * x1 = h - f -> 2 * s * x2 = c - g -> 2 * s * x3 = d - b ->
  (s / 2) * (s / 2) + x1 * x1 + x2 * x2 + x3 * x3 = 1 /\
  1 - 2 * (x2 * x2 + x3 * x3) = a /\
  2 * (x2 * x1 - x3 * (s / 2)) = b /\
  2 * (x1 * x3 + (s / 2) * x2) = c /\
  2 * (x2 * x1 + x3 * (s / 2)) = d /\
  1 - 2 * (x1 * x1 + x3 * x3) = e /\
  2 * (x2 * x3 - x1 * (s / 2)) = f /\
  2 * (x3 * x1 - x2 * (s / 2)) = g /\
  2 * (x2 * x3 + x1 * (s / 2)) = h /\
  1 - 2 * (x1 * x1 + x2 * x2) = i.
Proof.
  intros H00 H11 H22 H01 H02 H12 Hdet Hs Hs0 Hx1 Hx2 Hx3.
  assert (C00 : e * i - f * h = a) by (clear Hs Hx1 Hx2 Hx3; nsatz).
  assert (C01 : f * g - d * i = b) by (clear Hs Hx1 Hx2 Hx3; nsatz).
  assert (C02 : d * h - e * g = c) by (clear Hs Hx1 Hx2 Hx3; nsatz).
  assert (C10 : c * h - b * i = d) by (clear Hs Hx1 Hx2 Hx3; nsatz).
  assert (C11 : a * i - c * g = e) by (clear Hs Hx1 Hx2 Hx3; nsatz).
  assert (C12 : b * g - a * h = f) by (clear Hs Hx1 Hx2 Hx3; nsatz).
  assert (C20 : b * f - c * e = g) by (clear Hs Hx1 Hx2 Hx3; nsatz).
  assert (C21 : c * d - a * f = h) by (clear Hs Hx1 Hx2 Hx3; nsatz).
  assert (C22 : a * e - b * d = i) by (clear Hs Hx1 Hx2 Hx3; nsatz).
  assert (In : (1 + a + e + i) * (1 + a + e + i) + (h - f) * (h - f)
               + (c - g) * (c - g) + (d - b) * (d - b) = 4 * (1 + a + e + i))
    by (clear Hs Hx1 Hx2 Hx3; nsatz).
  assert (I00 : 2 * (1 + a + e + i) * (1 - a) = (c - g) * (c - g) + (d - b) * (d - b))
    by (clear Hs Hx1 Hx2 Hx3; nsatz).
  assert (I11 : 2 * (1 + a + e + i) * (1 - e) = (h - f) * (h - f) + (d - b) * (d - b))
    by (clear Hs Hx1 Hx2 Hx3; nsatz).
  assert (I22 : 2 * (1 + a + e + i) * (1 - i) = (h - f) * (h - f) + (c - g) * (c - g))
    by (clear Hs Hx1 Hx2 Hx3; nsatz).
  assert (I01 : (b + d) * (1 + a + e + i) = (c - g) * (h - f))
    by (clear Hs Hx1 Hx2 Hx3; nsatz).
  assert (I02 : (c + g) * (1 + a + e + i) = (h - f) * (d - b))
    by (clear Hs Hx1 Hx2 Hx3; nsatz).
  assert (I12 : (f + h) * (1 + a + e + i) = (c - g) * (d - b))
    by (clear Hs Hx1 Hx2 Hx3; nsatz).
  assert (H4 : 4 * (s * s) <> 0)
    by (intros E; assert (s * s = 0) by lra; apply Rmult_integral in H; tauto).
  assert (stepv : forall L P v, 4 * (s * s) * L = P -> P = 4 * (s * s) * v -> L = v).
  { intros L P v HL HP; apply (Rmult_eq_reg_l (4 * (s * s))); [lra | assumption]. }
  split.
  { apply (stepv _ (s * s * (s * s) + 2 * s * x1 * (2 * s * x1)
                    + 2 * s * x2 * (2 * s * x2) + 2 * s * x3 * (2 * s * x3)));
      [field | rewrite Hx1, Hx2, Hx3, Hs; lra]. }
  split.
  { apply (stepv _ (4 * (s * s) - 2 * (2 * s * x2 * (2 * s * x2)
                                       + 2 * s * x3 * (2 * s * x3))));
      [field | rewrite Hx2, Hx3, Hs; lra]. }
  split.
  { apply (stepv _ (2 * (2 * s * x2 * (2 * s * x1)) - 2 * (s * s) * (2 * s * x3)));
      [field | rewrite Hx1, Hx2, Hx3, Hs; lra]. }
  split.
  { apply (stepv _ (2 * (2 * s * x1 * (2 * s * x3)) + 2 * (s * s) * (2 * s * x2)));
      [field | rewrite Hx1, Hx2, Hx3, Hs; lra]. }
  split.
  { apply (stepv _ (2 * (2 * s * x2 * (2 * s * x1)) + 2 * (s * s) * (2 * s * x3)));
      [field | rewrite Hx1, Hx2, Hx3, Hs; lra]. }
  split.
  { apply (stepv _ (4 * (s * s) - 2 * (2 * s * x1 * (2 * s * x1)
                                       + 2 * s * x3 * (2 * s * x3))));
      [field | rewrite Hx1, Hx3, Hs; lra]. }
  split.
  { apply (stepv _ (2 * (2 * s * x2 * (2 * s * x3)) - 2 * (s * s) * (2 * s * x1)));
      [field | rewrite Hx1, Hx2, Hx3, Hs; lra]. }
  split.
  { apply (stepv _ (2 * (2 * s * x3 * (2 * s * x1)) - 2 * (s * s) * (2 * s * x2)));
      [field | rewrite Hx1, Hx2, Hx3, Hs; lra]. }
  split.
  { apply (stepv _ (2 * (2 * s * x2 * (2 * s * x3)) + 2 * (s * s) * (2 * s * x1)));
      [field | rewrite Hx1, Hx2, Hx3, Hs; lra]. }
  apply (stepv _ (4 * (s * s) - 2 * (2 * s * x1 * (2 * s * x1)
                                     + 2 * s * x2 * (2 * s * x2))));
    [field | rewrite Hx1, Hx2, Hs; lra].
Qed.

(** X4.  For every proper rotation matrix whose trace exceeds -1, the
    quaternion [rot_to_quat] returns has unit norm and
    [quat_to_rot] maps it back to the matrix. *)
Theorem quat_to_rot_rot_to_quat (m : mat3) :
  matmul3 (transpose3 m) m = eye3 ->
  det3 m = 1 ->
  -1 < trace3 m ->
  norm4 (rot_to_quat m) = 1 /\ quat_to_rot (rot_to_quat m) = m.
Proof.
  destruct m as [[[[a b] c] [[d e] f]] [[g h] i]].
  unfold transpose3, matmul3, eye3, dot3, det3, trace3, entry3; simpl.
  intros [= H00 H01 H02 H10 H11 H12 H20 H21 H22] Hdet Htr.
  set (s := sqrt (1 + a + e + i)).
  assert (Hs : s * s = 1 + a + e + i) by (apply sqrt_sqrt; lra).
  assert (Hs0 : 0 < s) by (apply sqrt_lt_R0; lra).
  destruct (trace_method_identities a b c d e f g h i s
              ((h - f) / (4 * (s / 2))) ((c - g) / (4 * (s / 2)))
              ((d - b) / (4 * (s / 2))))
    as (Hn & E00 & E01 & E02 & E10 & E11 & E12 & E20 & E21 & E22);
    try assumption; try lra; try (field; lra).
  assert (Hnorm : norm4 (s / 2, (h - f) / (4 * (s / 2)), (c - g) / (4 * (s / 2)),
                         (d - b) / (4 * (s / 2))) = 1).
  { unfold norm4; rewrite <- sqrt_1; f_equal; simpl; lra. }
  split; [exact Hnorm|].
  rewrite quat_to_rot_unit by exact Hnorm.
  tuple_eq; simpl; lra.
Qed.

Lemma quat_to_rot_rot_to_quat_witness :
  norm4 (rot_to_quat ((0, -1, 0), (1, 0, 0), (0, 0, 1))) = 1 /\
  quat_to_rot (rot_to_quat ((0, -1, 0), (1, 0, 0), (0, 0, 1)))
  = ((0, -1, 0), (1, 0, 0), (0, 0, 1)).
Proof.
  apply (quat_to_rot_rot_to_quat ((0, -1, 0), (1, 0, 0), (0, 0, 1))).
  - unfold transpose3, matmul3, eye3, dot3; simpl; tuple_eq; ring.
  - unfold det3; ring.
  - unfold trace3, entry3; simpl; lra.
Defined.

End RotationInverse.

Section RaysMore.
Local Open Scope R_scope.

Lemma ray_dir_same_rotation p p' K uv :
  mat4_rot p = mat4_rot p' ->
  ray_dir p (mat4_loc p) K uv = ray_dir p' (mat4_loc p') K uv.
Proof.
  intros H; unfold ray_dir, raw_dir, lift; cbv zeta.
  now rewrite !apply_pose_sub, H.
Qed.

Lemma zip_with3_same_rotation (mats mats' : list mat4) (n : list (mat4 * list (R * R))) :
  map mat4_rot mats = map mat4_rot mats' ->
  zip_with3 (fun p_b c_b '(K_b, uv_b) => map (ray_dir p_b c_b K_b) uv_b)
    mats (map mat4_loc mats) n
  = zip_with3 (fun p_b c_b '(K_b, uv_b) => map (ray_dir p_b c_b K_b) uv_b)
      mats' (map mat4_loc mats') n.
Proof.
  revert mats' n; induction mats as [|p mats IH]; intros [|p' mats'] n H;
    try discriminate; auto.
  injection H as Hp Hrest.
  destruct n as [|[K uv_b] n]; cbn [map zip_with3]; auto.
  f_equal; [|now apply IH].
  apply map_ext; intros px; now apply ray_dir_same_rotation.
Qed.

(** X5.  The directions do not depend on where the camera is: two batches
    of pose matrices with the same rotation blocks give the same
    directions (or the same error), whatever their translations. *)
Theorem get_camera_params_translation_free
    (uv : list (list (R * R))) (mats mats' : list mat4) (intrinsics : list mat4) :
  map mat4_rot mats = map mat4_rot mats' ->
  ray_directions_of (get_camera_params uv (PoseMat mats) intrinsics)
  = ray_directions_of (get_camera_params uv (PoseMat mats') intrinsics).
Proof.
  intros H; unfold get_camera_params.
  assert (Hlen : List.length mats = List.length mats')
    by (rewrite <- (length_map mat4_rot mats), H; apply length_map).
  rewrite <- Hlen.
  destruct (broadcast_batch intrinsics (List.length uv)) as [Ks|]; [|reflexivity].
  destruct (List.length mats =? List.length uv)%nat; [|reflexivity].
  cbn [ray_directions_of]; f_equal.
  now apply zip_with3_same_rotation.
Qed.

Lemma get_camera_params_translation_free_witness :
  ray_directions_of
    (get_camera_params [[(1, 2)]]
       (PoseMat [((1, 0, 0, 5), (0, 1, 0, 6), (0, 0, 1, 7), (0, 0, 0, 1))]) [eye4])
  = ray_directions_of
      (get_camera_params [[(1, 2)]]
         (PoseMat [((1, 0, 0, -3), (0, 1, 0, 0), (0, 0, 1, 9), (0, 0, 0, 1))]) [eye4]).
Proof.
  apply (get_camera_params_translation_free [[(1, 2)]]
           [((1, 0, 0, 5), (0, 1, 0, 6), (0, 0, 1, 7), (0, 0, 0, 1))]
           [((1, 0, 0, -3), (0, 1, 0, 0), (0, 0, 1, 9), (0, 0, 0, 1))] [eye4]).
  reflexivity.
Defined.

(** A vector of unit length passes through [F.normalize] unchanged. *)
Lemma normalize3_of_unit v : norm3 v = 1 -> normalize3 v = v.
Proof.
  destruct v as [[x y] z]; intros H; unfold normalize3.
  rewrite H, clamp_min_above by apply normalize_eps_le_1.
  tuple_eq; field.
Qed.

(** X6.  The pixel at the principal point looks along the camera's third
    axis: under a rigid pose and nonzero focal lengths its direction
    is the third column of the rotation block. *)
Theorem get_camera_params_principal_ray (p K : mat4) :
  rigid p -> K_fx K <> 0 -> K_fy K <> 0 ->
  get_camera_params [[(K_cx K, K_cy K)]] (PoseMat [p]) [K]
  = inr ([[col3 (mat4_rot p) 2]], [mat4_loc p]).
Proof.
  intros Hp Hfx Hfy.
  unfold get_camera_params, broadcast_batch; cbn [List.length Nat.eqb map combine zip_with3].
  assert (E : ray_dir p (mat4_loc p) K (K_cx K, K_cy K) = col3 (mat4_rot p) 2);
    [|now rewrite E].
  assert (Hlift : lift (K_cx K) (K_cy K) 1 K = (0, 0, 1, 1))
    by (unfold lift; cbv zeta; tuple_eq; field; auto).
  unfold ray_dir, raw_dir; cbv zeta; cbn [fst snd].
  rewrite Hlift, apply_pose_sub.
  assert (Hn : norm3 (mul_mat3_vec (mat4_rot p) (0, 0, 1)) = 1).
  { rewrite rigid_preserves_norm by assumption.
    unfold norm3; replace (0 ^ 2 + 0 ^ 2 + 1 ^ 2) with 1 by ring; apply sqrt_1. }
  rewrite normalize3_of_unit by exact Hn.
  destruct p as [[[[[[a0 a1] a2] a3] [[[b0 b1] b2] b3]] [[[c0 c1] c2] c3]] last].
  unfold mul_mat3_vec, mat4_rot, row3, col3, dot3; tuple_eq; ring.
Qed.

Lemma get_camera_params_principal_ray_witness :
  get_camera_params
    [[(K_cx ((2, 0, 5, 0), (0, 2, 6, 0), (0, 0, 1, 0), (0, 0, 0, 1)),
       K_cy ((2, 0, 5, 0), (0, 2, 6, 0), (0, 0, 1, 0), (0, 0, 0, 1)))]]
    (PoseMat [((0, -1, 0, 1), (1, 0, 0, 2), (0, 0, 1, 3), (0, 0, 0, 1))])
    [((2, 0, 5, 0), (0, 2, 6, 0), (0, 0, 1, 0), (0, 0, 0, 1))]
  = inr ([[col3 (mat4_rot ((0, -1, 0, 1), (1, 0, 0, 2), (0, 0, 1, 3), (0, 0, 0, 1))) 2]],
         [mat4_loc ((0, -1, 0, 1), (1, 0, 0, 2), (0, 0, 1, 3), (0, 0, 0, 1))]).
Proof.
  apply (get_camera_params_principal_ray
           ((0, -1, 0, 1), (1, 0, 0, 2), (0, 0, 1, 3), (0, 0, 0, 1))
           ((2, 0, 5, 0), (0, 2, 6, 0), (0, 0, 1, 0), (0, 0, 0, 1))).
  - unfold rigid, mat4_rot, transpose3, matmul3, eye3, dot3; simpl; tuple_eq; ring.
  - simpl; lra.
  - simpl; lra.
Defined.

End RaysMore.

Section SphereMore.
Local Open Scope R_scope.

(** In exact arithmetic a call that returns has tested a positive
    discriminant for every ray, and its rows are the clamped roots. *)
Lemma get_sphere_intersections_exact_inr
    (cam_loc ray_directions : list vec3) (r : R) log out i o d :
  List.length cam_loc = List.length ray_directions ->
  get_sphere_intersections (A := exact_arith) cam_loc ray_directions r
  = (log, inr out) ->
  nth_error cam_loc i = Some o -> nth_error ray_directions i = Some d ->
  0 < disc r o d /\
  nth_error out i
  = Some (Rmax 0 (- dot3 d o - sqrt (disc r o d)),
          Rmax 0 (- dot3 d o + sqrt (disc r o d))).
Proof.
  intros Hlen Hcall Ho Hd.
  destruct (get_sphere_intersections_inr _ _ _ _ _ Hlen Hcall) as (_ & -> & Hpos).
  split.
  - specialize (Hpos i o d Ho Hd).
    rewrite under_sqrt_of_ray_disc in Hpos; now apply Rle_bool_false in Hpos.
  - rewrite (rows_of_nth (A := exact_arith) r _ _ _ _ _ Ho Hd).
    now rewrite intersections_row_exact, under_sqrt_of_ray_disc.
Qed.

(** A point of the ray at a root of the quadratic lies on the sphere,
    when the direction has unit length. *)
Lemma root_on_sphere r o d t :
  sq_norm3 d = 1 ->
  (t + dot3 d o) ^ 2 = disc r o d ->
  sq_norm3 (point_at o d t) = r ^ 2.
Proof.
  destruct o as [[o0 o1] o2], d as [[d0 d1] d2].
  unfold sq_norm3, point_at, disc, dot3; intros Hd Ht.
  replace ((o0 + t * d0) * (o0 + t * d0) + (o1 + t * d1) * (o1 + t * d1)
           + (o2 + t * d2) * (o2 + t * d2))
    with ((o0 * o0 + o1 * o1 + o2 * o2)
          + 2 * t * (d0 * o0 + d1 * o1 + d2 * o2)
          + t ^ 2 * (d0 * d0 + d1 * d1 + d2 * d2)) by ring.
  rewrite Hd; nra.
Qed.

(** X7.  In exact arithmetic, for a call that returns: where a returned
    distance is positive (not clamped), the point of the ray at that
    distance lies on the sphere of radius [r], provided the direction
    has unit length. *)
Theorem get_sphere_intersections_on_sphere
    (cam_loc ray_directions : list vec3) (r : R) log out :
  List.length cam_loc = List.length ray_directions ->
  get_sphere_intersections (A := exact_arith) cam_loc ray_directions r
  = (log, inr out) ->
  forall i o d t_near t_far,
    nth_error cam_loc i = Some o -> nth_error ray_directions i = Some d ->
    nth_error out i = Some (t_near, t_far) ->
    sq_norm3 d = 1 ->
    (0 < t_near -> sq_norm3 (point_at o d t_near) = r ^ 2) /\
    (0 < t_far -> sq_norm3 (point_at o d t_far) = r ^ 2).
Proof.
  intros Hlen Hcall i o d t_near t_far Ho Hd Hrow Hunit.
  destruct (get_sphere_intersections_exact_inr _ _ _ _ _ _ _ _ Hlen Hcall Ho Hd)
    as [Hdisc Hi].
  rewrite Hi in Hrow; injection Hrow as <- <-.
  pose proof (sqrt_sqrt (disc r o d) (Rlt_le _ _ Hdisc)) as Hs.
  assert (unclamp : forall x, 0 < Rmax 0 x -> Rmax 0 x = x).
  { intros x Hx; unfold Rmax in *; destruct (Rle_dec 0 x); lra. }
  split; intros Hpos; rewrite (unclamp _ Hpos);
    (apply root_on_sphere; [assumption | nra]).
Qed.

Lemma get_sphere_intersections_on_sphere_witness :
  get_sphere_intersections (A := exact_arith) [(0, 0, 2)] [(0, 0, -1)] 1
  = ([], inr [(1, 3)]) /\
  (0 < 1 -> sq_norm3 (point_at (0, 0, 2) (0, 0, -1) 1) = 1 ^ 2) /\
  (0 < 3 -> sq_norm3 (point_at (0, 0, 2) (0, 0, -1) 3) = 1 ^ 2).
Proof.
  split; [exact sphere_camera_at_two|].
  apply (get_sphere_intersections_on_sphere [(0, 0, 2)] [(0, 0, -1)] 1
           [] [(1, 3)] eq_refl sphere_camera_at_two 0%nat (0, 0, 2) (0, 0, -1) 1 3
           eq_refl eq_refl eq_refl).
  unfold sq_norm3, dot3; lra.
Defined.

(** X8.  In exact arithmetic, for a call that returns: the row of a
    ray whose origin is strictly inside the sphere has its near
    distance clamped to 0 and a positive far distance. *)
Theorem get_sphere_intersections_inside
    (cam_loc ray_directions : list vec3) (r : R) log out :
  List.length cam_loc = List.length ray_directions ->
  get_sphere_intersections (A := exact_arith) cam_loc ray_directions r
  = (log, inr out) ->
  forall i o d t_near t_far,
    nth_error cam_loc i = Some o -> nth_error ray_directions i = Some d ->
    nth_error out i = Some (t_near, t_far) ->
    sq_norm3 o < r ^ 2 ->
    t_near = 0 /\ 0 < t_far.
Proof.
  intros Hlen Hcall i o d t_near t_far Ho Hd Hrow Hin.
  destruct (get_sphere_intersections_exact_inr _ _ _ _ _ _ _ _ Hlen Hcall Ho Hd)
    as [_ Hi].
  rewrite Hi in Hrow; injection Hrow as <- <-.
  assert (Hb : Rsqr (dot3 d o) < disc r o d)
    by (unfold disc, sq_norm3, Rsqr in *; nra).
  assert (Hdisc : 0 <= disc r o d) by (pose proof (Rle_0_sqr (dot3 d o)); lra).
  assert (Hs : Rabs (dot3 d o) < sqrt (disc r o d)).
  { rewrite <- sqrt_Rsqr_abs; apply sqrt_lt_1; [apply Rle_0_sqr | assumption | assumption]. }
  assert (Habs := Rabs_def2 _ _ Hs).
  split.
  - apply Rmax_left; lra.
  - rewrite Rmax_right by lra; lra.
Qed.

(** The camera at the centre of the unit sphere: the ray leaves at 1. *)
Example sphere_camera_at_centre :
  get_sphere_intersections (A := exact_arith) [(0, 0, 0)] [(0, 0, 1)] 1
  = ([], inr [(0, 1)]).
Proof.
  assert (D : disc 1 (0, 0, 0) (0, 0, 1) = 1) by (unfold disc, dot3; lra).
  rewrite get_sphere_intersections_rows by
    (try reflexivity;
     intros [|[|i]] o d; cbn [nth_error]; intros [= <-] [= <-];
     rewrite under_sqrt_of_ray_disc, D; apply Rle_bool_false;
     cbn [f_of_Z exact_arith]; lra).
  cbn [map combine fst snd]; rewrite intersections_row_exact, under_sqrt_of_ray_disc, D, sqrt_1.
  cbn [f_bmm_1x3_3x1 exact_arith]; unfold dot3; repeat f_equal.
  - apply Rmax_left; lra.
  - replace (- (0 * 0 + 0 * 0 + 1 * 0) + 1) with 1 by lra.
    apply Rmax_right; lra.
Qed.

Lemma get_sphere_intersections_inside_witness :
  get_sphere_intersections (A := exact_arith) [(0, 0, 0)] [(0, 0, 1)] 1
  = ([], inr [(0, 1)]) /\
  sq_norm3 (0, 0, 0) < 1 ^ 2 /\
  0 = 0 /\ 0 < 1.
Proof.
  split; [exact sphere_camera_at_centre|].
  split; [unfold sq_norm3, dot3; lra|].
  apply (get_sphere_intersections_inside [(0, 0, 0)] [(0, 0, 1)] 1
           [] [(0, 1)] eq_refl sphere_camera_at_centre 0%nat (0, 0, 0) (0, 0, 1) 0 1
           eq_refl eq_refl eq_refl).
  unfold sq_norm3, dot3; lra.
Defined.

End SphereMore.

Section InterpolationMore.
Local Open Scope Z_scope.











End InterpolationMore.

Section SamplerMore.
Local Open Scope Z_scope.

Lemma outside_test bbox_min bbox_max row col :
  negb (Qle_bool (inject_Z (fst bbox_min)) row)
  || negb (Qle_bool row (inject_Z (fst bbox_max)))
  || negb (Qle_bool (inject_Z (snd bbox_min)) col)
  || negb (Qle_bool col (inject_Z (snd bbox_max))) = true
  <-> outside_bbox bbox_min bbox_max (row, col).
Proof.
  assert (T : forall a b, negb (Qle_bool a b) = true <-> (b < a)%Q).
  { intros a b; rewrite negb_true_iff; split; intros H.
    - apply Qnot_le_lt; intros Hle; apply Qle_bool_iff in Hle; congruence.
    - destruct (Qle_bool a b) eqn:E; auto.
      apply Qle_bool_iff in E; apply Qlt_not_le in H; contradiction. }
  unfold outside_bbox; cbn [fst snd].
  rewrite !orb_true_iff, !T; tauto.
Qed.

Lemma index_outside_from_spec samples bbox_min bbox_max i k :
  In k (index_outside_from i samples bbox_min bbox_max) <->
  exists n p, k = i + Z.of_nat n /\ nth_error samples n = Some p /\
              outside_bbox bbox_min bbox_max p.
Proof.
  revert i; induction samples as [|[row col] rest IH]; intros i; cbn [index_outside_from].
  - split; [contradiction | intros ([|n] & p & _ & H & _); discriminate].
  - pose proof (outside_test bbox_min bbox_max row col) as T.
    destruct (negb _ || _ || _ || _) eqn:E.
    + split.
      * intros [<- | Hin].
        -- exists 0%nat, (row, col); repeat split; [lia | now apply T].
        -- apply IH in Hin; destruct Hin as (n & p & -> & Hn & Hp).
           exists (S n), p; repeat split; auto; lia.
      * intros ([|n] & p & -> & Hn & Hp).
        -- left; lia.
        -- right; apply IH; exists n, p; repeat split; auto; lia.
    + split.
      * intros Hin; apply IH in Hin; destruct Hin as (n & p & -> & Hn & Hp).
        exists (S n), p; repeat split; auto; lia.
      * intros ([|n] & p & -> & Hn & Hp).
        -- injection Hn as <-; apply T in Hp; discriminate.
        -- apply IH; exists n, p; repeat split; auto; lia.
Qed.

Lemma index_outside_from_sorted samples bbox_min bbox_max i :
  StronglySorted Z.lt (index_outside_from i samples bbox_min bbox_max).
Proof.
  revert i; induction samples as [|[row col] rest IH]; intros i; cbn [index_outside_from].
  - constructor.
  - destruct (negb _ || _ || _ || _); [|apply IH].
    constructor; [apply IH|].
    apply Forall_forall; intros k Hk.
    apply index_outside_from_spec in Hk; destruct Hk as (n & _ & -> & _); lia.
Qed.

Lemma index_outside_members
    (samples_uniform : list (Q * Q)) (bbox_min bbox_max : Z * Z) k :
  In k (get_index_outside_of_bbox samples_uniform bbox_min bbox_max) <->
  exists p, 0 <= k /\ nth_error samples_uniform (Z.to_nat k) = Some p /\
            outside_bbox bbox_min bbox_max p.
Proof.
  unfold get_index_outside_of_bbox; rewrite index_outside_from_spec; split.
  - intros (n & p & -> & Hn & Hp); exists p; repeat split; auto; [lia|].
    now replace (Z.to_nat (0 + Z.of_nat n)) with n by lia.
  - intros (p & Hk & Hn & Hp); exists (Z.to_nat k), p; repeat split; auto; lia.
Qed.

(** X13.  [get_index_outside_of_bbox] returns exactly the positions of the
    rows that leave the box on some axis, each once, in increasing
    order; a row on the boundary of the box is inside. *)
Theorem get_index_outside_of_bbox_spec
    (samples_uniform : list (Q * Q)) (bbox_min bbox_max : Z * Z) :
  (forall k,
      In k (get_index_outside_of_bbox samples_uniform bbox_min bbox_max) <->
      exists p, 0 <= k /\ nth_error samples_uniform (Z.to_nat k) = Some p /\
                outside_bbox bbox_min bbox_max p) /\
  StronglySorted Z.lt
    (get_index_outside_of_bbox samples_uniform bbox_min bbox_max).
Proof.
  split; [intros k; apply index_outside_members|].
  unfold get_index_outside_of_bbox; apply index_outside_from_sorted.
Qed.

Lemma dict_get_missing {V} (data : list (string * V)) key :
  (forall v, ~ In (key, v) data) -> dict_get data key = inl (KeyError key).
Proof.
  induction data as [|[k v] data IH]; intros H; cbn [dict_get]; auto.
  destruct (String.eqb_spec k key) as [-> | _].
  - exfalso; apply (H v); now left.
  - apply IH; intros v' Hin; apply (H v'); now right.
Qed.

(** X14.  Without an ["object_mask"] entry the call ends in [KeyError]
    before anything is drawn. *)
Theorem weighted_sampling_missing_mask
    (rng : nat -> Q) (data : list (string * ndarray)) (img_size : Z * Z)
    (num_sample : Z) (bbox_ratio : Q) (c : nat) :
  (forall v, ~ In ("object_mask"%string, v) data) ->
  weighted_sampling rng data img_size num_sample bbox_ratio c
  = (inl (KeyError "object_mask"), c).
Proof.
  intros H; unfold weighted_sampling, bind, lift_err.
  now rewrite (dict_get_missing _ _ H).
Qed.

Lemma weighted_sampling_missing_mask_witness :
  weighted_sampling sixteenths_rng [("depth"%string, Arr2 example_depth)] (3, 3) 5 (3 # 4) 2%nat
  = (inl (KeyError "object_mask"), 2%nat).
Proof.
  apply (weighted_sampling_missing_mask sixteenths_rng
           [("depth"%string, Arr2 example_depth)] (3, 3) 5 (3 # 4) 2%nat).
  intros v [H | []]; discriminate.
Defined.

(** X15.  A ratio that puts fewer than zero or more than [num_sample]
    samples in the box is rejected by [np.random.rand]: with a mask
    that has a box, when the count [int(num_sample * bbox_ratio)] is
    negative or exceeds [num_sample], the call ends in the error for a
    negative array size. *)
Theorem weighted_sampling_count_out_of_range
    (rng : nat -> Q) (data : list (string * ndarray)) (img_size : Z * Z)
    (num_sample : Z) (bbox_ratio : Q) (c : nat)
    (mask : ndarray) (min0 min1 max0 max1 nb : Z) :
  dict_get data "object_mask" = inr mask ->
  traverse np_min (np_where mask) = inr [min0; min1] ->
  traverse np_max (np_where mask) = inr [max0; max1] ->
  int_of_product num_sample bbox_ratio = inr nb ->
  nb < 0 \/ num_sample < nb ->
  exists c',
    weighted_sampling rng data img_size num_sample bbox_ratio c
    = (inl (ValueError "negative dimensions are not allowed"), c').
Proof.
  intros Hm Hmin Hmax Hn Hbad.
  unfold weighted_sampling, bind, lift_err, ret; rewrite Hm, Hmin, Hmax.
  unfold sample_indices, bind, ret, lift_err; cbv zeta; rewrite Hn.
  unfold rand2 at 1.
  destruct (Z.ltb_spec nb 0) as [Hneg | Hpos]; [eauto|].
  unfold rand2.
  destruct (Z.ltb_spec (num_sample - nb) 0); [eauto | lia].
Qed.

Lemma weighted_sampling_count_out_of_range_witness :
  exists c',
    weighted_sampling sixteenths_rng example_data (3, 3) 4 (3 # 2) 0%nat
    = (inl (ValueError "negative dimensions are not allowed"), c').
Proof.
  apply (weighted_sampling_count_out_of_range sixteenths_rng example_data (3, 3) 4 (3 # 2)
           0%nat (Arr2 example_mask) 1 1 1 2 6 eq_refl eq_refl eq_refl).
  - vm_compute; reflexivity.
  - right; lia.
Defined.



(** X17.  A call that returns has read exactly [2 * num_sample] numbers
    from the random source, two per sample. *)
Theorem weighted_sampling_draws
    (rng : nat -> Q) (data : list (string * ndarray)) (img_size : Z * Z)
    (num_sample : Z) (bbox_ratio : Q) (c : nat)
    (output : list (string * sampled)) (index_outside : list Z) (c' : nat) :
  weighted_sampling rng data img_size num_sample bbox_ratio c
  = (inr (output, index_outside), c') ->
  0 <= num_sample /\ c' = (c + 2 * Z.to_nat num_sample)%nat.
Proof.
  intros H.
  destruct (weighted_sampling_inr _ _ _ _ _ _ _ _ _ H)
    as (mask & min0 & min1 & max0 & max1 & sb & su & nb
        & _ & _ & _ & Hs & _ & _ & _).
  pose proof (sample_indices_inr _ _ _ _ _ _ _ _ _ _ Hs) as (nb' & _ & Hnb & _ & _ & Hc).
  split; [lia | exact Hc].
Qed.

Lemma weighted_sampling_draws_witness :
  exists output index_outside c',
    weighted_sampling sixteenths_rng example_data (3, 3) 5 (3 # 4) 4%nat
    = (inr (output, index_outside), c') /\
    0 <= 5 /\ c' = (4 + 2 * Z.to_nat 5)%nat.
Proof.
  assert (H : exists output index_outside c',
             weighted_sampling sixteenths_rng example_data (3, 3) 5 (3 # 4) 4%nat
             = (inr (output, index_outside), c'))
    by (vm_compute; do 3 eexists; reflexivity).
  destruct H as (output & index_outside & c' & H).
  exists output, index_outside, c'; split; [exact H|].
  exact (weighted_sampling_draws sixteenths_rng example_data (3, 3) 5 (3 # 4)
           4%nat output index_outside c' H).
Defined.

End SamplerMore.

(* ================================================================= *)
(** ** Splitting the pixels and merging the outputs *)

Section SplitFacts.
Local Open Scope nat_scope.

Lemma concat_full_chunks (N m : nat) :
  List.concat (map (fun i => seq (i * N) N) (seq 0 m)) = seq 0 (m * N).
Proof.
  induction m as [|m IH]; [reflexivity|].
  rewrite seq_S, map_app, concat_app, IH; cbn [map List.concat].
  rewrite app_nil_r, <- seq_app; f_equal; lia.
Qed.

(** The chunks of [torch.split] tile [0 .. total - 1] in order. *)
Lemma torch_split_arange_tiles (total_pixels n_pixels : Z) :
  (0 <= total_pixels)%Z -> (0 < n_pixels)%Z ->
  exists chunks,
    torch_split_arange total_pixels n_pixels = inr chunks /\
    List.concat chunks = seq 0 (Z.to_nat total_pixels) /\
    Forall (fun c => exists s l, c = seq s l /\ l <= Z.to_nat n_pixels) chunks /\
    List.length chunks
    = Nat.max ((Z.to_nat total_pixels + Z.to_nat n_pixels - 1) / Z.to_nat n_pixels) 1.
Proof.
  intros HT HN; unfold torch_split_arange.
  destruct (Z.ltb_spec total_pixels 0); [lia|].
  destruct (Z.ltb_spec n_pixels 0); [lia|].
  set (T := Z.to_nat total_pixels); set (N := Z.to_nat n_pixels).
  assert (HN0 : 0 < N) by (unfold N; lia).
  destruct (Nat.eqb_spec N 0); [lia|].
  set (q := (T + N - 1) / N).
  assert (Hq : q * N <= T + N - 1 < (q + 1) * N).
  { unfold q; pose proof (Nat.div_mod_eq (T + N - 1) N) as E.
    pose proof (Nat.mod_upper_bound (T + N - 1) N ltac:(lia)); nia. }
  set (num := Nat.max q 1); cbv zeta.
  assert (Hnum : exists m, num = S m /\ m * N <= T <= S m * N).
  { exists (num - 1); unfold num; split; [lia|].
    destruct (Nat.max_spec q 1) as [[Hlt ->] | [Hge ->]]; nia. }
  destruct Hnum as (m & Em & Hm); rewrite Em.
  replace (S m - 1) with m by lia.
  eexists; split; [reflexivity|].
  assert (Hfull : map (fun i => seq (i * N) (if i <? m then N else N - (N * S m - T)))
                      (seq 0 m)
                  = map (fun i => seq (i * N) N) (seq 0 m)).
  { apply map_ext_in; intros i Hi; apply in_seq in Hi.
    destruct (Nat.ltb_spec i m); [reflexivity | lia]. }
  rewrite seq_S, map_app, Hfull; cbn [map Nat.add].
  rewrite Nat.ltb_irrefl.
  split; [|split].
  - rewrite concat_app, concat_full_chunks; cbn [List.concat].
    rewrite app_nil_r, <- seq_app; f_equal; nia.
  - apply Forall_app; split.
    + apply Forall_forall; intros c Hc; apply in_map_iff in Hc.
      destruct Hc as (i & <- & _); exists (i * N), N; auto.
    + repeat constructor; do 2 eexists; split; [reflexivity | lia].
  - rewrite length_app, !length_map, length_seq; cbn; lia.
Qed.

Lemma map_nth_error_seq {P} (row : list P) (T : nat) :
  T <= List.length row -> map (nth_error row) (seq 0 T) = map Some (firstn T row).
Proof.
  revert T; induction row as [|p row IH]; intros [|T] H; simpl in *; try lia; auto.
  f_equal. rewrite <- seq_shift, map_map; cbn [nth_error].
  apply IH; lia.
Qed.

Lemma map_Some_inj {P} (l m : list P) : map Some l = map Some m -> l = m.
Proof.
  revert m; induction l as [|a l IH]; intros [|b m]; simpl; try discriminate; auto.
  intros [= -> H]; f_equal; auto.
Qed.

(** A successful selection lists the pixels at the indices. *)
Lemma select_row_inr {P} (row : list P) (indx : list nat) (sel : list P) :
  traverse (fun i => match nth_error row i with
                     | Some p => inr p
                     | None => inl RuntimeError
                     end) indx = inr sel ->
  map (nth_error row) indx = map Some sel.
Proof.
  intros H; apply traverse_inr in H.
  induction H as [|i p indx sel Hi _ IH]; [reflexivity|]; cbn [map].
  destruct (nth_error row i); [|discriminate].
  injection Hi as <-; now rewrite IH.
Qed.

Lemma select_row_returns {P} (row : list P) (indx : list nat) :
  Forall (fun i => i < List.length row) indx ->
  exists sel,
    traverse (fun i => match nth_error row i with
                       | Some p => inr p
                       | None => inl RuntimeError
                       end) indx = inr sel.
Proof.
  intros H; apply traverse_all_inr; intros i Hi.
  rewrite Forall_forall in H; specialize (H i Hi).
  destruct (nth_error row i) eqn:E; [eauto|].
  apply nth_error_None in E; lia.
Qed.

Lemma index_select_1_returns {P} (uv : pixels P) (indx : list nat) :
  pixels_ok uv ->
  Forall (fun i => i < px_N uv) indx ->
  exists rows,
    index_select_1 uv indx = inr {| px_N := List.length indx; px_rows := rows |} /\
    Forall2 (fun row sel => map (nth_error row) indx = map Some sel) (px_rows uv) rows.
Proof.
  intros Hok Hin; unfold index_select_1.
  assert (Hb : forallb (fun i => i <? px_N uv) indx = true).
  { apply forallb_forall; intros i Hi; rewrite Forall_forall in Hin.
    apply Nat.ltb_lt; auto. }
  rewrite Hb.
  destruct (traverse_all_inr
              (fun row => traverse (fun i => match nth_error row i with
                                             | Some p => inr p
                                             | None => inl RuntimeError
                                             end) indx) (px_rows uv)) as [rows Hrows].
  { intros row Hrow; apply select_row_returns.
    unfold pixels_ok in Hok; rewrite Forall_forall in Hok.
    now rewrite (Hok row Hrow). }
  rewrite Hrows; exists rows; split; [reflexivity|].
  apply traverse_inr in Hrows.
  eapply Forall2_impl; [|exact Hrows]; intros row sel; apply select_row_inr.
Qed.

Lemma dict_get_set_same {V} (data : list (string * V)) key v :
  dict_get (dict_set data key v) key = inr v.
Proof.
  induction data as [|[k x] data IH]; cbn [dict_set dict_get].
  - now rewrite String.eqb_refl.
  - destruct (String.eqb k key) eqn:E; cbn [dict_get]; rewrite E; auto.
Qed.

Lemma dict_get_set_other {V} (data : list (string * V)) key key' v :
  key' <> key -> dict_get (dict_set data key v) key' = dict_get data key'.
Proof.
  intros Hne; induction data as [|[k x] data IH]; cbn [dict_set dict_get].
  - destruct (String.eqb_spec key key'); [congruence | reflexivity].
  - destruct (String.eqb_spec k key) as [-> | Hk]; cbn [dict_get].
    + destruct (String.eqb_spec key key'); [congruence | reflexivity].
    + now rewrite IH.
Qed.

Lemma dict_set_keys {V} (data : list (string * V)) key v x :
  dict_get data key = inr x -> map fst (dict_set data key v) = map fst data.
Proof.
  induction data as [|[k y] data IH]; cbn [dict_set dict_get]; [discriminate|].
  destruct (String.eqb k key); cbn [map fst]; [reflexivity|].
  intros H; now rewrite IH.
Qed.

(** What [split_input] returns when [uv] holds enough pixels: one
    dict per chunk of indices, each the input with [uv] replaced by
    the selection. *)
Lemma split_input_returns {P O} (model_input : list (string * entry P O))
    (uv : pixels P) (total_pixels n_pixels : Z) :
  dict_get model_input "uv" = inr (Pixels uv) ->
  pixels_ok uv ->
  (0 <= total_pixels <= Z.of_nat (px_N uv))%Z -> (0 < n_pixels)%Z ->
  exists index_chunks selections,
    torch_split_arange total_pixels n_pixels = inr index_chunks /\
    split_input model_input total_pixels n_pixels
    = inr (map (fun sel => dict_set model_input "uv" (Pixels sel)) selections) /\
    Forall2 (fun indx sel =>
               px_N sel = List.length indx /\
               Forall2 (fun row srow => map (nth_error row) indx = map Some srow)
                       (px_rows uv) (px_rows sel))
            index_chunks selections.
Proof.
  intros Huv Hok HT HN.
  destruct (torch_split_arange_tiles total_pixels n_pixels (proj1 HT) HN)
    as (chunks & Hsplit & Htile & _ & _).
  unfold split_input; rewrite Hsplit, Huv.
  assert (Hin : Forall (Forall (fun i => i < px_N uv)) chunks).
  { apply Forall_forall; intros c Hc; apply Forall_forall; intros i Hi.
    assert (Hic : In i (List.concat chunks)) by (apply in_concat; eauto).
    rewrite Htile in Hic; apply in_seq in Hic; lia. }
  exists chunks; clear Hsplit Htile.
  induction chunks as [|c chunks IH].
  - exists []; repeat split; constructor.
  - inversion Hin as [|? ? Hc Hrest]; subst.
    destruct (IH Hrest) as (sels & _ & Hsels & Hrel).
    destruct (index_select_1_returns uv c Hok Hc) as (rows & Hsel & Hrows).
    exists ({| px_N := List.length c; px_rows := rows |} :: sels).
    split; [reflexivity|split].
    + cbn [traverse map]; rewrite Hsel, Hsels; reflexivity.
    + constructor; auto.
Qed.

(** X18.  [split_input] tiles the pixels: with a positive chunk size and no
    more pixels asked for than [uv] holds, it returns
    [max(1, ceil(total_pixels / n_pixels))] dicts; no chunk holds more
    than [n_pixels] pixels; and, batch row by batch row, the chunks
    laid end to end are the first [total_pixels] pixels of [uv], in
    order. *)
Theorem split_input_tiles {P O} (model_input : list (string * entry P O))
    (uv : pixels P) (total_pixels n_pixels : Z) :
  dict_get model_input "uv" = inr (Pixels uv) ->
  pixels_ok uv ->
  (0 <= total_pixels <= Z.of_nat (px_N uv))%Z -> (0 < n_pixels)%Z ->
  exists split,
    split_input model_input total_pixels n_pixels = inr split /\
    List.length split
    = Nat.max ((Z.to_nat total_pixels + Z.to_nat n_pixels - 1) / Z.to_nat n_pixels) 1 /\
    Forall (fun data =>
              Forall (fun row => List.length row <= Z.to_nat n_pixels) (chunk_rows data))
           split /\
    forall b row,
      nth_error (px_rows uv) b = Some row ->
      List.concat (map (fun data => nth b (chunk_rows data) []) split)
      = firstn (Z.to_nat total_pixels) row.
Proof.
  intros Huv Hok HT HN.
  destruct (split_input_returns model_input uv total_pixels n_pixels Huv Hok HT HN)
    as (chunks & sels & Hsplit & Hres & Hrel).
  destruct (torch_split_arange_tiles total_pixels n_pixels (proj1 HT) HN)
    as (chunks' & Hsplit' & Htile & Hsizes & Hlen).
  rewrite Hsplit in Hsplit'; injection Hsplit' as <-.
  eexists; split; [exact Hres|].
  assert (Hrows : forall sel,
             chunk_rows (dict_set model_input "uv" (@Pixels P O sel)) = px_rows sel)
    by (intros sel; unfold chunk_rows; now rewrite dict_get_set_same).
  split; [|split].
  - rewrite length_map, <- (Forall2_length Hrel); exact Hlen.
  - apply Forall_forall; intros d Hd; apply in_map_iff in Hd.
    destruct Hd as (sel & <- & Hsel); rewrite Hrows.
    clear - Hrel Hsizes Hsel.
    induction Hrel as [|c s chunks sels [_ Hcs] _ IH].
    + contradiction.
    + inversion Hsizes as [|? ? (st & l & -> & Hl) Hrest]; subst.
      destruct Hsel as [<- | Hsel]; [|auto].
      clear - Hcs Hl; induction Hcs as [|row srow rows srows E _ IH']; constructor; auto.
      assert (L : List.length (map Some srow) = l) by (rewrite <- E, length_map; apply length_seq).
      rewrite length_map in L; lia.
  - intros b row Hb; apply map_Some_inj.
    rewrite <- map_nth_error_seq, <- Htile.
    2:{ unfold pixels_ok in Hok; rewrite Forall_forall in Hok.
        rewrite (Hok row (nth_error_In _ _ Hb)); lia. }
    rewrite map_map.
    clear - Hrel Hb Hrows.
    induction Hrel as [|c s chunks sels [_ Hcs] _ IH]; [reflexivity|].
    cbn [map List.concat]; rewrite !map_app, IH; f_equal.
    rewrite Hrows.
    clear - Hcs Hb; revert b Hb.
    induction Hcs as [|r sr rows srows E _ IH']; intros [|b] Hb; cbn in Hb;
      try discriminate.
    + injection Hb as <-; cbn [nth]; now rewrite E.
    + cbn [nth]; now apply IH'.
Qed.

End SplitFacts.

Section SplitMore.
Local Open Scope nat_scope.

Lemma example_uv_ok : pixels_ok example_uv.
Proof. repeat constructor. Qed.

Lemma split_input_tiles_witness :
  exists split,
    split_input example_model_input 7 3 = inr split /\
    List.length split = Nat.max ((Z.to_nat 7 + Z.to_nat 3 - 1) / Z.to_nat 3) 1 /\
    Forall (fun data =>
              Forall (fun row => List.length row <= Z.to_nat 3) (chunk_rows data))
           split /\
    forall b row,
      nth_error (px_rows example_uv) b = Some row ->
      List.concat (map (fun data => nth b (chunk_rows data) []) split)
      = firstn (Z.to_nat 7) row.
Proof.
  apply (split_input_tiles example_model_input example_uv 7 3 eq_refl example_uv_ok).
  - simpl; lia.
  - lia.
Defined.

(** X19.  Every chunk is the input with only [uv] replaced: the same keys in
    the same order, and every other entry as it was. *)
Theorem split_input_keeps_entries {P O} (model_input : list (string * entry P O))
    (total_pixels n_pixels : Z) (split : list (list (string * entry P O))) :
  split_input model_input total_pixels n_pixels = inr split ->
  Forall (fun data =>
            map fst data = map fst model_input /\
            forall key, key <> "uv"%string ->
                        dict_get data key = dict_get model_input key)
         split.
Proof.
  unfold split_input.
  destruct (torch_split_arange total_pixels n_pixels) as [e | chunks]; [discriminate|].
  intros H; apply traverse_inr in H.
  induction H as [|indx data chunks split Hd _ IH]; constructor; auto.
  destruct (dict_get model_input "uv") as [e | [uv | o]] eqn:Euv; try discriminate.
  destruct (index_select_1 uv indx) as [e | sel]; [discriminate|].
  injection Hd as <-; split.
  - eapply dict_set_keys; eassumption.
  - intros key Hkey; now apply dict_get_set_other.
Qed.

Lemma split_input_keeps_entries_witness :
  exists split,
    split_input example_model_input 7 3 = inr split /\
    Forall (fun data =>
              map fst data = map fst example_model_input /\
              forall key, key <> "uv"%string ->
                          dict_get data key = dict_get example_model_input key)
           split.
Proof.
  eexists; split; [vm_compute; reflexivity|].
  apply (split_input_keeps_entries example_model_input 7 3).
  vm_compute; reflexivity.
Defined.

(** X20.  Asking for more pixels than [uv] holds is an out-of-range index
    for [torch.index_select]: the call ends in torch's [RuntimeError],
    whatever the chunk size. *)
Theorem split_input_too_many_pixels {P O} (model_input : list (string * entry P O))
    (uv : pixels P) (total_pixels n_pixels : Z) :
  dict_get model_input "uv" = inr (Pixels uv) ->
  (Z.of_nat (px_N uv) < total_pixels)%Z -> (0 < n_pixels)%Z ->
  split_input model_input total_pixels n_pixels = inl (Raised RuntimeError).
Proof.
  intros Huv HT HN.
  destruct (torch_split_arange_tiles total_pixels n_pixels ltac:(lia) HN)
    as (chunks & Hsplit & Htile & _ & _).
  unfold split_input; rewrite Hsplit, Huv.
  match goal with |- ?t = _ => destruct t as [e | split] eqn:E end.
  - apply traverse_inl in E; destruct E as (indx & _ & He).
    unfold index_select_1 in He.
    destruct (forallb _ indx); [|now injection He as <-].
    destruct (traverse _ (px_rows uv)) as [e' | rows] eqn:Er; [|discriminate].
    injection He as <-.
    apply traverse_inl in Er; destruct Er as (row & _ & Hrow).
    apply traverse_inl in Hrow; destruct Hrow as (i & _ & Hi).
    destruct (nth_error row i); [discriminate | now injection Hi as <-].
  - exfalso; apply traverse_inr in E.
    assert (Hin : In (px_N uv) (List.concat chunks))
      by (rewrite Htile; apply in_seq; lia).
    apply in_concat in Hin; destruct Hin as (indx & Hindx & Hi).
    clear - E Hindx Hi.
    induction E as [|c d chunks split Hd _ IH]; [contradiction|].
    destruct Hindx as [-> | Hindx]; [|auto].
    unfold index_select_1 in Hd.
    destruct (forallb (fun i => i <? px_N uv) indx) eqn:Hb; [|discriminate].
    rewrite forallb_forall in Hb; specialize (Hb _ Hi).
    apply Nat.ltb_lt in Hb; lia.
Qed.

Lemma split_input_too_many_pixels_witness :
  split_input example_model_input 8 3 = inl (Raised RuntimeError).
Proof.
  apply (split_input_too_many_pixels example_model_input example_uv 8 3 eq_refl);
    simpl; lia.
Defined.

End SplitMore.

Section MergeFacts.
Local Open Scope nat_scope.

Lemma length_concat_rect {A} (rs : list (list A)) (L : nat) :
  Forall (fun r => List.length r = L) rs ->
  List.length (List.concat rs) = List.length rs * L.
Proof.
  induction 1 as [|r rs Hr _ IH]; [reflexivity|].
  cbn [List.concat List.length]; rewrite length_app, IH, Hr; lia.
Qed.

(** Row [b] of a row-major tensor with rows of length [L]. *)
Lemma concat_block {A} (rs : list (list A)) (L b : nat) :
  Forall (fun r => List.length r = L) rs ->
  firstn L (skipn (b * L) (List.concat rs)) = nth b rs [].
Proof.
  intros H; revert b; induction H as [|r rs Hr _ IH]; intros b.
  - cbn [List.concat]; rewrite skipn_nil, firstn_nil; now destruct b.
  - destruct b as [|b]; cbn [List.concat nth].
    + cbn [Nat.mul skipn]; rewrite firstn_app, <- Hr, Nat.sub_diag, firstn_all.
      cbn [firstn]; apply app_nil_r.
    + replace (S b * L) with (List.length r + b * L) by lia.
      rewrite skipn_app, skipn_all2 by lia.
      replace (List.length r + b * L - List.length r) with (b * L) by lia.
      cbn [app]; apply IH.
Qed.

Lemma length_flat_map_const {P A} (h : P -> list A) (C : nat) (row : list P) :
  (forall p, List.length (h p) = C) ->
  List.length (flat_map h row) = List.length row * C.
Proof.
  intros H; induction row as [|p row IH]; [reflexivity|].
  cbn [flat_map List.length]; rewrite length_app, H, IH; lia.
Qed.

Lemma flat_map_concat {P A} (h : P -> list A) (xs : list (list P)) :
  flat_map h (List.concat xs) = List.concat (map (flat_map h) xs).
Proof.
  induction xs as [|x xs IH]; [reflexivity|].
  cbn [List.concat map]; now rewrite flat_map_app, IH.
Qed.

Lemma flat_map_nth_seq {A B} (g : list A -> list B) (rows : list (list A)) :
  flat_map (fun b => g (nth b rows [])) (seq 0 (List.length rows)) = flat_map g rows.
Proof.
  induction rows as [|r rows IH]; [reflexivity|].
  cbn [List.length seq flat_map nth]; f_equal.
  rewrite <- seq_shift, flat_map_concat_map, map_map, <- flat_map_concat_map.
  exact IH.
Qed.

Lemma flat_map_ext_in {A B} (f g : A -> list B) (l : list A) :
  (forall a, In a l -> f a = g a) -> flat_map f l = flat_map g l.
Proof.
  induction l as [|a l IH]; intros H; [reflexivity|].
  cbn [flat_map]; rewrite (H a) by now left.
  f_equal; apply IH; intros; apply H; now right.
Qed.

(** The selections of a tiling, laid end to end in one batch row, are
    the first [T] pixels of that row. *)
Lemma selections_tile {P} (rows : list (list P)) (chunks : list (list nat))
    (sels : list (pixels P)) (T b : nat) (row : list P) :
  Forall2 (fun indx sel =>
             px_N sel = List.length indx /\
             Forall2 (fun row srow => map (nth_error row) indx = map Some srow)
                     rows (px_rows sel))
          chunks sels ->
  List.concat chunks = seq 0 T ->
  nth_error rows b = Some row ->
  T <= List.length row ->
  List.concat (map (fun sel => nth b (px_rows sel) []) sels) = firstn T row.
Proof.
  intros Hrel Htile Hb HT; apply map_Some_inj.
  rewrite <- map_nth_error_seq, <- Htile by assumption.
  clear - Hrel Hb.
  induction Hrel as [|c s chunks sels [_ Hcs] _ IH]; [reflexivity|].
  cbn [map List.concat]; rewrite !map_app, IH; f_equal.
  clear - Hcs Hb; revert b Hb.
  induction Hcs as [|r sr rows srows E _ IH']; intros [|b] Hb; cbn in Hb;
    try discriminate.
  - injection Hb as <-; cbn [nth]; now rewrite E.
  - cbn [nth]; now apply IH'.
Qed.

(** The shape of a selection. *)
Lemma selection_shape {P} (rows : list (list P)) (indx : list nat) (sel : pixels P) :
  px_N sel = List.length indx /\
  Forall2 (fun row srow => map (nth_error row) indx = map Some srow) rows (px_rows sel) ->
  List.length (px_rows sel) = List.length rows /\
  Forall (fun srow => List.length srow = px_N sel) (px_rows sel).
Proof.
  intros [HN Hrows]; split; [symmetry; eapply Forall2_length; eassumption|].
  rewrite HN; clear HN.
  induction Hrows as [|row srow rows srows E _ IH]; constructor; auto.
  rewrite <- (length_map Some), <- E; apply length_map.
Qed.

(** The heart of [merge_output]: the operands of [torch.cat], built
    from the selections with [C] values per pixel, joined along the
    pixel axis, hold the values of all pixels, batch row by batch
    row. *)
Lemma joined_rows {P A} (h : P -> list A) (C : nat)
    (rows : list (list P)) (chunks : list (list nat)) (sels : list (pixels P)) (T : nat) :
  (forall p, List.length (h p) = C) ->
  Forall (fun row => List.length row = T) rows ->
  Forall2 (fun indx sel =>
             px_N sel = List.length indx /\
             Forall2 (fun row srow => map (nth_error row) indx = map Some srow)
                     rows (px_rows sel))
          chunks sels ->
  List.concat chunks = seq 0 T ->
  flat_map (fun b =>
              flat_map (slab_row b)
                (map (fun sel => {| s_n := px_N sel; s_C := C;
                                    s_data := flat_map (flat_map h) (px_rows sel) |})
                     sels))
           (seq 0 (List.length rows))
  = flat_map (flat_map h) rows.
Proof.
  intros HC Hrows Hrel Htile.
  rewrite <- (flat_map_nth_seq (flat_map h) rows).
  apply flat_map_ext_in; intros b Hb; apply in_seq in Hb.
  destruct (nth_error rows b) as [row|] eqn:Eb;
    [|apply nth_error_None in Eb; lia].
  assert (Hrow : List.length row = T)
    by (rewrite Forall_forall in Hrows; apply Hrows; eapply nth_error_In; eassumption).
  rewrite (nth_error_nth _ _ [] Eb).
  rewrite <- (firstn_all row), Hrow.
  rewrite <- (selections_tile rows chunks sels T b row Hrel Htile Eb) by lia.
  rewrite flat_map_concat, map_map, flat_map_concat_map, map_map.
  f_equal; apply map_ext_in; intros sel Hsel.
  assert (Hshape : List.length (px_rows sel) = List.length rows /\
                   Forall (fun srow => List.length srow = px_N sel) (px_rows sel)).
  { clear - Hrel Hsel.
    induction Hrel as [|c s chunks sels Hcs _ IH]; [contradiction|].
    destruct Hsel as [<- | Hsel]; [eapply selection_shape; eassumption | auto]. }
  destruct Hshape as [_ Hs].
  unfold slab_row; cbn [s_n s_C s_data].
  rewrite flat_map_concat_map, concat_block.
  - change [] with (flat_map h []) at 1; apply map_nth.
  - apply Forall_forall; intros r Hr; apply in_map_iff in Hr.
    destruct Hr as (srow & <- & Hsrow).
    rewrite (length_flat_map_const h C) by assumption.
    rewrite Forall_forall in Hs; now rewrite (Hs srow Hsrow).
Qed.

Lemma traverse_map_inr {E A B C} (F : B -> E + C) (g : A -> B) (k : A -> C) (l : list A) :
  (forall a, In a l -> F (g a) = inr (k a)) ->
  traverse F (map g l) = inr (map k l).
Proof.
  induction l as [|a l IH]; intros H; [reflexivity|].
  cbn [map traverse]; rewrite (H a) by now left.
  rewrite IH; [reflexivity | intros; apply H; now right].
Qed.

End MergeFacts.

Section MergeRoundTrip.
Local Open Scope nat_scope.

Lemma concat_map_map_flat {P A} (f : P -> A) (rs : list (list P)) :
  List.concat (map (map f) rs) = flat_map (flat_map (fun p => [f p])) rs.
Proof.
  rewrite flat_map_concat_map; apply (f_equal (@List.concat A)).
  apply map_ext; intros r.
  induction r as [|p r IH]; [reflexivity|]; cbn [map flat_map app]; now rewrite IH.
Qed.

Lemma chunk_rows_set {P O} (model_input : list (string * entry P O)) (sel : pixels P) :
  chunk_rows (dict_set model_input "uv" (Pixels sel)) = px_rows sel.
Proof. unfold chunk_rows; now rewrite dict_get_set_same. Qed.

Lemma reshape_rows {A} (B n C : nat) (t : tensor A) :
  0 < B -> 0 < C -> List.length (t_data t) = B * n * C ->
  reshape_B_n_C (Z.of_nat B) C t = inr n.
Proof.
  intros HB HC Hlen; unfold reshape_B_n_C; rewrite Hlen, Nat2Z.id.
  destruct (Z.leb_spec (Z.of_nat B) 0); [lia|].
  destruct (Nat.eqb_spec (B * C) 0); [nia|].
  replace (B * n * C) with (n * (B * C)) by lia.
  rewrite Nat.Div0.mod_mul, Nat.div_mul by assumption; reflexivity.
Qed.

(** X21.  Rendering in chunks and merging is rendering at once: when every
    chunk of [split_input] is turned into one value per pixel and the
    chunk outputs are merged, the result holds [f] of every pixel of
    [uv], batch row by batch row, as a tensor of shape
    [(B * total_pixels,)]. *)
Theorem merge_output_of_split {P O A} (f : P -> A) (key : string)
    (model_input : list (string * entry P O)) (uv : pixels P) (n_pixels : Z) :
  dict_get model_input "uv" = inr (Pixels uv) ->
  pixels_ok uv ->
  px_rows uv <> [] ->
  (0 < n_pixels)%Z ->
  exists split,
    split_input model_input (Z.of_nat (px_N uv)) n_pixels = inr split /\
    merge_output (map (per_pixel_output f key) split)
      (Z.of_nat (px_N uv)) (Z.of_nat (List.length (px_rows uv)))
    = inr [(key, {| t_shape := [List.length (px_rows uv) * px_N uv];
                    t_data := List.concat (map (map f) (px_rows uv)) |})].
Proof.
  intros Huv Hok HB HN.
  destruct (split_input_returns model_input uv (Z.of_nat (px_N uv)) n_pixels Huv Hok
              ltac:(lia) HN) as (chunks & sels & Hsplit & Hres & Hrel).
  destruct (torch_split_arange_tiles (Z.of_nat (px_N uv)) n_pixels ltac:(lia) HN)
    as (chunks' & Hsplit' & Htile & _ & Hlen).
  rewrite Hsplit in Hsplit'; injection Hsplit' as <-.
  rewrite Nat2Z.id in Htile.
  eexists; split; [exact Hres|].
  set (B := List.length (px_rows uv)) in *.
  assert (HB0 : 0 < B) by (unfold B; destruct (px_rows uv); [congruence | cbn; lia]).
  set (h := fun p : P => [f p]).
  set (part := fun sel : pixels P =>
                 {| s_n := px_N sel; s_C := 1;
                    s_data := flat_map (flat_map h) (px_rows sel) |}).
  rewrite map_map.
  assert (Hshape : forall sel, In sel sels ->
             List.length (px_rows sel) = B /\
             Forall (fun srow => List.length srow = px_N sel) (px_rows sel)).
  { intros sel Hsel; clear - Hrel Hsel.
    induction Hrel as [|c s chunks sels Hcs _ IH]; [contradiction|].
    destruct Hsel as [<- | Hsel]; [eapply selection_shape; eassumption | auto]. }
  assert (Hdata : forall sel, In sel sels ->
             List.length (List.concat (map (map f) (px_rows sel))) = B * px_N sel * 1).
  { intros sel Hsel; destruct (Hshape sel Hsel) as [HBs Hrows].
    rewrite (length_concat_rect _ (px_N sel)), length_map, HBs; [lia|].
    apply Forall_forall; intros r Hr; apply in_map_iff in Hr.
    destruct Hr as (srow & <- & Hsrow); rewrite length_map.
    rewrite Forall_forall in Hrows; auto. }
  set (vals := fun sel : pixels P =>
                 {| t_shape := [List.length (List.concat (map (map f) (px_rows sel)))];
                    t_data := List.concat (map (map f) (px_rows sel)) |}).
  rewrite (map_ext _ (fun sel => [(key, Some (vals sel))]))
    by (intros sel; unfold per_pixel_output; now rewrite chunk_rows_set).
  assert (Hparts : traverse
                     (fun r : list (string * option (tensor A)) =>
                        match dict_get r key with
                        | inl e => inl (Raised e)
                        | inr None => inl AttributeError
                        | inr (Some t) =>
                            match reshape_B_n_C (Z.of_nat B) 1 t with
                            | inl e => inl (Raised e)
                            | inr n => inr {| s_n := n; s_C := 1; s_data := t_data t |}
                            end
                        end)
                     (map (fun sel => [(key, Some (vals sel))]) sels)
                   = inr (map part sels)).
  { apply traverse_map_inr; intros sel Hsel.
    cbn [dict_get]; rewrite String.eqb_refl.
    rewrite (reshape_rows B (px_N sel) 1) by (cbn [t_data vals]; auto; lia).
    unfold part, vals, h; cbn [t_data]; now rewrite concat_map_map_flat. }
  assert (Hjoin : flat_map (fun b => flat_map (slab_row b) (map part sels)) (seq 0 B)
                  = List.concat (map (map f) (px_rows uv))).
  { unfold part, B.
    rewrite (joined_rows h 1 (px_rows uv) chunks sels (px_N uv)
               (fun p => eq_refl) Hok Hrel Htile).
    unfold h; symmetry; apply concat_map_map_flat. }
  assert (Hnumel : List.length (List.concat (map (map f) (px_rows uv))) = B * px_N uv).
  { rewrite (length_concat_rect _ (px_N uv)), length_map; [reflexivity|].
    apply Forall_forall; intros r Hr; apply in_map_iff in Hr.
    destruct Hr as (row & <- & Hrow); rewrite length_map.
    unfold pixels_ok in Hok; rewrite Forall_forall in Hok; auto. }
  destruct sels as [|sel0 sels'] eqn:Esels.
  { apply Forall2_length in Hrel; rewrite Hlen in Hrel; cbn in Hrel; lia. }
  rewrite <- Esels in *.
  unfold merge_output.
  replace (map (fun sel => [(key, Some (vals sel))]) sels)
    with ([(key, Some (vals sel0))] :: map (fun sel => [(key, Some (vals sel))]) sels')
    at 1 by (rewrite Esels; reflexivity).
  cbn [merge_entries].
  unfold merge_entry; cbn [t_shape vals List.length Nat.eqb].
  rewrite Hparts.
  unfold cat_1.
  assert (HC : forallb (fun s : slab3 A => s_C s =? 1) (map part sels) = true).
  { apply forallb_forall; intros s Hs; apply in_map_iff in Hs.
    destruct Hs as (sel & <- & _); reflexivity. }
  replace (map part sels) with (part sel0 :: map part sels') at 1
    by (rewrite Esels; reflexivity).
  cbn [s_C part]; rewrite HC.
  cbn [s_data]; rewrite Nat2Z.id, Hjoin, Hnumel.
  replace (Z.of_nat B * Z.of_nat (px_N uv) =? Z.of_nat (B * px_N uv))%Z
    with true by (symmetry; apply Z.eqb_eq; lia).
  rewrite orb_true_r; reflexivity.
Qed.

Lemma merge_output_of_split_witness :
  exists split,
    split_input example_model_input (Z.of_nat (px_N example_uv)) 3 = inr split /\
    merge_output (map (per_pixel_output (fun p => 2 * p) "rgb") split)
      (Z.of_nat (px_N example_uv)) (Z.of_nat (List.length (px_rows example_uv)))
    = inr [("rgb"%string,
            {| t_shape := [List.length (px_rows example_uv) * px_N example_uv];
               t_data := List.concat (map (map (fun p => 2 * p)) (px_rows example_uv)) |})].
Proof.
  apply (merge_output_of_split (fun p => 2 * p) "rgb" example_model_input example_uv 3
           eq_refl example_uv_ok).
  - discriminate.
  - lia.
Defined.

End MergeRoundTrip.

Section MergeRoundTripVectors.
Local Open Scope nat_scope.

Lemma concat_concat_flat {P A} (f : P -> list A) (rs : list (list P)) :
  List.concat (List.concat (map (map f) rs)) = flat_map (flat_map f) rs.
Proof.
  induction rs as [|r rs IH]; [reflexivity|].
  cbn [map List.concat flat_map]; rewrite concat_app, IH.
  now rewrite <- flat_map_concat_map.
Qed.

(** X22.  Rendering in chunks and merging, for outputs with [C] values
    per pixel: when every chunk of [split_input] is turned into a
    tensor of shape [(B * n, C)] and the chunk outputs are merged, the
    result holds the values of every pixel of [uv], batch row by batch
    row, as a tensor of shape [(B * total_pixels, C)].  There must be at
    least one pixel and one value per pixel. *)
Theorem merge_output_of_split_vectors {P O A} (C : nat) (f : P -> list A) (key : string)
    (model_input : list (string * entry P O)) (uv : pixels P) (n_pixels : Z) :
  (forall p, List.length (f p) = C) ->
  0 < C -> 0 < px_N uv ->
  dict_get model_input "uv" = inr (Pixels uv) ->
  pixels_ok uv ->
  px_rows uv <> [] ->
  (0 < n_pixels)%Z ->
  exists split,
    split_input model_input (Z.of_nat (px_N uv)) n_pixels = inr split /\
    merge_output (map (per_pixel_vectors C f key) split)
      (Z.of_nat (px_N uv)) (Z.of_nat (List.length (px_rows uv)))
    = inr [(key, {| t_shape := [List.length (px_rows uv) * px_N uv; C];
                    t_data := List.concat (List.concat (map (map f) (px_rows uv))) |})].
Proof.
  intros HfC HC0 HN0 Huv Hok HB HN.
  destruct (split_input_returns model_input uv (Z.of_nat (px_N uv)) n_pixels Huv Hok
              ltac:(lia) HN) as (chunks & sels & Hsplit & Hres & Hrel).
  destruct (torch_split_arange_tiles (Z.of_nat (px_N uv)) n_pixels ltac:(lia) HN)
    as (chunks' & Hsplit' & Htile & _ & Hlen).
  rewrite Hsplit in Hsplit'; injection Hsplit' as <-.
  rewrite Nat2Z.id in Htile.
  eexists; split; [exact Hres|].
  set (B := List.length (px_rows uv)) in *.
  assert (HB0 : 0 < B) by (unfold B; destruct (px_rows uv); [congruence | cbn; lia]).
  set (part := fun sel : pixels P =>
                 {| s_n := px_N sel; s_C := C;
                    s_data := flat_map (flat_map f) (px_rows sel) |}).
  rewrite map_map.
  assert (Hshape : forall sel, In sel sels ->
             List.length (px_rows sel) = B /\
             Forall (fun srow => List.length srow = px_N sel) (px_rows sel)).
  { intros sel Hsel; clear - Hrel Hsel.
    induction Hrel as [|c s chunks sels Hcs _ IH]; [contradiction|].
    destruct Hsel as [<- | Hsel]; [eapply selection_shape; eassumption | auto]. }
  assert (Hflat : forall rs : list (list P), forall n,
             Forall (fun r => List.length r = n) rs ->
             List.length (flat_map (flat_map f) rs) = List.length rs * n * C).
  { intros rs n Hrs; rewrite flat_map_concat_map.
    rewrite (length_concat_rect _ (n * C)), length_map; [lia|].
    apply Forall_forall; intros r Hr; apply in_map_iff in Hr.
    destruct Hr as (row & <- & Hrow).
    rewrite (length_flat_map_const f C) by assumption.
    rewrite Forall_forall in Hrs; now rewrite (Hrs row Hrow). }
  set (vals := fun sel : pixels P =>
                 {| t_shape := [List.length (List.concat (map (map f) (px_rows sel))); C];
                    t_data := List.concat (List.concat (map (map f) (px_rows sel))) |}).
  rewrite (map_ext _ (fun sel => [(key, Some (vals sel))]))
    by (intros sel; unfold per_pixel_vectors; now rewrite chunk_rows_set).
  assert (Hparts : traverse
                     (fun r : list (string * option (tensor A)) =>
                        match dict_get r key with
                        | inl e => inl (Raised e)
                        | inr None => inl AttributeError
                        | inr (Some t) =>
                            match
                              match rev (t_shape t) with
                              | [] => inl IndexError
                              | C0 :: _ => inr C0
                              end
                            with
                            | inl e => inl (Raised e)
                            | inr C0 =>
                                match reshape_B_n_C (Z.of_nat B) C0 t with
                                | inl e => inl (Raised e)
                                | inr n => inr {| s_n := n; s_C := C0; s_data := t_data t |}
                                end
                            end
                        end)
                     (map (fun sel => [(key, Some (vals sel))]) sels)
                   = inr (map part sels)).
  { apply traverse_map_inr; intros sel Hsel.
    cbn [dict_get]; rewrite String.eqb_refl.
    cbn [vals t_shape rev app].
    destruct (Hshape sel Hsel) as [HBs Hrows].
    rewrite (reshape_rows B (px_N sel) C); auto.
    - unfold part, vals; cbn [t_data]; now rewrite concat_concat_flat.
    - unfold vals; cbn [t_data].
      rewrite concat_concat_flat, (Hflat _ (px_N sel)), HBs; auto. }
  assert (Hjoin : flat_map (fun b => flat_map (slab_row b) (map part sels)) (seq 0 B)
                  = List.concat (List.concat (map (map f) (px_rows uv)))).
  { unfold part, B.
    rewrite (joined_rows f C (px_rows uv) chunks sels (px_N uv) HfC Hok Hrel Htile).
    symmetry; apply concat_concat_flat. }
  assert (Hnumel : List.length (List.concat (List.concat (map (map f) (px_rows uv))))
                   = B * px_N uv * C)
    by (rewrite concat_concat_flat; now apply Hflat).
  destruct sels as [|sel0 sels'] eqn:Esels.
  { apply Forall2_length in Hrel; rewrite Hlen in Hrel; cbn in Hrel; lia. }
  rewrite <- Esels in *.
  unfold merge_output.
  replace (map (fun sel => [(key, Some (vals sel))]) sels)
    with ([(key, Some (vals sel0))] :: map (fun sel => [(key, Some (vals sel))]) sels')
    at 1 by (rewrite Esels; reflexivity).
  cbn [merge_entries].
  unfold merge_entry; cbn [t_shape vals List.length Nat.eqb].
  rewrite Hparts.
  unfold cat_1.
  assert (HC : forallb (fun s : slab3 A => s_C s =? C) (map part sels) = true).
  { apply forallb_forall; intros s Hs; apply in_map_iff in Hs.
    destruct Hs as (sel & <- & _); apply Nat.eqb_refl. }
  replace (map part sels) with (part sel0 :: map part sels') at 1
    by (rewrite Esels; reflexivity).
  cbn [s_C part]; rewrite HC.
  cbn [s_data]; rewrite Nat2Z.id, Hjoin, Hnumel.
  replace (Z.to_nat (Z.of_nat B * Z.of_nat (px_N uv))) with (B * px_N uv) by lia.
  destruct (Z.ltb_spec 0 (Z.of_nat B * Z.of_nat (px_N uv))); [|nia].
  replace (B * px_N uv * C) with (C * (B * px_N uv)) by lia.
  rewrite Nat.Div0.mod_mul, Nat.div_mul by nia.
  reflexivity.
Qed.

Lemma merge_output_of_split_vectors_witness :
  exists split,
    split_input example_model_input (Z.of_nat (px_N example_uv)) 3 = inr split /\
    merge_output (map (per_pixel_vectors 2 (fun p => [p; p + 100]) "rgb") split)
      (Z.of_nat (px_N example_uv)) (Z.of_nat (List.length (px_rows example_uv)))
    = inr [("rgb"%string,
            {| t_shape := [List.length (px_rows example_uv) * px_N example_uv; 2];
               t_data := List.concat (List.concat (map (map (fun p => [p; p + 100]))
                                                       (px_rows example_uv))) |})].
Proof.
  apply (merge_output_of_split_vectors 2 (fun p => [p; p + 100]) "rgb"
           example_model_input example_uv 3).
  - reflexivity.
  - lia.
  - simpl; lia.
  - reflexivity.
  - exact example_uv_ok.
  - discriminate.
  - lia.
Defined.

End MergeRoundTripVectors.

(* ================================================================= *)
(** ** Image metric *)

Section PsnrFacts.
Local Open Scope R_scope.

Lemma combine_map_both (f : R -> R) (a b : list R) :
  combine (map f a) (map f b) = map (fun ab => (f (fst ab), f (snd ab))) (combine a b).
Proof.
  revert b; induction a as [|x a IH]; intros [|y b]; cbn; auto.
  now rewrite IH.
Qed.

Lemma broadcast2_map (f : R -> R) (a b : list R) :
  broadcast2 (map f a) (map f b) =
  match broadcast2 a b with
  | inl e => inl e
  | inr pairs => inr (map (fun ab => (f (fst ab), f (snd ab))) pairs)
  end.
Proof.
  unfold broadcast2; rewrite !length_map.
  destruct (Nat.eqb _ _); [now rewrite combine_map_both|].
  destruct a as [|x [|x' a]], b as [|y [|y' b]]; cbn [map]; try reflexivity;
    rewrite !map_map; reflexivity.
Qed.

Lemma broadcast2_members (a b : list R) pairs :
  broadcast2 a b = inr pairs ->
  Forall (fun ab => In (fst ab) a /\ In (snd ab) b) pairs.
Proof.
  unfold broadcast2; intros H.
  assert (Hc : Forall (fun ab => In (fst ab) a /\ In (snd ab) b) (combine a b)).
  { apply Forall_forall; intros [x y] Hin; cbn; split;
      [eapply in_combine_l | eapply in_combine_r]; eassumption. }
  assert (Hl : forall x, In x a -> Forall (fun ab => In (fst ab) a /\ In (snd ab) b)
                                        (map (fun y => (x, y)) b)).
  { intros x Hx; apply Forall_forall; intros [u v] Hin.
    apply in_map_iff in Hin; destruct Hin as (w & [= <- <-] & Hw); cbn; auto. }
  assert (Hr : forall y, In y b -> Forall (fun ab => In (fst ab) a /\ In (snd ab) b)
                                        (map (fun x => (x, y)) a)).
  { intros y Hy; apply Forall_forall; intros [u v] Hin.
    apply in_map_iff in Hin; destruct Hin as (w & [= <- <-] & Hw); cbn; auto. }
  destruct (Nat.eqb _ _); [now injection H as <-|].
  destruct a as [|x [|x' a]], b as [|y [|y' b]]; try discriminate;
    injection H as <-; first [apply Hl | apply Hr | constructor]; cbn; auto.
Qed.

Lemma Rsum_scale (k : R) (l : list R) : Rsum (map (fun x => k * x) l) = k * Rsum l.
Proof. unfold Rsum; induction l as [|x l IH]; cbn; [ring | rewrite IH; ring]. Qed.

Lemma Rsum_nonneg (l : list R) : Forall (fun x => 0 <= x) l -> 0 <= Rsum l.
Proof. unfold Rsum; induction 1; cbn; lra. Qed.

Lemma Rsum_zero (l : list R) : Forall (fun x => x = 0) l -> Rsum l = 0.
Proof. unfold Rsum; induction 1; cbn; lra. Qed.

Lemma Rsum_le_length (l : list R) : Forall (fun x => x <= 1) l -> Rsum l <= INR (List.length l).
Proof.
  induction 1 as [|x l Hx _ IH]; [cbn; lra|].
  cbn [Rsum fold_right List.length]; rewrite S_INR; fold (Rsum l); lra.
Qed.

Lemma torch_mean_nonempty (l : list R) :
  l <> [] -> torch_mean l = Fin (Rsum l / INR (List.length l)).
Proof. destruct l; [congruence | reflexivity]. Qed.

Lemma map_nonempty {A B} (f : A -> B) (l : list A) : l <> [] -> map f l <> [].
Proof. destruct l; [congruence | discriminate]. Qed.

Lemma ln_10_pos : 0 < ln 10.
Proof. rewrite <- ln_1; apply ln_increasing; lra. Qed.

(** What a finite PSNR says about the pairs of values compared. *)
Lemma get_psnr_finite (img1 img2 : list R) (p : R) :
  get_psnr img1 img2 false = inr (Fin p) ->
  exists pairs,
    broadcast2 img1 img2 = inr pairs /\ pairs <> [] /\
    0 < Rsum (map (fun ab => (fst ab - snd ab) ^ 2) pairs) /\
    p = -10 * ln (Rsum (map (fun ab => (fst ab - snd ab) ^ 2) pairs)
                  / INR (List.length pairs)) / ln 10.
Proof.
  unfold get_psnr; destruct (broadcast2 img1 img2) as [e|pairs]; [discriminate|].
  intros H; exists pairs; split; [reflexivity|].
  destruct pairs as [|ab pairs]; [discriminate|].
  split; [discriminate|].
  set (sq := map _ (ab :: pairs)) in *.
  assert (Hn : 0 < INR (List.length (ab :: pairs))) by (apply lt_0_INR; cbn; lia).
  assert (Hs : 0 <= Rsum sq).
  { apply Rsum_nonneg, Forall_forall; intros x Hx; apply in_map_iff in Hx.
    destruct Hx as (c & <- & _); apply pow2_ge_0. }
  rewrite torch_mean_nonempty in H by (apply map_nonempty; discriminate).
  fold sq in H.
  replace (List.length sq) with (List.length (ab :: pairs)) in H
    by (unfold sq; now rewrite length_map).
  destruct (Req_bool _ 0) eqn:Ez; [discriminate|].
  apply Req_bool_false in Ez.
  split; [|now injection H].
  destruct (Rle_lt_or_eq_dec _ _ Hs) as [|Hz]; [assumption|].
  exfalso; apply Ez; rewrite <- Hz; unfold Rdiv; ring.
Qed.

(** X23.  With [normalize_rgb] both images are mapped from [[-1, 1]] to
    [[0, 1]], which divides the squared error by four: a finite PSNR
    goes up by [10 * log10 4], about 6.02 dB. *)
Theorem get_psnr_normalize_shift (img1 img2 : list R) (p : R) :
  get_psnr img1 img2 false = inr (Fin p) ->
  get_psnr img1 img2 true = inr (Fin (p + 10 * ln 4 / ln 10)).
Proof.
  intros H; destruct (get_psnr_finite _ _ _ H) as (pairs & Hb & Hne & Hpos & ->).
  unfold get_psnr; rewrite broadcast2_map, Hb, map_map; cbn [fst snd].
  set (n := INR (List.length pairs)).
  assert (Hn : 0 < n).
  { apply lt_0_INR; destruct pairs; [congruence | cbn; lia]. }
  set (s := Rsum (map (fun ab => (fst ab - snd ab) ^ 2) pairs)) in *.
  assert (Es : Rsum (map (fun ab => ((fst ab + 1) / 2 - (snd ab + 1) / 2) ^ 2) pairs)
               = / 4 * s).
  { unfold s; rewrite <- Rsum_scale, map_map; f_equal.
    apply map_ext; intros ab; field. }
  rewrite torch_mean_nonempty by (now apply map_nonempty).
  rewrite length_map, Es; fold n.
  assert (Hm : 0 < s / n) by (apply Rdiv_lt_0_compat; assumption).
  destruct (Req_bool _ 0) eqn:Ez.
  { apply Req_bool_true in Ez.
    assert (/ 4 * s / n = / 4 * (s / n)) by (field; lra); lra. }
  do 2 f_equal.
  replace (/ 4 * s / n) with (s / n / 4) by (field; lra).
  unfold Rdiv at 2; rewrite ln_mult, ln_Rinv by lra.
  pose proof ln_10_pos; field; lra.
Qed.

Lemma get_psnr_normalize_shift_witness :
  get_psnr [1; 0] [0; 0] true = inr (Fin (-10 * ln (1 / 2) / ln 10 + 10 * ln 4 / ln 10)).
Proof.
  apply (get_psnr_normalize_shift [1; 0] [0; 0]).
  unfold get_psnr; cbn.
  destruct (Req_bool _ 0) eqn:Ez; [apply Req_bool_true in Ez; lra|].
  match goal with
  | |- inr (Fin (_ * ln ?a / _)) = _ => replace a with (1 / 2) by lra
  end; reflexivity.
Defined.

(** X24.  Two equal images, with at least one value, have no error: the PSNR
    is infinite, with or without normalisation. *)
Theorem get_psnr_identical (img : list R) (normalize_rgb : bool) :
  img <> [] -> get_psnr img img normalize_rgb = inr Inf.
Proof.
  intros Hne.
  assert (G : forall l : list R, l <> [] ->
            match broadcast2 l l with
            | inl e => inl e
            | inr pairs =>
                inr match torch_mean (map (fun ab => (fst ab - snd ab) ^ 2) pairs) with
                    | Fin mse => if Req_bool mse 0 then Inf else Fin (-10 * ln mse / ln 10)
                    | other => other
                    end
            end = inr Inf :> error + fval).
  { intros l Hl; unfold broadcast2; rewrite Nat.eqb_refl.
    assert (Hz : Forall (fun x => x = 0) (map (fun ab => (fst ab - snd ab) ^ 2) (combine l l))).
    { clear; induction l as [|x l IH]; cbn [combine map]; constructor; auto.
      cbn; ring. }
    rewrite torch_mean_nonempty
      by (apply map_nonempty; destruct l; [congruence | discriminate]).
    rewrite (Rsum_zero _ Hz).
    replace (0 / _) with 0 by (unfold Rdiv; ring).
    now rewrite (proj2 (Req_bool_true 0 0) eq_refl). }
  unfold get_psnr; destruct normalize_rgb; apply G; auto.
  destruct img; [congruence | discriminate].
Qed.

Lemma get_psnr_identical_witness : get_psnr [1 / 2; 1] [1 / 2; 1] true = inr Inf.
Proof. apply (get_psnr_identical [1 / 2; 1] true); discriminate. Defined.

(** X25.  For images with values in [[0, 1]] the squared error is at most
    one, and a finite PSNR is never negative. *)
Theorem get_psnr_unit_range (img1 img2 : list R) (p : R) :
  Forall unit_interval img1 -> Forall unit_interval img2 ->
  get_psnr img1 img2 false = inr (Fin p) -> 0 <= p.
Proof.
  intros H1 H2 H; destruct (get_psnr_finite _ _ _ H) as (pairs & Hb & Hne & Hpos & ->).
  set (sq := map (fun ab => (fst ab - snd ab) ^ 2) pairs) in *.
  assert (Hn : 0 < INR (List.length pairs)).
  { apply lt_0_INR; destruct pairs; [congruence | cbn; lia]. }
  assert (Hle : Rsum sq <= INR (List.length pairs)).
  { replace (List.length pairs) with (List.length sq) by (unfold sq; apply length_map).
    apply Rsum_le_length, Forall_forall; intros x Hx; apply in_map_iff in Hx.
    destruct Hx as (ab & <- & Hab).
    pose proof (broadcast2_members _ _ _ Hb) as Hm; rewrite Forall_forall in Hm.
    destruct (Hm ab Hab) as [Ha Hb'].
    rewrite Forall_forall in H1, H2.
    pose proof (H1 _ Ha) as [? ?]; pose proof (H2 _ Hb') as [? ?]; nra. }
  assert (Hm : 0 < Rsum sq / INR (List.length pairs) <= 1).
  { split; [now apply Rdiv_lt_0_compat|].
    apply (Rmult_le_reg_r (INR (List.length pairs))); [assumption|].
    unfold Rdiv; rewrite Rmult_assoc, Rinv_l by lra; lra. }
  assert (Hln : ln (Rsum sq / INR (List.length pairs)) <= 0).
  { destruct Hm as [Hm0 [Hm1 | ->]]; [|rewrite ln_1; lra].
    rewrite <- ln_1; left; apply ln_increasing; assumption. }
  pose proof ln_10_pos as H10.
  unfold Rdiv; apply Rmult_le_pos; [nra | left; now apply Rinv_0_lt_compat].
Qed.

Lemma get_psnr_unit_range_witness : 0 <= -10 * ln (1 / 2) / ln 10.
Proof.
  apply (get_psnr_unit_range [1; 0] [0; 0]).
  - repeat constructor; unfold unit_interval; lra.
  - repeat constructor; unfold unit_interval; lra.
  - unfold get_psnr; cbn.
    destruct (Req_bool _ 0) eqn:Ez; [apply Req_bool_true in Ez; lra|].
    match goal with
    | |- inr (Fin (_ * ln ?a / _)) = _ => replace a with (1 / 2) by lra
    end; reflexivity.
Defined.

End PsnrFacts.

(* ================================================================= *)
(** ** Coordinate conventions *)

Section CoordinateFacts.
Local Open Scope R_scope.

(** X26.  The change from z-up to y-up is a rotation of the axes: it keeps
    every dot product, and with it lengths and angles, row by row. *)
Theorem coord_z_up_to_y_up_batch_isometry (a b : list vec3) :
  zip_with dot3 (coord_z_up_to_y_up_batch a) (coord_z_up_to_y_up_batch b)
  = zip_with dot3 a b.
Proof.
  unfold coord_z_up_to_y_up_batch.
  revert b; induction a as [|[[a0 a1] a2] a IH]; intros [|[[b0 b1] b2] b];
    cbn [map zip_with]; try reflexivity.
  rewrite IH; f_equal; unfold dot3; ring.
Qed.

(** Going from z-up to y-up twice is the flip from y-up to minus-y-up:
    a quarter turn about the first axis, done twice, is the half
    turn. *)
Theorem coord_z_up_to_y_up_twice (T : list vec3) :
  coord_z_up_to_y_up_translate (coord_z_up_to_y_up_translate T)
  = coord_y_up_to_minus_y_up_translate T.
Proof.
  unfold coord_z_up_to_y_up_translate, coord_y_up_to_minus_y_up_translate.
  rewrite map_map; apply map_ext; intros [[t0 t1] t2]; reflexivity.
Qed.

(** The flips between y-up and minus-y-up undo themselves, for
    translations and for rotation angles. *)
Theorem coord_y_up_to_minus_y_up_involutive (T rot : list vec3) :
  coord_y_up_to_minus_y_up_translate (coord_y_up_to_minus_y_up_translate T) = T /\
  coord_y_up_to_minus_y_up_rotate (coord_y_up_to_minus_y_up_rotate rot) = rot.
Proof.
  unfold coord_y_up_to_minus_y_up_translate, coord_y_up_to_minus_y_up_rotate.
  split; rewrite map_map; rewrite <- map_id; apply map_ext; intros [[x y] z];
    cbn; now rewrite !Ropp_involutive.
Qed.

End CoordinateFacts.

(* ================================================================= *)
(** ** Equirectangular images *)

Section EquirectFacts.
Local Open Scope R_scope.

Lemma broadcast2_same (a b : list R) :
  List.length a = List.length b -> broadcast2 a b = inr (combine a b).
Proof. intros H; unfold broadcast2; now rewrite H, Nat.eqb_refl. Qed.

(** The point of one longitude and latitude. *)
Lemma long_lat_points (long lat : list R) :
  List.length long = List.length lat ->
  long_lat_to_point long lat
  = inr (map (fun ll => (cos (snd ll) * cos (fst ll),
                         cos (snd ll) * sin (fst ll),
                         sin (snd ll)))
             (combine long lat)).
Proof.
  intros Hlen; unfold long_lat_to_point, mul_tensors.
  rewrite !broadcast2_same by (now rewrite !length_map).
  unfold stack3_last.
  rewrite !length_map, !length_combine, !length_map, Hlen, Nat.min_id, Nat.eqb_refl.
  cbn [andb]; f_equal.
  revert lat Hlen; induction long as [|lo long IH]; intros [|la lat] Hlen;
    try discriminate; [reflexivity|].
  cbn [map combine zip_with3 fst snd]; f_equal.
  apply IH; now injection Hlen.
Qed.

(** X27.  [long_lat_to_point] returns one point for every longitude and
    latitude, and each lies on the unit sphere. *)
Theorem long_lat_to_point_unit (long lat : list R) :
  List.length long = List.length lat ->
  exists points,
    long_lat_to_point long lat = inr points /\
    List.length points = List.length lat /\
    Forall (fun p => norm3 p = 1) points.
Proof.
  intros Hlen; eexists; split; [now apply long_lat_points|]; split.
  - now rewrite length_map, length_combine, Hlen, Nat.min_id.
  - rewrite Forall_map; apply Forall_forall; intros [lo la] _; cbn [fst snd norm3].
    rewrite <- sqrt_1; f_equal.
    pose proof (sin2_cos2 lo) as Hlo; pose proof (sin2_cos2 la) as Hla.
    unfold Rsqr in Hlo, Hla.
    replace ((cos la * cos lo) ^ 2 + (cos la * sin lo) ^ 2 + sin la ^ 2)
      with (cos la * cos la * (sin lo * sin lo + cos lo * cos lo) + sin la * sin la)
      by ring.
    rewrite Hlo; lra.
Qed.

Lemma long_lat_to_point_unit_witness :
  exists points,
    long_lat_to_point [0; PI] [0; PI / 2] = inr points /\
    List.length points = 2%nat /\
    Forall (fun p => norm3 p = 1) points.
Proof. apply (long_lat_to_point_unit [0; PI] [0; PI / 2]); reflexivity. Defined.

(** A single latitude is not repeated along several longitudes: the
    first two coordinates broadcast, the third keeps the one element,
    and the stack refuses the sizes. *)
Theorem long_lat_to_point_single_latitude (long : list R) (lat : R) :
  List.length long <> 1%nat ->
  long_lat_to_point long [lat] = inl RuntimeError.
Proof.
  intros Hlen; unfold long_lat_to_point, mul_tensors, broadcast2.
  cbn [map List.length]; rewrite !length_map.
  destruct (Nat.eqb_spec 1 (List.length long)) as [E | _]; [congruence|].
  unfold stack3_last; rewrite !length_map; cbn [List.length].
  rewrite Nat.eqb_refl; cbn [andb].
  destruct (Nat.eqb_spec (List.length long) 1) as [E | _]; [congruence | reflexivity].
Qed.

Lemma long_lat_to_point_single_latitude_witness :
  long_lat_to_point [0; PI] [0] = inl RuntimeError.
Proof. apply (long_lat_to_point_single_latitude [0; PI] 0); simpl; lia. Defined.

(** X28.  The left and the right edge of an equirectangular image, first
    coordinate [-1] and [1], are the same meridian: they give the same
    points on the sphere. *)
Theorem equirect_edges_meet (v : list R) :
  long_lat_to_point (fst (equirect_to_long_lat (map (fun y => (-1, y)) v)))
                    (snd (equirect_to_long_lat (map (fun y => (-1, y)) v)))
  = long_lat_to_point (fst (equirect_to_long_lat (map (fun y => (1, y)) v)))
                      (snd (equirect_to_long_lat (map (fun y => (1, y)) v))).
Proof.
  unfold equirect_to_long_lat; cbn [fst snd].
  rewrite !long_lat_points by (now rewrite !length_map).
  f_equal; rewrite !map_map; cbn [fst snd].
  induction v as [|y v IH]; [reflexivity|].
  cbn [map combine fst snd]; rewrite IH; f_equal.
  replace (-1 * PI) with (- PI) by ring; replace (1 * PI) with PI by ring.
  now rewrite cos_neg, sin_neg, sin_PI, Ropp_0.
Qed.

(** [denormalize_points] takes the square [[-1, 1] x [-1, 1]] into the
    image: first coordinate within the width, second within the
    height. *)
Theorem denormalize_points_in_image (points : list (R * R)) (height width : R) :
  0 <= height -> 0 <= width ->
  Forall (fun q => -1 <= fst q <= 1 /\ -1 <= snd q <= 1) points ->
  Forall (fun q => 0 <= fst q <= width /\ 0 <= snd q <= height)
         (denormalize_points points height width).
Proof.
  intros Hh Hw H; unfold denormalize_points; rewrite Forall_map.
  eapply Forall_impl; [|exact H].
  intros [x y]; cbn [fst snd]; intros [[? ?] [? ?]]; repeat split; nra.
Qed.

Lemma denormalize_points_in_image_witness :
  Forall (fun q => 0 <= fst q <= 640 /\ 0 <= snd q <= 480)
         (denormalize_points [(-1, 1); (0, 1 / 2)] 480 640).
Proof.
  apply (denormalize_points_in_image [(-1, 1); (0, 1 / 2)] 480 640); try lra.
  repeat constructor; cbn; lra.
Defined.

End EquirectFacts.

(* ================================================================= *)
(** ** World and camera coordinates *)

Section WorldCameraFacts.
Local Open Scope R_scope.

Lemma matmul3_assoc (a b c : mat3) :
  matmul3 (matmul3 a b) c = matmul3 a (matmul3 b c).
Proof.
  destruct a as [[[[a00 a01] a02] [[a10 a11] a12]] [[a20 a21] a22]].
  destruct b as [[[[b00 b01] b02] [[b10 b11] b12]] [[b20 b21] b22]].
  destruct c as [[[[c00 c01] c02] [[c10 c11] c12]] [[c20 c21] c22]].
  unfold matmul3; cbn [row3 col3 dot3]; tuple_eq; ring.
Qed.

Lemma matmul3_eye_l (a : mat3) : matmul3 eye3 a = a.
Proof.
  destruct a as [[[[a00 a01] a02] [[a10 a11] a12]] [[a20 a21] a22]].
  unfold matmul3, eye3; cbn [row3 col3 dot3]; tuple_eq; ring.
Qed.

Lemma matmul3_eye_r (a : mat3) : matmul3 a eye3 = a.
Proof.
  destruct a as [[[[a00 a01] a02] [[a10 a11] a12]] [[a20 a21] a22]].
  unfold matmul3, eye3; cbn [row3 col3 dot3]; tuple_eq; ring.
Qed.

Lemma row_matmul_assoc (p : vec3) (a b : mat3) :
  row_matmul (row_matmul p a) b = row_matmul p (matmul3 a b).
Proof.
  destruct p as [[p0 p1] p2].
  destruct a as [[[[a00 a01] a02] [[a10 a11] a12]] [[a20 a21] a22]].
  destruct b as [[[[b00 b01] b02] [[b10 b11] b12]] [[b20 b21] b22]].
  unfold row_matmul, matmul3; cbn [row3 col3 dot3]; tuple_eq; ring.
Qed.

Lemma row_matmul_eye (p : vec3) : row_matmul p eye3 = p.
Proof.
  destruct p as [[p0 p1] p2].
  unfold row_matmul, eye3; cbn [col3 dot3]; tuple_eq; ring.
Qed.

(** The two calls in a row: the rotation is applied twice. *)
Lemma coord_round_trip (points : list vec3) (rot : mat3) (T : vec3) :
  coord_camera_to_world (coord_world_to_camera points rot T) rot T
  = map (fun p => add3 (row_matmul (sub3 p T) (matmul3 rot rot)) T) points.
Proof.
  unfold coord_camera_to_world, coord_world_to_camera, np_transpose_0_1.
  rewrite !map_map; apply map_ext; intros p; now rewrite row_matmul_assoc.
Qed.

Lemma add3_sub3 (p T : vec3) : add3 (sub3 p T) T = p.
Proof.
  destruct p as [[p0 p1] p2], T as [[t0 t1] t2]; cbn; tuple_eq; ring.
Qed.

(** X29.  For a rotation matrix, [coord_camera_to_world] takes the points of
    [coord_world_to_camera] back to where they were exactly when the
    matrix is symmetric: [transpose(0, 1)] leaves the matrix as it is,
    so the rotation is applied a second time instead of being undone. *)
Theorem coord_camera_to_world_inverts (rot : mat3) (T : vec3) :
  matmul3 rot (transpose3 rot) = eye3 ->
  ((forall points,
       coord_camera_to_world (coord_world_to_camera points rot T) rot T = points)
   <-> transpose3 rot = rot).
Proof.
  intros Hrot; split.
  - intros H.
    assert (Hsq : matmul3 rot rot = eye3).
    { pose proof (H [add3 (1, 0, 0) T; add3 (0, 1, 0) T; add3 (0, 0, 1) T]) as E.
      rewrite coord_round_trip in E; cbn [map] in E.
      destruct T as [[t0 t1] t2].
      destruct (matmul3 rot rot) as [[[[s00 s01] s02] [[s10 s11] s12]] [[s20 s21] s22]].
      unfold row_matmul, eye3 in *; cbn [add3 sub3 col3 dot3] in E.
      injection E as E1 E2 E3 E4 E5 E6 E7 E8 E9.
      tuple_eq; lra. }
    rewrite <- (matmul3_eye_l (transpose3 rot)), <- Hsq, matmul3_assoc, Hrot.
    apply matmul3_eye_r.
  - intros Hsym points.
    assert (Hsq : matmul3 rot rot = eye3) by (rewrite <- Hsym at 2; exact Hrot).
    rewrite coord_round_trip, Hsq.
    rewrite <- map_id; apply map_ext; intros p.
    now rewrite row_matmul_eye, add3_sub3.
Qed.

Lemma coord_camera_to_world_inverts_witness :
  (forall points,
      coord_camera_to_world
        (coord_world_to_camera points ((1, 0, 0), (0, -1, 0), (0, 0, -1)) (1, 2, 3))
        ((1, 0, 0), (0, -1, 0), (0, 0, -1)) (1, 2, 3) = points)
  <-> transpose3 ((1, 0, 0), (0, -1, 0), (0, 0, -1)) = ((1, 0, 0), (0, -1, 0), (0, 0, -1)).
Proof.
  apply (coord_camera_to_world_inverts ((1, 0, 0), (0, -1, 0), (0, 0, -1)) (1, 2, 3)).
  unfold matmul3, transpose3, eye3; cbn [row3 col3 dot3]; tuple_eq; ring.
Defined.

(** A quarter turn about the third axis is not undone: the point
    [(1, 0, 0)] comes back as [(-1, 0, 0)]. *)
Example coord_round_trip_quarter_turn :
  coord_camera_to_world
    (coord_world_to_camera [(1, 0, 0)] ((0, -1, 0), (1, 0, 0), (0, 0, 1)) (0, 0, 0))
    ((0, -1, 0), (1, 0, 0), (0, 0, 1)) (0, 0, 0)
  = [(-1, 0, 0)].
Proof.
  unfold coord_camera_to_world, coord_world_to_camera, np_transpose_0_1, row_matmul.
  cbn [map sub3 add3 col3 dot3]; f_equal; tuple_eq; ring.
Qed.

End WorldCameraFacts.

(* ================================================================= *)
(** ** Colour curve *)

Section SrgbFacts.
Local Open Scope R_scope.

Lemma np_clip_unit (x : R) : unit_interval (np_clip x 0 1).
Proof.
  unfold unit_interval, np_clip, Rmin, Rmax.
  destruct (Rle_dec x 0); destruct (Rle_dec _ 1); lra.
Qed.

Lemma Rpower_le_1 (x y : R) : 0 < x <= 1 -> 0 <= y -> Rpower x y <= 1.
Proof.
  intros Hx Hy.
  apply Rle_trans with (Rpower 1 y); [apply Rle_Rpower_l; [assumption | lra]|].
  right; unfold Rpower; rewrite ln_1, Rmult_0_r; apply exp_0.
Qed.

(** Above the threshold of the linear part the power is above 0.06,
    since [0.06 ^ 12 <= 0.0031308 ^ 5]. *)
Lemma Rpower_above_threshold (x : R) :
  0.0031308 < x -> 0.06 <= Rpower x (1 / 2.4).
Proof.
  intros Hx.
  replace (1 / 2.4) with (INR 5 * / 12) by (cbn; lra).
  rewrite <- Rpower_mult, Rpower_pow by lra.
  replace 0.06 with (Rpower (Rpower 0.06 (INR 12)) (/ 12)) at 1.
  2:{ rewrite Rpower_mult.
      replace (INR 12 * / 12) with 1 by (cbn; lra).
      apply Rpower_1; lra. }
  rewrite Rpower_pow by lra.
  apply Rle_Rpower_l; [lra|].
  split; [apply pow_lt; lra|].
  apply Rle_trans with (0.0031308 ^ 5); [lra|].
  apply pow_incr; lra.
Qed.

(** X30.  Whatever the input, every value of the converted image lies in
    [[0, 1]]: the clip bounds the input, the linear part stays below
    0.0405 and the power part between 0.008 and 1. *)
Theorem clip_and_convert_rgb_to_srgb_range (img : list R) :
  List.length (clip_and_convert_rgb_to_srgb img) = List.length img /\
  Forall unit_interval (clip_and_convert_rgb_to_srgb img).
Proof.
  unfold clip_and_convert_rgb_to_srgb; split; [now rewrite !length_map|].
  rewrite !Forall_map; apply Forall_forall; intros x _.
  pose proof (np_clip_unit x) as [H0 H1]; set (c := np_clip x 0 1) in *.
  destruct (Rle_bool c 0.0031308) eqn:E.
  - apply Rle_bool_true in E; unfold unit_interval; lra.
  - apply Rle_bool_false in E.
    pose proof (Rpower_above_threshold c E).
    pose proof (Rpower_le_1 c (1 / 2.4) ltac:(lra) ltac:(lra)).
    unfold unit_interval; lra.
Qed.

End SrgbFacts.
